(** * ufoProcessor: a shallow embedding of [Lib/ufoProcessor/__init__.py]

    The development follows the Python module top-down: the font object
    model that the module manipulates (glyphs, components, kerning, groups,
    info, lib), [swapGlyphNames], the design-space locations with
    [isAnisotropic] and [splitAnisotropic], and the [DesignSpaceProcessor]
    with its mutator caches, [collectMastersForGlyph] and [makeInstance].

    Numbers (coordinates, widths, kerning values, axis values) are rationals:
    the module itself performs no arithmetic on them, it copies and compares
    them; all interpolation arithmetic happens behind the fontMath and
    mutator interfaces, which are kept abstract. *)

From Stdlib Require Import ZArith QArith String.
From stdpp Require Import base option list gmap strings.

(** ** The font object model (defcon) as far as the module touches it *)

Definition Point : Type := Q * Q.
Definition Contour : Type := list Point.

(** A component transformation [(xx, xy, yx, yy, dx, dy)]. *)
Definition Transformation : Type := Q * Q * Q * Q * Q * Q.

Definition _defaultTransformation : Transformation :=
  (1#1, 0#1, 0#1, 1#1, 0#1, 0#1)%Q.

Record Component := mkComponent {
  baseGlyph : string;
  transformation : Transformation
}.

Record Glyph := mkGlyph {
  contours : list Contour;
  components : list Component;
  width : Q;
  unicodes : list Z;
  note : option string
}.

(** Values stored in [font.info] and [font.lib]. *)
Inductive PyVal :=
| VNone
| VStr (s : string)
| VNum (q : Q)
| VNums (qs : list Q)
| VStrs (ss : list string).

(** One value of a design-space location: a number, or a Python tuple
    [(horizontal, vertical)]. *)
Inductive AxisValue :=
| Scalar (v : Q)
| Pair (x y : Q).

Global Instance Q_eq_dec : EqDecision Q.
Proof. solve_decision. Defined.
Global Instance AxisValue_eq_dec : EqDecision AxisValue.
Proof. solve_decision. Defined.

Inductive LibValue :=
| LVal (v : PyVal)
| LItems (items : list (string * AxisValue)).

(** [features.text] is [None], a [str] or a [unicode] object. *)
Inductive FeaturesText :=
| FNone
| FStr (s : string)
| FUnicode (s : string).

Record Font := mkFont {
  path : option string;
  glyphs : gmap string Glyph;                 (* the default layer *)
  layers : gmap string (gmap string Glyph);   (* [font.layers] by name *)
  kerning : gmap (string * string) Q;
  groups : gmap string (list string);
  info : gmap string PyVal;
  lib : gmap string LibValue;
  features : FeaturesText;
  kerningGroupConversionRenameMaps : option (gmap string string)
}.

Definition set_glyphs (f : Font) (gs : gmap string Glyph) : Font :=
  mkFont (path f) gs (layers f) (kerning f) (groups f) (info f) (lib f)
         (features f) (kerningGroupConversionRenameMaps f).
Definition set_kerning (f : Font) (k : gmap (string * string) Q) : Font :=
  mkFont (path f) (glyphs f) (layers f) k (groups f) (info f) (lib f)
         (features f) (kerningGroupConversionRenameMaps f).
Definition set_groups (f : Font) (g : gmap string (list string)) : Font :=
  mkFont (path f) (glyphs f) (layers f) (kerning f) g (info f) (lib f)
         (features f) (kerningGroupConversionRenameMaps f).
Definition set_info (f : Font) (i : gmap string PyVal) : Font :=
  mkFont (path f) (glyphs f) (layers f) (kerning f) (groups f) i (lib f)
         (features f) (kerningGroupConversionRenameMaps f).
Definition set_lib (f : Font) (l : gmap string LibValue) : Font :=
  mkFont (path f) (glyphs f) (layers f) (kerning f) (groups f) (info f) l
         (features f) (kerningGroupConversionRenameMaps f).
Definition set_features (f : Font) (t : FeaturesText) : Font :=
  mkFont (path f) (glyphs f) (layers f) (kerning f) (groups f) (info f) (lib f)
         t (kerningGroupConversionRenameMaps f).
Definition set_renameMaps (f : Font) (r : option (gmap string string)) : Font :=
  mkFont (path f) (glyphs f) (layers f) (kerning f) (groups f) (info f) (lib f)
         (features f) r.

Definition set_outline (g : Glyph) (cs : list Contour) (ks : list Component) : Glyph :=
  mkGlyph cs ks (width g) (unicodes g) (note g).
Definition set_components (g : Glyph) (ks : list Component) : Glyph :=
  mkGlyph (contours g) ks (width g) (unicodes g) (note g).
Definition set_width (g : Glyph) (w : Q) : Glyph :=
  mkGlyph (contours g) (components g) w (unicodes g) (note g).
Definition set_unicodes (g : Glyph) (u : list Z) : Glyph :=
  mkGlyph (contours g) (components g) (width g) u (note g).

(** A glyph as [font.newGlyph(name)] creates it. *)
Definition emptyGlyph : Glyph := mkGlyph [] [] (0#1)%Q [] None.

(** [font.newGlyph(name)]: a fresh glyph under [name], replacing any glyph
    that was there. *)
Definition newGlyph (name : string) (gs : gmap string Glyph) : gmap string Glyph :=
  <[name := emptyGlyph]> gs.

(** [glyph.clear()]: the outline (contours and components) is emptied. *)
Definition clear (g : Glyph) : Glyph := set_outline g [] [].

(** [source.drawPoints(target.getPointPen())]: the contours and components
    of [source] are appended to those of [target]. *)
Definition drawPoints (source target : Glyph) : Glyph :=
  set_outline target (contours target ++ contours source)
                     (components target ++ components source).

(** ** swapGlyphNames *)

(** The three statements that move one outline:
    [font[dst].clear(); font[src].drawPoints(font[dst].getPointPen());
     font[dst].width = font[src].width]. *)
Definition copyOutline (src dst : string) (gs : gmap string Glyph) : gmap string Glyph :=
  let gs1 := alter clear dst gs in
  match gs1 !! src, gs1 !! dst with
  | Some s, Some d => <[dst := set_width (drawPoints s d) (width s)]> gs1
  | _, _ => gs1
  end.

(** [if c.baseGlyph == from: c.baseGlyph = to] *)
Definition renameBase (from to : string) (c : Component) : Component :=
  if decide (baseGlyph c = from) then mkComponent to (transformation c) else c.

(** One [for g in font: for c in g.components: ...] pass. *)
Definition remapComponents (from to : string) (gs : gmap string Glyph) : gmap string Glyph :=
  (λ g, set_components g (renameBase from to <$> components g)) <$> gs.

(** The [if ... elif ...] exchange of the two names, used for both halves
    of a kerning pair and for group members. *)
Definition exchangeName (oldName newName name : string) : string :=
  if decide (name = oldName) then newName
  else if decide (name = newName) then oldName
  else name.

(** [g.name.find(swapNameExtension) != -1] *)
Definition hasExtension (swapNameExtension name : string) : bool :=
  match String.index 0 swapNameExtension name with
  | Some _ => true
  | None => false
  end.

(** [name in font] *)
Definition inFont (name : string) (font : Font) : bool :=
  bool_decide (is_Some (glyphs font !! name)).

Definition defaultSwapNameExtension : string := "_______________swap".

(** [swapGlyphNames(font, oldName, newName, swapNameExtension)]. The function
    works on [font] in place and returns [None] on every path: the model
    returns the unit value together with the font after the call. The glyph
    under [swapName] is the parking glyph. *)
Definition swapGlyphNames (font : Font) (oldName newName : string)
    (swapNameExtension : string) : unit * Font :=
  if negb (inFont oldName font) || negb (inFont newName font) then (tt, font)
  else
    let swapName := oldName +:+ swapNameExtension in
    (* park the old glyph *)
    let gs := if negb (inFont swapName font)
              then newGlyph swapName (glyphs font) else glyphs font in
    (* swap the outlines *)
    let gs := copyOutline oldName swapName gs in
    let gs := copyOutline newName oldName gs in
    let gs := copyOutline swapName newName gs in
    (* remap the components *)
    let gs := remapComponents oldName swapName gs in
    let gs := remapComponents newName oldName gs in
    let gs := remapComponents swapName newName gs in
    (* the names swap in the kerning as well *)
    let newKerning :=
      map_fold (λ (pair : string * string) (value : Q) (acc : gmap (string * string) Q),
                  <[(exchangeName oldName newName pair.1,
                     exchangeName oldName newName pair.2) := value]> acc)
               ∅ (kerning font) in
    let newGroups :=
      (λ members : list string, exchangeName oldName newName <$> members)
        <$> groups font in
    (* every glyph whose name contains the extension is deleted *)
    let gs := filter (λ entry : string * Glyph,
                        hasExtension swapNameExtension entry.1 = false) gs in
    (tt, set_groups (set_kerning (set_glyphs font gs) newKerning) newGroups).

(** ** Design-space locations *)

(** [type(v) == tuple] *)
Definition isTuple (v : AxisValue) : bool :=
  match v with Pair _ _ => true | Scalar _ => false end.

(** [isAnisotropic(location)]: the loop that returns [True] at the first
    tuple value and [False] when it runs to the end. *)
Definition isAnisotropic (location : gmap string AxisValue) : bool :=
  map_fold (λ (_ : string) (v : AxisValue) (found : bool), isTuple v || found)
           false location.

(** [splitAnisotropic(location)]: the loop filling the two dictionaries
    [x] and [y]. *)
Definition splitAnisotropic (location : gmap string AxisValue)
    : gmap string AxisValue * gmap string AxisValue :=
  map_fold (λ (dim : string) (val : AxisValue)
              (xy : gmap string AxisValue * gmap string AxisValue),
              match val with
              | Pair v0 v1 => (<[dim := Scalar v0]> xy.1, <[dim := Scalar v1]> xy.2)
              | Scalar v => (<[dim := Scalar v]> xy.1, <[dim := Scalar v]> xy.2)
              end)
           (∅, ∅) location.

(** ** Exceptions and results *)

Inductive exn :=
| IndexError
| TypeError
| AttributeError
| KeyError
| RuntimeError                 (* maximum recursion depth exceeded *)
| UFOProcessorError (msg : string)
| OtherError (tag : string).   (* anything else a collaborator raises *)

Global Instance exn_eq_dec : EqDecision exn.
Proof. solve_decision. Defined.

Inductive res (A : Type) :=
| Ok (a : A)
| Raise (e : exn).
Arguments Ok {A} a.
Arguments Raise {A} e.

Global Instance res_ret : MRet res := λ A a, Ok a.
Global Instance res_bind : MBind res := λ A B k r,
  match r with
  | Ok a => k a
  | Raise e => Raise e
  end.

(** What the processor appends to [self.problems]. The formatted traceback
    of a message is kept as the exception it was formatted from. *)
Inductive Problem :=
| VariationModelProblem (e : exn)
| KerningProblem (loc : gmap string AxisValue) (e : exn)
| FontinfoProblem (loc : gmap string AxisValue) (e : exn)
| MutatorProblem (glyphName : string) (e : exn)
| LoadedMaster (path : string) (formatVersion : Z)
| SourceNotFound (path : string)
| CantOverwrite (path : string) (existing target : Z)
| Generated (path : string) (formatVersion : Z).

(** ** Descriptors of the design-space document *)

Record AxisDescriptor := mkAxis {
  axis_name : string;
  axis_minimum : Q;
  axis_default : Q;
  axis_maximum : Q;
  axis_map : list (Q * Q)
}.

Record SourceDescriptor := mkSource {
  source_name : string;
  source_path : string;
  source_location : gmap string AxisValue;
  mutedGlyphNames : list string;
  layerName : option string;
  copyInfo : bool;
  copyLib : bool;
  copyFeatures : bool
}.

(** One entry of a per-glyph [masters] list of an instance. *)
Record GlyphMaster := mkGlyphMaster {
  master_font : option string;
  master_glyphName : option string;
  master_location : gmap string AxisValue
}.

(** The per-glyph dictionary [instanceDescriptor.glyphs[glyphName]]; a key
    that is missing is [None] here. *)
Record GlyphData := mkGlyphData {
  data_mute : option bool;
  data_instanceLocation : option (gmap string AxisValue);
  data_unicodes : option (list Z);
  data_note : option string;
  data_masters : option (list GlyphMaster)
}.

Definition emptyGlyphData : GlyphData := mkGlyphData None None None None None.

Record InstanceDescriptor := mkInstance {
  instance_path : option string;
  instance_location : gmap string AxisValue;
  familyName : option string;
  styleName : option string;
  postScriptFontName : option string;
  styleMapFamilyName : option string;
  styleMapStyleName : option string;
  instance_kerning : bool;
  instance_glyphs : gmap string GlyphData
}.

(** A name attribute of a descriptor as a value of [font.info]. *)
Definition nameValue (o : option string) : PyVal :=
  match o with
  | Some s => VStr s
  | None => VNone
  end.

(** The [sourceInfo] dictionary built for every collected master. *)
Record SourceInfo := mkSourceInfo {
  info_source : option string;
  info_glyphName : string;
  info_layerName : string;
  info_location : gmap string AxisValue;
  info_sourceName : string
}.

(** ** The collaborators *)

(** A fontMath object: what [(a, b) * v] and [v + w] give. Both can fail on
    data that does not line up. *)
Class MathObject (V : Type) := {
  rmul : Z * Z → V → res V;
  madd : V → V → res V
}.

(** fontMath's [MathInfo], [MathKerning] and [MathGlyph]. A call that
    raises is taken to leave the object it was writing to as it was. *)
Class FontMath := {
  MathInfo : Type;
  MathKerning : Type;
  MathGlyph : Type;
  MathInfo_object :: MathObject MathInfo;
  MathGlyph_object :: MathObject MathGlyph;
  (* [MathInfo(font)]; the font may be [None] *)
  mathInfoClass : option Font → res MathInfo;
  (* [infoObject.extractInfo(font.info)] *)
  extractInfo : MathInfo → gmap string PyVal → res (gmap string PyVal);
  (* [MathKerning(font.kerning, font.groups)] *)
  mathKerningClass : gmap (string * string) Q → gmap string (list string) → res MathKerning;
  (* [kerningObject.extractKerning(font)] *)
  extractKerning : MathKerning → Font → res Font;
  (* [MathGlyph(glyph)], also reached through [glyph.toMathGlyph()] *)
  mathGlyphClass : Glyph → res MathGlyph;
  (* [MathGlyph(mathGlyph)]: the class applied to one of its own objects *)
  mathGlyphClass_again : MathGlyph → res MathGlyph;
  (* [glyphObject.round()] *)
  math_round : MathGlyph → res MathGlyph;
  (* [glyphObject.extractGlyph(glyph, onlyGeometry=True)] *)
  extractGlyph : MathGlyph → Glyph → res Glyph;
  (* [glyphObject.drawPoints(glyph.getPointPen())] *)
  math_drawPoints : MathGlyph → Glyph → res Glyph;
  math_width : MathGlyph → Q;
  math_unicodes : MathGlyph → list Z
}.

(** A mutator object: [mutator.makeInstance(location)], and
    [mutator.get(())[0]], the neutral when the mutator has one. *)
Record Mutator (V : Type) := mkMutator {
  mutator_makeInstance : gmap string AxisValue → res V;
  mutator_neutral : option V
}.
Arguments mkMutator {V} _ _.
Arguments mutator_makeInstance {V} _ _.
Arguments mutator_neutral {V} _.

(** The two back-ends: mutatorMath's [buildMutator(items, axes, bias)],
    which returns a pair [(bias, mutator)], and [VariationModelMutator(items,
    axes)]. *)
Class VariationBackends := {
  buildMutator : ∀ V : Type, list (gmap string AxisValue * V) →
                 list (string * AxisDescriptor) → gmap string AxisValue →
                 res (gmap string AxisValue * option (Mutator V));
  VariationModelMutator : ∀ V : Type, list (gmap string AxisValue * V) →
                 list AxisDescriptor → res (Mutator V)
}.

(** fontTools.designspaceLib: rules and what the document inherits. *)
Class DesignSpaceLib := {
  RuleDescriptor : Type;
  processRules : list RuleDescriptor → gmap string AxisValue → list string → list string;
  (* [findDefault()]: the source at the default location, or [None] *)
  findDefault : list SourceDescriptor → list AxisDescriptor → option SourceDescriptor
}.

(** ufoLib's attribute lists per format version. *)
Class UfoLib := {
  fontInfoAttributesVersion1 : list string;
  fontInfoAttributesVersion2 : list string;
  fontInfoAttributesVersion3 : list string
}.

(** defcon's [TransformPointPen] and the depth the interpreter lets the
    recursion through components reach. *)
Class PointPens := {
  transformContour : Transformation → Contour → Contour;
  composeTransformation : Transformation → Transformation → Transformation;
  recursionLimit : nat
}.

(** [d.get(key, fallback)] once the lookup [d.get(key)] is made. *)
Definition get_or {A : Type} (o : option A) (fallback : A) : A :=
  match o with
  | Some a => a
  | None => fallback
  end.

(** ** The processor *)

Section Processor.
Context {FM : FontMath} {VB : VariationBackends} {DSL : DesignSpaceLib}
        {UL : UfoLib} {PP : PointPens}.

(** The attributes of a [DesignSpaceProcessor], the inherited ones of the
    document first. Two parts of the world that the methods act on are
    threaded with them: the UFOs on disk and the standard output. *)
Record DesignSpaceProcessor := mkProcessor {
  sources : list SourceDescriptor;
  instances : list InstanceDescriptor;
  axes : list AxisDescriptor;
  rules : list RuleDescriptor;
  default : option SourceDescriptor;
  defaultLoc : gmap string AxisValue;
  ufoVersion : Z;
  useVarlib : bool;
  roundGeometry : bool;
  _glyphMutators : gmap (string * bool) (option (Mutator MathGlyph));
  _infoMutator : option (Mutator MathInfo);
  _kerningMutator : option (Mutator MathKerning);
  fonts : gmap string (option Font);
  _fontsLoaded : bool;
  glyphNames : list string;
  problems : list Problem;
  disk : gmap string (Z * Font);   (* path of a UFO ↦ format version, content *)
  stdout : list string
}.

Definition set_default (p : DesignSpaceProcessor) (d : option SourceDescriptor) :=
  mkProcessor (sources p) (instances p) (axes p) (rules p) d (defaultLoc p)
    (ufoVersion p) (useVarlib p) (roundGeometry p) (_glyphMutators p)
    (_infoMutator p) (_kerningMutator p) (fonts p) (_fontsLoaded p)
    (glyphNames p) (problems p) (disk p) (stdout p).
Definition set_glyphMutators (p : DesignSpaceProcessor)
    (c : gmap (string * bool) (option (Mutator MathGlyph))) :=
  mkProcessor (sources p) (instances p) (axes p) (rules p) (default p) (defaultLoc p)
    (ufoVersion p) (useVarlib p) (roundGeometry p) c
    (_infoMutator p) (_kerningMutator p) (fonts p) (_fontsLoaded p)
    (glyphNames p) (problems p) (disk p) (stdout p).
Definition set_infoMutator (p : DesignSpaceProcessor) (m : option (Mutator MathInfo)) :=
  mkProcessor (sources p) (instances p) (axes p) (rules p) (default p) (defaultLoc p)
    (ufoVersion p) (useVarlib p) (roundGeometry p) (_glyphMutators p)
    m (_kerningMutator p) (fonts p) (_fontsLoaded p)
    (glyphNames p) (problems p) (disk p) (stdout p).
Definition set_kerningMutator (p : DesignSpaceProcessor) (m : option (Mutator MathKerning)) :=
  mkProcessor (sources p) (instances p) (axes p) (rules p) (default p) (defaultLoc p)
    (ufoVersion p) (useVarlib p) (roundGeometry p) (_glyphMutators p)
    (_infoMutator p) m (fonts p) (_fontsLoaded p)
    (glyphNames p) (problems p) (disk p) (stdout p).
Definition set_fonts (p : DesignSpaceProcessor) (fs : gmap string (option Font))
    (loaded : bool) (names : list string) :=
  mkProcessor (sources p) (instances p) (axes p) (rules p) (default p) (defaultLoc p)
    (ufoVersion p) (useVarlib p) (roundGeometry p) (_glyphMutators p)
    (_infoMutator p) (_kerningMutator p) fs loaded
    names (problems p) (disk p) (stdout p).
Definition set_problems (p : DesignSpaceProcessor) (l : list Problem) :=
  mkProcessor (sources p) (instances p) (axes p) (rules p) (default p) (defaultLoc p)
    (ufoVersion p) (useVarlib p) (roundGeometry p) (_glyphMutators p)
    (_infoMutator p) (_kerningMutator p) (fonts p) (_fontsLoaded p)
    (glyphNames p) l (disk p) (stdout p).
Definition set_disk (p : DesignSpaceProcessor) (d : gmap string (Z * Font)) :=
  mkProcessor (sources p) (instances p) (axes p) (rules p) (default p) (defaultLoc p)
    (ufoVersion p) (useVarlib p) (roundGeometry p) (_glyphMutators p)
    (_infoMutator p) (_kerningMutator p) (fonts p) (_fontsLoaded p)
    (glyphNames p) (problems p) d (stdout p).
Definition set_stdout (p : DesignSpaceProcessor) (o : list string) :=
  mkProcessor (sources p) (instances p) (axes p) (rules p) (default p) (defaultLoc p)
    (ufoVersion p) (useVarlib p) (roundGeometry p) (_glyphMutators p)
    (_infoMutator p) (_kerningMutator p) (fonts p) (_fontsLoaded p)
    (glyphNames p) (problems p) (disk p) o.

(** *** Methods as state transformers that may raise

    A method takes the processor and gives a result or an exception, and the
    processor as the method left it: what was assigned before an exception
    stays assigned. *)
Definition M (A : Type) : Type :=
  DesignSpaceProcessor → res A * DesignSpaceProcessor.

Global Instance M_ret : MRet M := λ A a p, (Ok a, p).
Global Instance M_bind : MBind M := λ A B k m p,
  match m p with
  | (Ok a, p') => k a p'
  | (Raise e, p') => (Raise e, p')
  end.

Definition raise {A : Type} (e : exn) : M A := λ p, (Raise e, p).
Definition lift {A : Type} (r : res A) : M A := λ p, (r, p).
Definition self : M DesignSpaceProcessor := λ p, (Ok p, p).
Definition update (f : DesignSpaceProcessor → DesignSpaceProcessor) : M unit :=
  λ p, (Ok tt, f p).

(** [try: body except: handler] *)
Definition try_except {A : Type} (body : M A) (handler : exn → M A) : M A := λ p,
  match body p with
  | (Ok a, p') => (Ok a, p')
  | (Raise e, p') => handler e p'
  end.

(** [try: body except E: handler], for the exception [E] alone *)
Definition try_except_only {A : Type} (E : exn)
    (body : M A) (handler : M A) : M A := λ p,
  match body p with
  | (Ok a, p') => (Ok a, p')
  | (Raise e, p') => if decide (e = E) then handler p' else (Raise e, p')
  end.

(** [self.problems.append(problem)] *)
Definition problems_append (problem : Problem) : M unit :=
  update (λ p, set_problems p (problems p ++ [problem])).

(** [print(line)] *)
Definition print (line : string) : M unit :=
  update (λ p, set_stdout p (stdout p ++ [line])).

(** [x.attribute] and [x.method(...)] on a value that may be [None] *)
Definition deref {A : Type} (o : option A) : res A :=
  match o with
  | Some a => Ok a
  | None => Raise AttributeError
  end.

(** [d[key]] on a dictionary *)
Definition getitem `{Countable K} {A : Type} (d : gmap K A) (key : K) : res A :=
  match d !! key with
  | Some a => Ok a
  | None => Raise KeyError
  end.

(** [a, b = value] where the value may be [None] *)
Definition unpack {A : Type} (value : option A) : res A :=
  match value with
  | Some a => Ok a
  | None => Raise TypeError
  end.

(** [getMutatorAxes()]: the axes by name, in the order of the document. *)
Definition getMutatorAxes (p : DesignSpaceProcessor) : list (string * AxisDescriptor) :=
  (λ a, (axis_name a, a)) <$> axes p.

(** [getVariationModel(items, axes, bias)]: [None] when the model cannot be
    built, after the failure is noted in the problems. The [axes] argument is
    not looked at by the method, which takes the axes of the document. *)
Definition getVariationModel {V : Type} (items : list (gmap string AxisValue * V))
    (bias : gmap string AxisValue)
    : M (option (gmap string AxisValue * option (Mutator V))) :=
  try_except
    (p ← self;
     if useVarlib p then
       m ← lift (VariationModelMutator V items (axes p));
       mret (Some (∅, Some m))
     else
       r ← lift (buildMutator V items (getMutatorAxes p) bias);
       mret (Some r))
    (λ e, problems_append (VariationModelProblem e);; mret None).

(** [getInfoMutator()]. A mutator that was built counts as true in
    [if self._infoMutator], and [None] as false. *)
Definition getInfoMutator : M (option (Mutator MathInfo)) :=
  p ← self;
  if bool_decide (is_Some (_infoMutator p)) then mret (_infoMutator p)
  else
    infoItems ← lift (mapM (λ sourceDescriptor,
                   sourceFont ← getitem (fonts p) (source_name sourceDescriptor);
                   mathInfo ← mathInfoClass sourceFont;
                   mret (source_location sourceDescriptor, mathInfo))
                 (sources p));
    model ← getVariationModel infoItems (defaultLoc p);
    pair ← lift (unpack model);
    update (λ p, set_infoMutator p pair.2);;
    mret pair.2.

(** [getKerningMutator()] *)
Definition getKerningMutator : M (option (Mutator MathKerning)) :=
  p ← self;
  if bool_decide (is_Some (_kerningMutator p)) then mret (_kerningMutator p)
  else
    kerningItems ← lift (mapM (λ sourceDescriptor,
                   sourceFont ← getitem (fonts p) (source_name sourceDescriptor);
                   sourceFont ← deref sourceFont;
                   mathKerning ← mathKerningClass (kerning sourceFont) (groups sourceFont);
                   mret (source_location sourceDescriptor, mathKerning))
                 (sources p));
    model ← getVariationModel kerningItems (defaultLoc p);
    pair ← lift (unpack model);
    update (λ p, set_kerningMutator p pair.2);;
    mret pair.2.


(** [for x in xs: ...] over a value [s] that the body rebinds. *)
Fixpoint for_each {A S : Type} (body : A → S → M S) (xs : list A) (s : S) : M S :=
  match xs with
  | [] => mret s
  | x :: xs => s ← body x s; for_each body xs s
  end.

(** *** DecomposePointPen *)

(** [transformation == _defaultTransformation], a comparison of tuples of
    numbers. *)
Definition isDefaultTransformation (t : Transformation) : bool :=
  let '(xx, xy, yx, yy, dx, dy) := t in
  let '(xx0, xy0, yx0, yy0, dx0, dy0) := _defaultTransformation in
  Qeq_bool xx xx0 && Qeq_bool xy xy0 && Qeq_bool yx yx0 &&
  Qeq_bool yy yy0 && Qeq_bool dx dx0 && Qeq_bool dy dy0.

(** [glyph.drawPoints(pen)] where [pen] is a [DecomposePointPen] over
    [glyphSet], or a [TransformPointPen] of transformation [through] around
    one. The paths of the glyph go to the out pen, its components are
    followed into [glyphSet]; a component whose base glyph is missing draws
    nothing. The result is the list of the paths drawn. *)
Fixpoint decompose (depth : nat) (glyphSet : gmap string Glyph)
    (through : option Transformation) (glyph : Glyph) : res (list Contour) :=
  match depth with
  | O => Raise RuntimeError
  | S depth =>
      let own := match through with
                 | None => contours glyph
                 | Some t => transformContour t <$> contours glyph
                 end in
      nested ← mapM (λ c : Component,
                  let t := match through with
                           | None => transformation c
                           | Some outer => composeTransformation outer (transformation c)
                           end in
                  match glyphSet !! baseGlyph c with
                  | Some base =>
                      if isDefaultTransformation t
                      then decompose depth glyphSet None base
                      else decompose depth glyphSet (Some t) base
                  | None => Ok []
                  end)
                (components glyph);
      Ok (own ++ concat nested)
  end.

(** *** collectMastersForGlyph *)

(** One turn of the loop over the sources: [None] where the loop says
    [continue], the item it appends otherwise. *)
Definition collectMaster (p : DesignSpaceProcessor) (glyphName : string)
    (decomposeComponents : bool) (sourceDescriptor : SourceDescriptor)
    : res (option (gmap string AxisValue * MathGlyph * SourceInfo)) :=
  let loc := source_location sourceDescriptor in
  f ← getitem (fonts p) (source_name sourceDescriptor);
  if bool_decide (glyphName ∈ mutedGlyphNames sourceDescriptor) then Ok None
  else
    f ← unpack f;                      (* [glyphName in None] is a TypeError *)
    if negb (inFont glyphName f) then Ok None
    else
      let layer : option (gmap string Glyph * string) :=
        match layerName sourceDescriptor with
        | Some name =>
            match layers f !! name with
            | Some sourceLayer =>
                if bool_decide (is_Some (sourceLayer !! glyphName))
                then Some (sourceLayer, name)
                else None              (* a support in a sparse layer: skip *)
            | None => Some (glyphs f, "foreground")
            end
        | None => Some (glyphs f, "foreground")
        end in
      match layer with
      | None => Ok None
      | Some (sourceLayer, layerName) =>
          sourceGlyphObject ← getitem sourceLayer glyphName;
          processThis ←
            (if decomposeComponents then
               drawn ← decompose recursionLimit sourceLayer None sourceGlyphObject;
               Ok (mkGlyph drawn [] (width sourceGlyphObject) [] None)
             else Ok sourceGlyphObject);
          let sourceInfo :=
            mkSourceInfo (path f) glyphName layerName
                         (source_location sourceDescriptor)
                         (source_name sourceDescriptor) in
          processThis ← mathGlyphClass processThis;
          Ok (Some (loc, processThis, sourceInfo))
      end.

Definition collectMastersForGlyph (p : DesignSpaceProcessor) (glyphName : string)
    (decomposeComponents : bool)
    : res (list (gmap string AxisValue * MathGlyph * SourceInfo)) :=
  turns ← mapM (collectMaster p glyphName decomposeComponents) (sources p);
  Ok (omap id turns).

(** *** getGlyphMutator *)

Definition getGlyphMutator (glyphName : string) (decomposeComponents : bool)
    (fromCache : bool) : M (option (Mutator MathGlyph)) :=
  p ← self;
  let cacheKey := (glyphName, decomposeComponents) in
  if bool_decide (is_Some (_glyphMutators p !! cacheKey)) && fromCache then
    lift (getitem (_glyphMutators p) cacheKey)
  else
    items ← lift (collectMastersForGlyph p glyphName decomposeComponents);
    new ← lift (mapM (λ item : gmap string AxisValue * MathGlyph * SourceInfo,
                   b ← mathGlyphClass_again item.1.2;
                   mret (item.1.1, b))
                 items);
    model ← getVariationModel new (defaultLoc p);
    pair ← lift (unpack model);
    update (λ p, set_glyphMutators p (<[cacheKey := pair.2]> (_glyphMutators p)));;
    mret pair.2.

(** *** _copyFontInfo *)

Definition infoAttributes : list string := [
  "versionMajor"; "versionMinor"; "copyright"; "trademark"; "note";
  "openTypeGaspRangeRecords"; "openTypeHeadCreated"; "openTypeHeadFlags";
  "openTypeNameDesigner"; "openTypeNameDesignerURL";
  "openTypeNameManufacturer"; "openTypeNameManufacturerURL";
  "openTypeNameLicense"; "openTypeNameLicenseURL"; "openTypeNameVersion";
  "openTypeNameUniqueID"; "openTypeNameDescription";
  "#openTypeNamePreferredFamilyName"; "#openTypeNamePreferredSubfamilyName";
  "#openTypeNameCompatibleFullName"; "openTypeNameSampleText";
  "openTypeNameWWSFamilyName"; "openTypeNameWWSSubfamilyName";
  "openTypeNameRecords"; "openTypeOS2Selection"; "openTypeOS2VendorID";
  "openTypeOS2Panose"; "openTypeOS2FamilyClass"; "openTypeOS2UnicodeRanges";
  "openTypeOS2CodePageRanges"; "openTypeOS2Type"; "postscriptIsFixedPitch";
  "postscriptForceBold"; "postscriptDefaultCharacter";
  "postscriptWindowsCharacterSet" ].

(** [getattr(info, attribute)]: an attribute that was never set is [None]. *)
Definition getattr (i : gmap string PyVal) (attribute : string) : PyVal :=
  get_or (i !! attribute) VNone.

Definition _copyFontInfo (p : DesignSpaceProcessor)
    (sourceInfo targetInfo : gmap string PyVal) : gmap string PyVal :=
  foldl (λ (targetInfo : gmap string PyVal) (infoAttribute : string),
           let copy :=
             if bool_decide (ufoVersion p = 1%Z)
                && bool_decide (infoAttribute ∈ fontInfoAttributesVersion1) then true
             else if bool_decide (ufoVersion p = 2%Z)
                && bool_decide (infoAttribute ∈ fontInfoAttributesVersion2) then true
             else if bool_decide (ufoVersion p = 3%Z)
                && bool_decide (infoAttribute ∈ fontInfoAttributesVersion3) then true
             else false in
           if copy then <[infoAttribute := getattr sourceInfo infoAttribute]> targetInfo
           else targetInfo)
        targetInfo infoAttributes.

(** *** makeInstance *)

(** [_instantiateFont(None)]: a new, empty font. *)
Definition newFont : Font := mkFont None ∅ ∅ ∅ ∅ ∅ ∅ FNone None.

(** [font[name] = value]. defcon's [Font] has [__getitem__] and
    [__delitem__] and no [__setitem__]: the statement is a TypeError. *)
Definition font_setitem (font : Font) (name value : string) : res Font :=
  Raise TypeError.

(** [try: r except E: fallback] on a call that does not touch the processor. *)
Definition res_except_only {A : Type} (E : exn) (r : res A) (fallback : res A) : res A :=
  match r with
  | Ok a => Ok a
  | Raise e => if decide (e = E) then fallback else Raise e
  end.

(** The body of [for sourceDescriptor in self.sources], which copies info,
    lib and features from the sources flagged for it. *)
Definition copyFromSource (p : DesignSpaceProcessor)
    (sourceDescriptor : SourceDescriptor) (font : Font) : res Font :=
  font ← (if copyInfo sourceDescriptor then
            f ← getitem (fonts p) (source_name sourceDescriptor);
            f ← deref f;
            Ok (set_info font (_copyFontInfo p (info f) (info font)))
          else Ok font);
  font ← (if copyLib sourceDescriptor then
            f ← getitem (fonts p) (source_name sourceDescriptor);
            f ← deref f;
            (* [font.lib[key] = value] for every item of the source's lib *)
            Ok (set_lib font (lib f ∪ lib font))
          else Ok font);
  if copyFeatures sourceDescriptor then
    f ← getitem (fonts p) (source_name sourceDescriptor);
    f ← deref f;
    match features f with
    | FStr featuresText => Ok (set_features font (FUnicode featuresText))
    | FUnicode featuresText => Ok (set_features font (FUnicode featuresText))
    | FNone => Ok font
    end
  else Ok font.

(** The private masters of a glyph: the loop over [glyphData["masters"]]. *)
Definition collectPrivateMaster (p : DesignSpaceProcessor) (glyphName : string)
    (glyphMaster : GlyphMaster) : res (option (gmap string AxisValue * MathGlyph)) :=
  let sourceGlyphName := get_or (master_glyphName glyphMaster) glyphName in
  (* [self.fonts.get(sourceGlyphFont)], then [sourceGlyphName in m] *)
  m ← unpack (master_font glyphMaster ≫= λ name, mjoin (fonts p !! name));
  if negb (inFont sourceGlyphName m) then Ok None
  else
    sourceGlyphObject ← getitem (glyphs m) sourceGlyphName;
    sourceGlyph ← mathGlyphClass sourceGlyphObject;
    Ok (Some (master_location glyphMaster, sourceGlyph)).

(** The weights of the two halves when an instance is put together again,
    as the source writes them: for the info, and for a glyph. *)
Definition infoWeights : (Z * Z) * (Z * Z) := ((1, 0), (0, 1))%Z.
Definition glyphWeights : (Z * Z) * (Z * Z) := ((0, 1), (1, 0))%Z.

(** [w1 * horizontal + w2 * vertical] *)
Definition recombine {V : Type} `{!MathObject V} (weights : (Z * Z) * (Z * Z))
    (horizontal vertical : V) : res V :=
  a ← rmul weights.1 horizontal;
  b ← rmul weights.2 vertical;
  madd a b.

(** The [try] body that evaluates the mutator of a glyph at its location:
    at the location itself, or at its two halves, whose results are put
    together again. *)
Definition interpolateGlyph (glyphMutator : option (Mutator MathGlyph))
    (glyphInstanceLocation : gmap string AxisValue) : res MathGlyph :=
  glyphMutator ← deref glyphMutator;
  if negb (isAnisotropic glyphInstanceLocation) then
    mutator_makeInstance glyphMutator glyphInstanceLocation
  else
    (* split anisotropic location into horizontal and vertical components *)
    let split := splitAnisotropic glyphInstanceLocation in
    horizontalGlyphInstanceObject ← mutator_makeInstance glyphMutator split.1;
    verticalGlyphInstanceObject ← mutator_makeInstance glyphMutator split.2;
    (* merge them again *)
    recombine glyphWeights horizontalGlyphInstanceObject verticalGlyphInstanceObject.

(** The end of the loop body: the interpolated object is rounded, drawn into
    a fresh [font[glyphName]] and given its width and unicodes. *)
Definition placeGlyph (p : DesignSpaceProcessor) (glyphName : string)
    (glyphInstanceUnicodes : list Z) (glyphInstanceObject : MathGlyph)
    (font : Font) : res Font :=
  let font := set_glyphs font (alter clear glyphName (newGlyph glyphName (glyphs font))) in
  glyphInstanceObject ←
    (if roundGeometry p then
       res_except_only AttributeError (math_round glyphInstanceObject)
                       (Ok glyphInstanceObject)
     else Ok glyphInstanceObject);
  glyph ← getitem (glyphs font) glyphName;
  glyph ← res_except_only TypeError
             (extractGlyph glyphInstanceObject glyph)
             (math_drawPoints glyphInstanceObject (clear glyph));
  let glyph := set_width glyph (math_width glyphInstanceObject) in
  let glyph := set_unicodes glyph glyphInstanceUnicodes in
  Ok (set_glyphs font (<[glyphName := glyph]> (glyphs font))).

(** The body of [for glyphName in selectedGlyphNames]; where the source says
    [continue], the font as it is at that point is the result. *)
Definition makeGlyph (instanceDescriptor : InstanceDescriptor) (glyphName : string)
    (font : Font) : M Font :=
  p ← self;
  found ← try_except
             (getGlyphMutator glyphName false true)
             (λ e, problems_append (MutatorProblem glyphName e);; mret None);
  match found with
  | None => mret font
  | Some glyphMutator =>
      let glyphData := get_or (instance_glyphs instanceDescriptor !! glyphName)
                              emptyGlyphData in
      let font := set_glyphs font (alter clear glyphName (newGlyph glyphName (glyphs font))) in
      if get_or (data_mute glyphData) false then mret font
      else
        let glyphInstanceLocation :=
          get_or (data_instanceLocation glyphData)
                 (instance_location instanceDescriptor) in
        let uniValues := match mutator_neutral glyphMutator with
                         | Some neutral => math_unicodes neutral
                         | None => []
                         end in
        let glyphInstanceUnicodes := get_or (data_unicodes glyphData) uniValues in
        font ← lift (match data_note glyphData with
                     | Some note =>
                         if bool_decide (note ≠ "") then font_setitem font glyphName note
                         else Ok font
                     | None => Ok font
                     end);
        glyphMutator ←
          match data_masters glyphData with
          | Some (master :: masters) =>
              turns ← lift (mapM (collectPrivateMaster p glyphName) (master :: masters));
              model ← getVariationModel (omap id turns) (defaultLoc p);
              pair ← lift (unpack model);
              mret pair.2
          | _ => mret (Some glyphMutator)
          end;
        made ← try_except_only IndexError
                  (glyphInstanceObject ←
                     lift (interpolateGlyph glyphMutator glyphInstanceLocation);
                   mret (Some glyphInstanceObject))
                  (print ("Error making instance " +:+ glyphName);; mret None);
        match made with
        | None => mret font
        | Some glyphInstanceObject =>
            lift (placeGlyph p glyphName glyphInstanceUnicodes glyphInstanceObject font)
        end
  end.

(** The kerning of an instance: [if instanceDescriptor.kerning: try: ...]. *)
Definition makeKerning (instanceDescriptor : InstanceDescriptor)
    (locHorizontal : gmap string AxisValue) (font : Font) : M Font :=
  if instance_kerning instanceDescriptor then
    try_except
      (kerningMutator ← getKerningMutator;
       kerningMutator ← lift (deref kerningMutator);
       kerningObject ← lift (mutator_makeInstance kerningMutator locHorizontal);
       lift (extractKerning kerningObject font))
      (λ e, problems_append
              (KerningProblem (instance_location instanceDescriptor) e);;
            mret font)
  else mret font.

(** The five names that the instance gives to [font.info]. *)
Definition nameInfo (instanceDescriptor : InstanceDescriptor)
    (i : gmap string PyVal) : gmap string PyVal :=
  <["styleMapStyleName" := nameValue (styleMapStyleName instanceDescriptor)]>
  (<["styleMapFamilyName" := nameValue (styleMapFamilyName instanceDescriptor)]>
   (<["postScriptFontName" := nameValue (postScriptFontName instanceDescriptor)]>
    (<["styleName" := nameValue (styleName instanceDescriptor)]>
     (<["familyName" := nameValue (familyName instanceDescriptor)]> i)))).

(** The info of an instance: the [try] statement under [# make the info]. *)
Definition makeInfo (instanceDescriptor : InstanceDescriptor)
    (anisotropic : bool) (locHorizontal locVertical : gmap string AxisValue)
    (font : Font) : M Font :=
  let loc := instance_location instanceDescriptor in
  try_except
    (infoMutator ← getInfoMutator;
     infoMutator ← lift (deref infoMutator);
     infoInstanceObject ←
       (if negb anisotropic then lift (mutator_makeInstance infoMutator loc)
        else
          horizontalInfoInstanceObject ←
            lift (mutator_makeInstance infoMutator locHorizontal);
          verticalInfoInstanceObject ←
            lift (mutator_makeInstance infoMutator locVertical);
          (* merge them again *)
          lift (recombine infoWeights horizontalInfoInstanceObject
                          verticalInfoInstanceObject));
     extracted ← lift (extractInfo infoInstanceObject (info font));
     mret (set_info font (nameInfo instanceDescriptor extracted)))
    (λ e, problems_append (FontinfoProblem loc e);; mret font).

(** [if doRules: ...]: the glyphs that the rules rename are swapped. *)
Definition applyRules (p : DesignSpaceProcessor) (loc : gmap string AxisValue)
    (font : Font) : Font :=
  let resultNames := processRules (rules p) loc (glyphNames p) in
  foldl (λ (font : Font) (names : string * string),
           if bool_decide (names.1 ≠ names.2)
           then (swapGlyphNames font names.1 names.2 defaultSwapNameExtension).2
           else font)
        font (zip (glyphNames p) resultNames).

Definition makeInstance (instanceDescriptor : InstanceDescriptor) (doRules : bool)
    (glyphNames' : option (list string)) : M Font :=
  p ← self;
  let font := newFont in
  let loc := instance_location instanceDescriptor in
  let anisotropic := isAnisotropic loc in
  let locHorizontal := if anisotropic then (splitAnisotropic loc).1 else loc in
  let locVertical := if anisotropic then (splitAnisotropic loc).2 else loc in
  (* groups *)
  defaultSource ← lift (deref (default p));
  defaultFont ← lift (getitem (fonts p) (source_name defaultSource));
  let renameMap := get_or (defaultFont ≫= kerningGroupConversionRenameMaps) ∅ in
  let font := set_renameMaps font (Some renameMap) in
  (* make the kerning *)
  font ← makeKerning instanceDescriptor locHorizontal font;
  (* make the info *)
  font ← makeInfo instanceDescriptor anisotropic locHorizontal locVertical font;
  font ← lift (foldl (λ (font : res Font) sourceDescriptor,
                        font ← font; copyFromSource p sourceDescriptor font)
                     (Ok font) (sources p));
  (* glyphs *)
  let selectedGlyphNames := match glyphNames' with
                            | Some (name :: names) => name :: names
                            | _ => glyphNames p
                            end in
  let font := if bool_decide (is_Some (lib font !! "public.glyphOrder")) then font
              else set_lib font (<["public.glyphOrder" := LVal (VStrs selectedGlyphNames)]>
                                   (lib font)) in
  font ← for_each (makeGlyph instanceDescriptor) selectedGlyphNames font;
  let font := if doRules then applyRules p loc font else font in
  (* store designspace location in the font.lib *)
  mret (set_lib font (<["designspace" := LItems (map_to_list loc)]> (lib font))).

(** *** loadFonts and generateUFO *)

(** [loadFonts(reload)]. A UFO is there when its path is on the disk; the
    glyph names are gathered in a set. Reading a UFO that is there, and its
    format version, is taken to succeed: what is proved of a call holds of
    the calls in which the file system does not fail. *)
Definition loadFonts (reload : bool) : M unit :=
  p ← self;
  if _fontsLoaded p && negb reload then mret tt
  else
    names ← for_each
      (λ (sourceDescriptor : SourceDescriptor) (names : gset string),
         p ← self;
         if bool_decide (is_Some (fonts p !! source_name sourceDescriptor)) then mret names
         else
           match disk p !! source_path sourceDescriptor with
           | Some (formatVersion, font) =>
               update (λ p, set_fonts p (<[source_name sourceDescriptor := Some font]> (fonts p))
                                      (_fontsLoaded p) (glyphNames p));;
               problems_append (LoadedMaster (source_path sourceDescriptor) formatVersion);;
               mret (names ∪ dom (glyphs font))
           | None =>
               update (λ p, set_fonts p (<[source_name sourceDescriptor := None]> (fonts p))
                                      (_fontsLoaded p) (glyphNames p));;
               problems_append (SourceNotFound (source_path sourceDescriptor));;
               mret names
           end)
      (sources p) ∅;
    update (λ p, set_fonts p (fonts p) true (elements names)).

(** [generateUFO(processRules)]. Making the folder of an instance and saving
    a font are taken to succeed: a saved font is on the disk under its path,
    in the format it was saved in. *)
Definition generateUFO (processRules : bool) : M bool :=
  loadFonts false;;
  update (λ p, set_default p (findDefault (sources p) (axes p)));;
  p ← self;
  if bool_decide (default p = None) then
    raise (UFOProcessorError "Can't generate UFO from this designspace: no default font.")
  else
    for_each
      (λ (instanceDescriptor : InstanceDescriptor) (_ : unit),
         match instance_path instanceDescriptor with
         | None => mret tt
         | Some path =>
             font ← makeInstance instanceDescriptor processRules None;
             p ← self;
             let newer := match disk p !! path with
                          | Some (existingUFOFormatVersion, _) =>
                              bool_decide (ufoVersion p < existingUFOFormatVersion)%Z
                          | None => false
                          end in
             if newer then
               problems_append
                 (CantOverwrite path (get_or (fst <$> disk p !! path) 0%Z) (ufoVersion p))
             else
               update (λ p, set_disk p (<[path := (ufoVersion p, font)]> (disk p)));;
               problems_append (Generated path (ufoVersion p))
         end)
      (instances p) tt;;
    mret true.

End Processor.

(** ** Definitions that follow the specification *)

(** Modelled from the spec: the pairwise recombination of the two halves of a
    location, the companion of [splitAnisotropic]; the source has no such
    function. On every axis the horizontal and the vertical value are paired
    again; a pair of two equal values is the degenerate pair, which stands
    for the plain number. *)
Definition combineValue (horizontal vertical : AxisValue) : AxisValue :=
  let x := match horizontal with Scalar a => a | Pair a _ => a end in
  let y := match vertical with Scalar b => b | Pair _ b => b end in
  if Qeq_bool x y then Scalar x else Pair x y.

Definition combine (horizontal vertical : gmap string AxisValue)
    : gmap string AxisValue :=
  map_zip_with combineValue horizontal vertical.

(** A location has no degenerate pair when the two numbers of each of its
    pairs differ. *)
Definition nonDegenerate (location : gmap string AxisValue) : Prop :=
  ∀ dim x y, location !! dim = Some (Pair x y) → Qeq_bool x y = false.

(** The three composed passes over one component reference, with the parking
    name [parking]. *)
Definition threePasses (oldName newName parking : string) (c : Component) : Component :=
  renameBase parking newName (renameBase newName oldName (renameBase oldName parking c)).

(** The single combined substitution, which [swapGlyphNames] does not use on
    components. *)
Definition combinedSubstitution (oldName newName : string) (c : Component) : Component :=
  mkComponent (exchangeName oldName newName (baseGlyph c)) (transformation c).

(** No glyph of the font bears the extension in its name, and no component
    refers to the parking name of [oldName]. *)
Definition parkingFree (font : Font) (oldName swapNameExtension : string) : Prop :=
  map_Forall (λ (name : string) (g : Glyph),
                hasExtension swapNameExtension name = false ∧
                Forall (λ c, baseGlyph c ≠ oldName +:+ swapNameExtension) (components g))
             (glyphs font).

(** The glyph [dst] once it has taken outline and width of [src]: its
    unicodes and note stay. *)
Definition takeOutline (dst src : Glyph) : Glyph :=
  mkGlyph (contours src) (components src) (width src) (unicodes dst) (note dst).

(** A glyph after the three passes over its components. *)
Definition remapped (oldName newName parking : string) (g : Glyph) : Glyph :=
  set_components g (threePasses oldName newName parking <$> components g).

(** The glyph set once the outlines of the two glyphs are exchanged. *)
Definition exchanged (oldName newName : string) (gs : gmap string Glyph)
    : gmap string Glyph :=
  match gs !! oldName, gs !! newName with
  | Some gOld, Some gNew =>
      <[newName := takeOutline gNew gOld]> (<[oldName := takeOutline gOld gNew]> gs)
  | _, _ => gs
  end.

(** The two halves of one axis value. *)
Definition horizontalOf (v : AxisValue) : AxisValue :=
  match v with Pair x _ => Scalar x | Scalar s => Scalar s end.
Definition verticalOf (v : AxisValue) : AxisValue :=
  match v with Pair _ y => Scalar y | Scalar s => Scalar s end.

(** The attributes of [font.info] that an instance names. *)
Definition namingAttributes : list string :=
  ["familyName"; "styleName"; "postScriptFontName"; "styleMapFamilyName";
   "styleMapStyleName"].

(** The font [font'] is [font] but for the glyphs of the names in [names]. *)
Definition sameBut (names : list string) (font font' : Font) : Prop :=
  (∀ name, name ∉ names → glyphs font' !! name = glyphs font !! name) ∧
  path font' = path font ∧ layers font' = layers font ∧
  kerning font' = kerning font ∧ groups font' = groups font ∧
  info font' = info font ∧ lib font' = lib font ∧ features font' = features font ∧
  kerningGroupConversionRenameMaps font' = kerningGroupConversionRenameMaps font.

Section ProcessorSpecification.
Context {FM : FontMath} {VB : VariationBackends} {DSL : DesignSpaceLib}
        {UL : UfoLib} {PP : PointPens}.

(** When a source is left out for a glyph, in the words of the
    specification: the glyph is muted in the source, or absent from the font
    of the source, or the source names a layer of its font and the glyph is
    absent from that layer. *)
Definition excluded (p : DesignSpaceProcessor) (glyphName : string)
    (sourceDescriptor : SourceDescriptor) : bool :=
  bool_decide (glyphName ∈ mutedGlyphNames sourceDescriptor)
  || match fonts p !! source_name sourceDescriptor with
     | Some (Some f) =>
         negb (inFont glyphName f)
         || match layerName sourceDescriptor with
            | Some name =>
                match layers f !! name with
                | Some layer => negb (bool_decide (is_Some (layer !! glyphName)))
                | None => false
                end
            | None => false
            end
     | _ => false
     end.

(** Every source of the document has its font loaded. *)
Definition fontsPresent (p : DesignSpaceProcessor) : Prop :=
  ∀ sourceDescriptor, sourceDescriptor ∈ sources p →
    ∃ f, fonts p !! source_name sourceDescriptor = Some (Some f).

(** What a rebuild of the mutator of a glyph gives from the sources alone:
    the model, and what its construction adds to the problems. *)
Definition rebuilt (p : DesignSpaceProcessor) (glyphName : string)
    (decomposeComponents : bool)
    : res (option (gmap string AxisValue * option (Mutator MathGlyph))) * list Problem :=
  match (items ← collectMastersForGlyph p glyphName decomposeComponents;
         mapM (λ item : gmap string AxisValue * MathGlyph * SourceInfo,
                 b ← mathGlyphClass_again item.1.2; mret (item.1.1, b)) items) with
  | Ok new =>
      match (if useVarlib p
             then m ← VariationModelMutator MathGlyph new (axes p); Ok (∅, Some m)
             else buildMutator MathGlyph new (getMutatorAxes p) (defaultLoc p)) with
      | Ok r => (Ok (Some r), [])
      | Raise e => (Ok None, [VariationModelProblem e])
      end
  | Raise e => (Raise e, [])
  end.

(** The problems of [p'] are those of [p] with more at the end. *)
Definition extends_log (p p' : DesignSpaceProcessor) : Prop :=
  ∃ entries, problems p' = problems p ++ entries.

(** A method that only ever appends to the problems. *)
Definition log_monotone {A : Type} (m : M A) : Prop :=
  ∀ p, extends_log p (m p).2.

(** The attribute list of ufoLib that [_copyFontInfo] looks an attribute up
    in, for the format version of the processor; none for another version. *)
Definition attributesOfVersion (p : DesignSpaceProcessor) : list string :=
  if bool_decide (ufoVersion p = 1%Z) then fontInfoAttributesVersion1
  else if bool_decide (ufoVersion p = 2%Z) then fontInfoAttributesVersion2
  else if bool_decide (ufoVersion p = 3%Z) then fontInfoAttributesVersion3
  else [].

(** A method whose final state is always related to its initial state. *)
Definition respects {A : Type} (R : relation DesignSpaceProcessor) (m : M A) : Prop :=
  ∀ p, R p (m p).2.

(** The processor [p'] is [p] but for the three mutator caches, and for
    problems and lines of output that were added at the end. *)
Definition advances (p p' : DesignSpaceProcessor) : Prop :=
  sources p' = sources p ∧ instances p' = instances p ∧ axes p' = axes p ∧
  rules p' = rules p ∧ default p' = default p ∧ defaultLoc p' = defaultLoc p ∧
  ufoVersion p' = ufoVersion p ∧ useVarlib p' = useVarlib p ∧
  roundGeometry p' = roundGeometry p ∧ fonts p' = fonts p ∧
  _fontsLoaded p' = _fontsLoaded p ∧ glyphNames p' = glyphNames p ∧
  disk p' = disk p ∧
  problems p `prefix_of` problems p' ∧ stdout p `prefix_of` stdout p'.

(** The mutators that [p] holds are held by [p'] as they are. *)
Definition caches_kept (p p' : DesignSpaceProcessor) : Prop :=
  _glyphMutators p ⊆ _glyphMutators p' ∧
  (∀ m, _infoMutator p = Some m → _infoMutator p' = Some m) ∧
  (∀ m, _kerningMutator p = Some m → _kerningMutator p' = Some m).

(** The processor [p'] is [p] but for fonts that were added, the glyph names
    and the mark of the loading, and for problems that were added at the
    end. *)
Definition loads (p p' : DesignSpaceProcessor) : Prop :=
  sources p' = sources p ∧ instances p' = instances p ∧ axes p' = axes p ∧
  rules p' = rules p ∧ default p' = default p ∧ defaultLoc p' = defaultLoc p ∧
  ufoVersion p' = ufoVersion p ∧ useVarlib p' = useVarlib p ∧
  roundGeometry p' = roundGeometry p ∧ _glyphMutators p' = _glyphMutators p ∧
  _infoMutator p' = _infoMutator p ∧ _kerningMutator p' = _kerningMutator p ∧
  disk p' = disk p ∧ stdout p' = stdout p ∧
  fonts p ⊆ fonts p' ∧ problems p `prefix_of` problems p'.

(** The fonts of [p'] once the sources of [p] are loaded: every source has
    an entry under its name, and an entry that [p] did not have is what the
    disk has at the path of a source of that name, [None] when nothing is
    there. *)
Definition loaded (p p' : DesignSpaceProcessor) : Prop :=
  _fontsLoaded p' = true ∧
  (∀ sourceDescriptor, sourceDescriptor ∈ sources p →
     is_Some (fonts p' !! source_name sourceDescriptor)) ∧
  (∀ name f, fonts p !! name = None → fonts p' !! name = Some f →
     ∃ sourceDescriptor, sourceDescriptor ∈ sources p ∧
       source_name sourceDescriptor = name ∧
       f = snd <$> disk p !! source_path sourceDescriptor).

(** The glyph [glyphName] is in a font that [p'] has under a name that [p]
    had no entry for. *)
Definition newlyLoaded (p p' : DesignSpaceProcessor) (glyphName : string) : Prop :=
  ∃ name font, fonts p !! name = None ∧ fonts p' !! name = Some (Some font) ∧
               is_Some (glyphs font !! glyphName).



End ProcessorSpecification.

(** ** A small design space to run the definitions on

    Two masters on one axis, a sparse third source, and collaborators simple
    enough to compute with: numbers are scaled and added pointwise, and a
    mutator gives back its masters at their own locations. *)
Module Sample.

Definition scalePoint (w : Z * Z) (pt : Point) : Point :=
  (Qred (inject_Z w.1 * pt.1), Qred (inject_Z w.2 * pt.2)).
Definition addPoint (a b : Point) : Point :=
  (Qred (a.1 + b.1), Qred (a.2 + b.2)).

Global Instance infoObject : MathObject (Q * Q) := {|
  rmul w v := Ok (scalePoint w v);
  madd a b := Ok (addPoint a b)
|}.

(** Glyphs whose outlines have different numbers of contours do not add. *)
Global Instance glyphObject : MathObject Glyph := {|
  rmul w g := Ok (mkGlyph ((λ c : list Point, scalePoint w <$> c) <$> contours g)
                          (components g)
                          (Qred (inject_Z w.1 * width g)) (unicodes g) (note g));
  madd g h :=
    if bool_decide (length (contours g) = length (contours h))
    then Ok (mkGlyph (zip_with (λ c d : list Point, zip_with addPoint c d)
                               (contours g) (contours h))
                     (components g) (Qred (width g + width h)) (unicodes g) (note g))
    else Raise IndexError
|}.

Definition number (v : option PyVal) : Q :=
  match v with
  | Some (VNum q) => q
  | _ => 0
  end.

(** The info object holds one horizontal and one vertical measure. *)
Global Instance fontMath : FontMath := {|
  MathInfo := Q * Q;
  MathKerning := gmap (string * string) Q;
  MathGlyph := Glyph;
  mathInfoClass font :=
    match font with
    | Some f => Ok (number (info f !! "openTypeHheaCaretOffset"),
                    number (info f !! "ascender"))
    | None => Raise AttributeError
    end;
  extractInfo v i :=
    Ok (<["ascender" := VNum v.2]> (<["openTypeHheaCaretOffset" := VNum v.1]> i));
  mathKerningClass k g := Ok k;
  extractKerning k font := Ok (set_kerning font k);
  mathGlyphClass g := Ok g;
  mathGlyphClass_again g := Ok g;
  math_round g := Ok g;
  extractGlyph m g := Ok (set_width (set_outline g (contours m) (components m)) (width m));
  math_drawPoints m g := Ok (drawPoints m g);
  math_width := width;
  math_unicodes := unicodes
|}.

Fixpoint itemAt {V : Type} (loc : gmap string AxisValue)
    (items : list (gmap string AxisValue * V)) : option V :=
  match items with
  | [] => None
  | item :: items => if decide (item.1 = loc) then Some item.2 else itemAt loc items
  end.

Definition mastersOnly {V : Type} (items : list (gmap string AxisValue * V))
    (bias : gmap string AxisValue) : Mutator V :=
  mkMutator (λ loc, match itemAt loc items with
                    | Some v => Ok v
                    | None => Raise IndexError
                    end)
            (itemAt bias items).

(** A model cannot be built from no master, nor from two masters at one
    location. *)
Definition constructible {V : Type} (items : list (gmap string AxisValue * V)) : bool :=
  bool_decide (items ≠ [] ∧ NoDup items.*1).

Global Instance backends : VariationBackends := {|
  buildMutator V items axes bias :=
    if constructible items then Ok (bias, Some (mastersOnly items bias))
    else Raise (OtherError "ModelConstructionError");
  VariationModelMutator V items axes :=
    if constructible items then Ok (mastersOnly items ∅)
    else Raise (OtherError "ModelConstructionError")
|}.

Global Instance designSpaceLib : DesignSpaceLib := {|
  RuleDescriptor := string * string;
  processRules rules loc names :=
    (λ name, match list_find (λ rule : string * string, rule.1 = name) rules with
             | Some found => found.2.2
             | None => name
             end) <$> names;
  findDefault sources axes := snd <$> list_find (λ sd, copyInfo sd = true) sources
|}.

Global Instance ufoLib : UfoLib := {|
  fontInfoAttributesVersion1 := ["copyright"];
  fontInfoAttributesVersion2 := ["copyright"; "trademark"; "note"];
  fontInfoAttributesVersion3 :=
    ["versionMajor"; "versionMinor"; "copyright"; "trademark"; "note";
     "openTypeNameDesigner"]
|}.

Global Instance pointPens : PointPens := {|
  transformContour t c :=
    let '(xx, xy, yx, yy, dx, dy) := t in
    (λ pt : Point, (Qred (xx * pt.1 + yx * pt.2 + dx),
                    Qred (xy * pt.1 + yy * pt.2 + dy))) <$> (c : list Point);
  composeTransformation outer inner :=
    let '(a, b, c, d, e, f) := outer in
    let '(a', b', c', d', e', f') := inner in
    (Qred (a' * a + b' * c), Qred (a' * b + b' * d),
     Qred (c' * a + d' * c), Qred (c' * b + d' * d),
     Qred (e' * a + f' * c + e), Qred (e' * b + f' * d + f));
  recursionLimit := 64
|}.

Definition at_weight (v : AxisValue) : gmap string AxisValue := {["weight" := v]}.

Definition light_a : Glyph :=
  mkGlyph [[(0#1, 0#1); (100#1, 0#1); (100#1, 700#1)]] [] (500#1) [97%Z] None.
Definition light_b : Glyph :=
  mkGlyph [[(0#1, 0#1); (120#1, 0#1); (120#1, 700#1)]] [] (520#1) [98%Z] None.
Definition light_c : Glyph :=
  mkGlyph [] [mkComponent "a" _defaultTransformation] (500#1) [99%Z] None.

Definition lightFont : Font := mkFont (Some "Light.ufo")
  {[ "a" := light_a; "b" := light_b; "c" := light_c ]}
  ∅
  {[ ("a", "b") := (-20)#1 ]}
  {[ "public.kern1.round" := ["a"; "c"] ]}
  {[ "ascender" := VNum (700#1); "openTypeHheaCaretOffset" := VNum (10#1);
     "copyright" := VStr "(c) Sample" ]}
  ∅ (FStr "feature kern;") None.

Definition bold_a : Glyph :=
  mkGlyph [[(0#1, 0#1); (180#1, 0#1); (180#1, 720#1)]] [] (600#1) [97%Z] None.
(** The bold [b] has a contour more than the light one. *)
Definition bold_b : Glyph :=
  mkGlyph [[(0#1, 0#1); (200#1, 0#1); (200#1, 720#1)];
           [(50#1, 50#1); (150#1, 50#1); (150#1, 650#1)]] [] (640#1) [98%Z] None.
Definition bold_c : Glyph :=
  mkGlyph [] [mkComponent "a" _defaultTransformation] (600#1) [99%Z] None.

Definition boldFont : Font := mkFont (Some "Bold.ufo")
  {[ "a" := bold_a; "b" := bold_b; "c" := bold_c ]}
  {[ "support" := {[ "a" := bold_a ]} ]}
  {[ ("a", "b") := (-40)#1 ]}
  {[ "public.kern1.round" := ["a"; "c"] ]}
  {[ "ascender" := VNum (720#1); "openTypeHheaCaretOffset" := VNum (30#1) ]}
  ∅ FNone None.

Definition light : SourceDescriptor :=
  mkSource "light" "Light.ufo" (at_weight (Scalar (0#1))) [] None true true true.
Definition bold : SourceDescriptor :=
  mkSource "bold" "Bold.ufo" (at_weight (Scalar (1000#1))) ["c"] None false false false.
Definition sparse : SourceDescriptor :=
  mkSource "sparse" "Bold.ufo" (at_weight (Scalar (500#1))) [] (Some "support")
           false false false.

Definition instanceAt (v : AxisValue) (data : gmap string GlyphData) : InstanceDescriptor :=
  mkInstance (Some "Instance.ufo") (at_weight v) (Some "Sample") (Some "Medium")
    (Some "Sample-Medium") None None true data.

(** An instance at the light master. *)
Definition plainInstance : InstanceDescriptor := instanceAt (Scalar (0#1)) ∅.

(** An instance that is light horizontally and bold vertically. *)
Definition wideInstance : InstanceDescriptor := instanceAt (Pair (0#1) (1000#1)) ∅.

Definition processorFor (instances : list InstanceDescriptor) : DesignSpaceProcessor :=
  mkProcessor [light; bold; sparse] instances
    [mkAxis "weight" (0#1) (0#1) (1000#1) []] []
    (Some light) (at_weight (Scalar (0#1))) 3 false true ∅ None None
    {[ "light" := Some lightFont; "bold" := Some boldFont; "sparse" := Some boldFont ]}
    true ["a"; "b"; "c"] [] ∅ [].

Definition processor : DesignSpaceProcessor := processorFor [wideInstance].

(** A document whose second source sits at the location of the first: no
    model can be built from its sources. *)
Definition heavy : SourceDescriptor :=
  mkSource "bold" "Bold.ufo" (at_weight (Scalar (0#1))) [] None false false false.

Definition doubledProcessor : DesignSpaceProcessor :=
  mkProcessor [light; heavy] [plainInstance]
    [mkAxis "weight" (0#1) (0#1) (1000#1) []] []
    (Some light) (at_weight (Scalar (0#1))) 3 false true ∅ None None
    {[ "light" := Some lightFont; "bold" := Some boldFont ]}
    true ["a"; "b"; "c"] [] ∅ [].

Definition infoMutator : Mutator (Q * Q) :=
  mastersOnly [(at_weight (Scalar (0#1)), (10#1, 700#1));
               (at_weight (Scalar (1000#1)), (30#1, 720#1))]
              (at_weight (Scalar (0#1))).

Definition glyphMutator_a : Mutator Glyph :=
  mastersOnly [(at_weight (Scalar (0#1)), light_a);
               (at_weight (Scalar (1000#1)), bold_a)]
              (at_weight (Scalar (0#1))).

(** The processor once the mutators of the info and of [a] are cached. *)
Definition cachedProcessor : DesignSpaceProcessor :=
  set_glyphMutators (set_infoMutator processor (Some infoMutator))
                    {[ ("a", false) := Some glyphMutator_a ]}.

(** A font that has a glyph under the parking name of [a], and a font in
    which a component of [c] refers to that name. *)
Definition parkedFont : Font :=
  set_glyphs lightFont (<["a_______________swap" := light_b]> (glyphs lightFont)).
Definition danglingFont : Font :=
  set_glyphs lightFont
    (<["c" := mkGlyph [] [mkComponent "a_______________swap" _defaultTransformation]
                      (500#1) [99%Z] None]> (glyphs lightFont)).

(** The instance at the light master with unicodes of its own for [a], the
    same with a note for [a], and one whose [a] has a private master in a
    font that is not loaded. *)
Definition recodedInstance : InstanceDescriptor :=
  instanceAt (Scalar (0#1))
    {[ "a" := mkGlyphData None None (Some [65%Z; 97%Z]) None None ]}.
Definition notedInstance : InstanceDescriptor :=
  instanceAt (Scalar (0#1))
    {[ "a" := mkGlyphData None None None (Some "drawn by hand") None ]}.
Definition strayInstance : InstanceDescriptor :=
  instanceAt (Scalar (0#1))
    {[ "a" := mkGlyphData None None None None
                (Some [mkGlyphMaster (Some "condensed") None (at_weight (Scalar (0#1)))]) ]}.

(** A glyph whose component refers to the glyph itself, under the name [d]. *)
Definition loopGlyph : Glyph :=
  mkGlyph [[(0#1, 0#1); (10#1, 0#1)]] [mkComponent "d" _defaultTransformation]
          (500#1) [100%Z] None.

(** The glyph [c] of the font with the dangling reference. *)
Definition dangling_c : Glyph :=
  mkGlyph [] [mkComponent "a_______________swap" _defaultTransformation]
          (500#1) [99%Z] None.

(** The instance at the light master that mutes [a]. *)
Definition mutedInstance : InstanceDescriptor :=
  instanceAt (Scalar (0#1))
    {[ "a" := mkGlyphData (Some true) None None None None ]}.

(** The document before anything is loaded, with the two masters on the
    disk, the bold one in an older format. *)
Definition freshProcessor : DesignSpaceProcessor :=
  mkProcessor [light; bold; sparse] [plainInstance]
    [mkAxis "weight" (0#1) (0#1) (1000#1) []] []
    None (at_weight (Scalar (0#1))) 3 false true ∅ None None
    ∅ false [] []
    {[ "Light.ufo" := (3%Z, lightFont); "Bold.ufo" := (2%Z, boldFont) ]} [].

(** A document none of whose sources is flagged as the default. *)
Definition orphanProcessor : DesignSpaceProcessor :=
  mkProcessor [bold; sparse] [plainInstance]
    [mkAxis "weight" (0#1) (0#1) (1000#1) []] []
    None (at_weight (Scalar (0#1))) 3 false true ∅ None None
    {[ "bold" := Some boldFont; "sparse" := Some boldFont ]}
    true ["a"; "b"; "c"] [] ∅ [].

(** The processor when the UFO of the bold master was not found. *)
Definition lostProcessor : DesignSpaceProcessor :=
  set_fonts processor (<["bold" := None]> (fonts processor)) true ["a"; "b"; "c"].

(** The processor with a mutator of the kerning in its cache. *)
Definition kerningMutator : Mutator (gmap (string * string) Q) :=
  mastersOnly [(at_weight (Scalar (0#1)), kerning lightFont);
               (at_weight (Scalar (1000#1)), kerning boldFont)]
              (at_weight (Scalar (0#1))).

Definition kernedProcessor : DesignSpaceProcessor :=
  set_kerningMutator processor (Some kerningMutator).

(** The mutator of [a] as it is built from the three sources of the sample,
    and the masters it is built from. *)
Definition masters_a : list (gmap string AxisValue * Glyph) :=
  [(at_weight (Scalar (0#1)), light_a);
   (at_weight (Scalar (1000#1)), bold_a);
   (at_weight (Scalar (500#1)), bold_a)].

Definition rebuiltMutator_a : Mutator Glyph :=
  mastersOnly masters_a (at_weight (Scalar (0#1))).

(** The masters of the info and of the kerning of the three sources. *)
Definition masters_info : list (gmap string AxisValue * (Q * Q)) :=
  [(at_weight (Scalar (0#1)), (10#1, 700#1));
   (at_weight (Scalar (1000#1)), (30#1, 720#1));
   (at_weight (Scalar (500#1)), (30#1, 720#1))].

Definition masters_kerning : list (gmap string AxisValue * gmap (string * string) Q) :=
  [(at_weight (Scalar (0#1)), kerning lightFont);
   (at_weight (Scalar (1000#1)), kerning boldFont);
   (at_weight (Scalar (500#1)), kerning boldFont)].


End Sample.

(** * Properties *)

(** ** Names and the parking extension *)

Lemma prefix_refl (s : string) : String.prefix s s = true.
Proof.
  induction s as [|a s IH]; simpl; [done|].
  destruct (Ascii.ascii_dec a a); [done|congruence].
Qed.

Lemma hasExtension_parking (ext name : string) :
  hasExtension ext (name +:+ ext) = true.
Proof.
  unfold hasExtension.
  assert (∃ n, String.index 0 ext (name +:+ ext) = Some n) as [n ->]; [|done].
  induction name as [|a name [n IH]]; simpl.
  - destruct ext as [|b ext]; simpl; [eauto|].
    rewrite prefix_refl. destruct (Ascii.ascii_dec b b); [eauto|congruence].
  - rewrite IH.
    match goal with |- context [if ?b then _ else _] => destruct b end; eauto.
Qed.

Lemma hasExtension_not_parking (ext oldName name : string) :
  hasExtension ext name = false → name ≠ oldName +:+ ext.
Proof. intros H ->. by rewrite hasExtension_parking in H. Qed.

Lemma inFont_true (name : string) (font : Font) :
  inFont name font = true ↔ is_Some (glyphs font !! name).
Proof. unfold inFont. by rewrite bool_decide_eq_true. Qed.

Lemma exchangeName_involutive (oldName newName name : string) :
  exchangeName oldName newName (exchangeName oldName newName name) = name.
Proof. unfold exchangeName. repeat case_decide; congruence. Qed.

(** ** swapGlyphNames, step by step *)

Lemma newKerning_lookup (oldName newName : string) (m : gmap (string * string) Q)
    (k : string * string) :
  map_fold (λ (pair : string * string) (value : Q) (acc : gmap (string * string) Q),
              <[(exchangeName oldName newName pair.1,
                 exchangeName oldName newName pair.2) := value]> acc) ∅ m !! k
  = m !! (exchangeName oldName newName k.1, exchangeName oldName newName k.2).
Proof.
  revert k.
  apply (map_fold_weak_ind
           (λ r m, ∀ k : string * string,
              r !! k = m !! (exchangeName oldName newName k.1, exchangeName oldName newName k.2))).
  - intros k. by rewrite !lookup_empty.
  - intros i x m' r Hi IH k.
    destruct (decide ((exchangeName oldName newName i.1, exchangeName oldName newName i.2) = k))
      as [<-|Hne].
    + rewrite lookup_insert_eq. simpl. rewrite !exchangeName_involutive.
      destruct i; simpl. by rewrite lookup_insert_eq.
    + rewrite lookup_insert_ne; [|done]. rewrite IH.
      rewrite lookup_insert_ne; [done|].
      intros ->. apply Hne. simpl. rewrite !exchangeName_involutive. by destruct k.
Qed.

Lemma copyOutline_ne (src dst : string) (gs : gmap string Glyph) (s d : Glyph) :
  src ≠ dst → gs !! src = Some s → gs !! dst = Some d →
  copyOutline src dst gs = <[dst := takeOutline d s]> gs.
Proof.
  intros Hne Hs Hd. unfold copyOutline.
  rewrite lookup_alter_ne by done. rewrite lookup_alter_eq, Hs, Hd. simpl.
  apply map_eq. intros i. destruct (decide (dst = i)) as [<-|].
  - by rewrite !lookup_insert_eq.
  - rewrite !lookup_insert_ne by done. by rewrite lookup_alter_ne.
Qed.

Lemma copyOutline_same (name : string) (gs : gmap string Glyph) (d : Glyph) :
  gs !! name = Some d → copyOutline name name gs = <[name := clear d]> gs.
Proof.
  intros Hd. unfold copyOutline. rewrite lookup_alter_eq, Hd. simpl.
  apply map_eq. intros i. destruct (decide (name = i)) as [<-|].
  - rewrite !lookup_insert_eq. by destruct d.
  - rewrite !lookup_insert_ne by done. by rewrite lookup_alter_ne.
Qed.

Lemma remapComponents_lookup (from to : string) (gs : gmap string Glyph) (n : string) :
  remapComponents from to gs !! n =
  (λ g, set_components g (renameBase from to <$> components g)) <$> gs !! n.
Proof. unfold remapComponents. by rewrite lookup_fmap. Qed.

Lemma exchanged_lookup (oldName newName : string) (gs : gmap string Glyph)
    (gOld gNew : Glyph) (n : string) :
  gs !! oldName = Some gOld → gs !! newName = Some gNew →
  exchanged oldName newName gs !! n =
    if decide (n = newName) then Some (takeOutline gNew gOld)
    else if decide (n = oldName) then Some (takeOutline gOld gNew)
    else gs !! n.
Proof.
  intros HA HB. unfold exchanged. rewrite HA, HB.
  repeat case_decide; subst; simplify_map_eq; done.
Qed.

(** The three outline copies through the parking glyph exchange the two
    outlines, whether the parking glyph was there or had to be made. *)
Lemma copies_exchange (font : Font) (A B ext : string) (gA gB : Glyph) :
  glyphs font !! A = Some gA → glyphs font !! B = Some gB →
  hasExtension ext A = false → hasExtension ext B = false →
  let parking := A +:+ ext in
  let gs := if negb (inFont parking font)
            then newGlyph parking (glyphs font) else glyphs font in
  ∀ n, n ≠ parking →
    copyOutline parking B (copyOutline B A (copyOutline A parking gs)) !! n =
    exchanged A B (glyphs font) !! n.
Proof.
  intros HA HB HeA HeB parking gs n Hn.
  pose proof (hasExtension_not_parking ext A A HeA) as HAp.
  pose proof (hasExtension_not_parking ext A B HeB) as HBp.
  fold parking in HAp, HBp.
  assert (∃ s0, gs !! parking = Some s0) as [s0 Hs0].
  { subst gs. destruct (inFont parking font) eqn:Hin; simpl.
    - by apply inFont_true in Hin as [s0 ->]; eauto.
    - unfold newGlyph. rewrite lookup_insert_eq. eauto. }
  assert (∀ m, m ≠ parking → gs !! m = glyphs font !! m) as Hgs.
  { intros m Hm. subst gs. destruct (negb _); [|done].
    unfold newGlyph. by rewrite lookup_insert_ne. }
  rewrite (exchanged_lookup A B _ gA gB) by done.
  rewrite (copyOutline_ne A parking gs gA s0); [|done|by rewrite Hgs|done].
  destruct (decide (A = B)) as [<-|HAB].
  - assert (gB = gA) as -> by congruence.
    rewrite (copyOutline_same A _ gA); [|by rewrite lookup_insert_ne, Hgs].
    rewrite (copyOutline_ne parking A _ (takeOutline s0 gA) (clear gA));
      [|done|by rewrite lookup_insert_ne, lookup_insert_eq|by rewrite lookup_insert_eq].
    case_decide as HnA.
    + subst n. rewrite !lookup_insert_eq. by destruct gA.
    + rewrite !lookup_insert_ne by done. by apply Hgs.
  - rewrite (copyOutline_ne B A _ gB gA);
      [|done|by rewrite lookup_insert_ne, Hgs|by rewrite lookup_insert_ne, Hgs].
    rewrite (copyOutline_ne parking B _ (takeOutline s0 gA) gB);
      [|done|by rewrite lookup_insert_ne, lookup_insert_eq
       |by rewrite !lookup_insert_ne, Hgs].
    case_decide as HnB.
    + subst n. by rewrite !lookup_insert_eq.
    + rewrite !(lookup_insert_ne _ B) by done.
      case_decide as HnA.
      * subst n. by rewrite !lookup_insert_eq.
      * rewrite !lookup_insert_ne by done. by apply Hgs.
Qed.

(** The glyphs after a swap: those with the extension in their name are
    gone, the two outlines are exchanged, and every component went through
    the three passes. *)
Lemma swapGlyphNames_glyphs_lookup (font : Font) (A B ext : string) (gA gB : Glyph) :
  glyphs font !! A = Some gA → glyphs font !! B = Some gB →
  hasExtension ext A = false → hasExtension ext B = false →
  ∀ n, glyphs (swapGlyphNames font A B ext).2 !! n =
       if hasExtension ext n then None
       else remapped A B (A +:+ ext) <$> exchanged A B (glyphs font) !! n.
Proof.
  intros HA HB HeA HeB n. unfold swapGlyphNames.
  assert (inFont A font = true) as -> by (apply inFont_true; eauto).
  assert (inFont B font = true) as -> by (apply inFont_true; eauto).
  simpl. rewrite map_lookup_filter. rewrite !remapComponents_lookup.
  destruct (hasExtension ext n) eqn:Hn.
  - simpl. destruct (_ <$> _); simpl; [|done].
    rewrite option_guard_False; [done|]. simpl. congruence.
  - rewrite (copies_exchange font A B ext gA gB) by eauto using hasExtension_not_parking.
    destruct (exchanged A B (glyphs font) !! n) as [g|]; simpl; [|done].
    rewrite option_guard_True by done. simpl. unfold remapped, threePasses.
    f_equal. destruct g; unfold set_components; simpl. f_equal.
    rewrite <- !list_fmap_compose. done.
Qed.

Lemma swapGlyphNames_kerning (font : Font) (A B ext : string) :
  inFont A font = true → inFont B font = true →
  ∀ k, kerning (swapGlyphNames font A B ext).2 !! k =
       kerning font !! (exchangeName A B k.1, exchangeName A B k.2).
Proof.
  intros HA HB k. unfold swapGlyphNames. rewrite HA, HB. simpl.
  apply newKerning_lookup.
Qed.

Lemma swapGlyphNames_groups (font : Font) (A B ext : string) :
  inFont A font = true → inFont B font = true →
  groups (swapGlyphNames font A B ext).2 =
  (λ members : list string, exchangeName A B <$> members) <$> groups font.
Proof. intros HA HB. unfold swapGlyphNames. by rewrite HA, HB. Qed.

Lemma swapGlyphNames_rest (font : Font) (A B ext : string) :
  let font' := (swapGlyphNames font A B ext).2 in
  path font' = path font ∧ layers font' = layers font ∧ info font' = info font ∧
  lib font' = lib font ∧ features font' = features font ∧
  kerningGroupConversionRenameMaps font' = kerningGroupConversionRenameMaps font.
Proof. unfold swapGlyphNames. destruct (_ || _); simpl; done. Qed.

Lemma threePasses_base (A B S : string) (c : Component) :
  A ≠ S → B ≠ S →
  baseGlyph (threePasses A B S c) =
    if decide (baseGlyph c = A) then B
    else if decide (baseGlyph c = B) then A
    else if decide (baseGlyph c = S) then B
    else baseGlyph c.
Proof.
  intros HA HB. unfold threePasses, renameBase.
  repeat (case_decide; simpl in *); congruence.
Qed.

Lemma threePasses_transformation (A B S : string) (c : Component) :
  transformation (threePasses A B S c) = transformation c.
Proof. unfold threePasses, renameBase. repeat (case_decide; simpl in *); done. Qed.

Lemma threePasses_involutive (A B S : string) (c : Component) :
  A ≠ S → B ≠ S → baseGlyph c ≠ S →
  threePasses A B S (threePasses A B S c) = c.
Proof.
  intros HA HB Hc.
  assert (∀ c1 c2 : Component, baseGlyph c1 = baseGlyph c2 →
            transformation c1 = transformation c2 → c1 = c2) as Hext.
  { intros [] []; simpl; congruence. }
  apply Hext.
  - rewrite !threePasses_base by done. repeat case_decide; congruence.
  - by rewrite !threePasses_transformation.
Qed.

(** ** swapGlyphNames: the claims *)

(** C4. [swapGlyphNames] exchanges the outlines and the widths of [oldName]
    and [newName] through a parking glyph that is gone afterwards; every
    component reference of the glyph set goes through the three passes
    [oldName → parking], [newName → oldName], [parking → newName] in this
    order, which send a reference to the parking name to [newName] and so
    differ from the single combined substitution; the kerning is a new table
    in which both names of every pair are exchanged, and so are the members
    of the groups; the unicodes of every glyph stay with its name. *)
Theorem swapGlyphNames_exchanges (font : Font) (oldName newName ext : string)
    (gOld gNew : Glyph) :
  glyphs font !! oldName = Some gOld →
  glyphs font !! newName = Some gNew →
  hasExtension ext oldName = false →
  hasExtension ext newName = false →
  let parking := oldName +:+ ext in
  let font' := (swapGlyphNames font oldName newName ext).2 in
  (∃ g, glyphs font' !! oldName = Some g ∧
        contours g = contours gNew ∧ width g = width gNew ∧
        components g = threePasses oldName newName parking <$> components gNew ∧
        unicodes g = unicodes gOld) ∧
  (∃ g, glyphs font' !! newName = Some g ∧
        contours g = contours gOld ∧ width g = width gOld ∧
        components g = threePasses oldName newName parking <$> components gOld ∧
        unicodes g = unicodes gNew) ∧
  (∀ name g, name ≠ oldName → name ≠ newName → hasExtension ext name = false →
     glyphs font !! name = Some g →
     glyphs font' !! name =
       Some (set_components g (threePasses oldName newName parking <$> components g))) ∧
  glyphs font' !! parking = None ∧
  (∀ c, baseGlyph (threePasses oldName newName parking c) =
          if decide (baseGlyph c = oldName) then newName
          else if decide (baseGlyph c = newName) then oldName
          else if decide (baseGlyph c = parking) then newName
          else baseGlyph c) ∧
  (∀ t, threePasses oldName newName parking (mkComponent parking t) ≠
        combinedSubstitution oldName newName (mkComponent parking t)) ∧
  (∀ first second,
     kerning font' !! (first, second) =
     kerning font !! (exchangeName oldName newName first, exchangeName oldName newName second)) ∧
  (∀ groupName,
     groups font' !! groupName =
     (λ members : list string, exchangeName oldName newName <$> members)
       <$> groups font !! groupName) ∧
  (∀ name g', glyphs font' !! name = Some g' →
     ∃ g, glyphs font !! name = Some g ∧ unicodes g' = unicodes g).
Proof.
  intros HA HB HeA HeB parking font'.
  pose proof (hasExtension_not_parking ext oldName oldName HeA) as HAp.
  pose proof (hasExtension_not_parking ext oldName newName HeB) as HBp.
  pose proof (swapGlyphNames_glyphs_lookup font oldName newName ext gOld gNew
                HA HB HeA HeB) as Hlook.
  fold parking in HAp, HBp, Hlook. fold font' in Hlook.
  assert (inFont oldName font = true) as HinA by (apply inFont_true; eauto).
  assert (inFont newName font = true) as HinB by (apply inFont_true; eauto).
  pose proof (λ n, exchanged_lookup oldName newName (glyphs font) gOld gNew n HA HB)
    as Hex.
  repeat split.
  - rewrite Hlook, HeA, Hex. case_decide as HAB.
    + subst newName. assert (gNew = gOld) as -> by congruence.
      eexists; split; [done|]. done.
    + rewrite decide_True by done. eexists; split; [done|]. done.
  - rewrite Hlook, HeB, Hex. rewrite decide_True by done.
    eexists; split; [done|]. done.
  - intros name g Hn1 Hn2 He Hg. rewrite Hlook, He, Hex.
    rewrite !decide_False by done. by rewrite Hg.
  - rewrite Hlook. subst parking. by rewrite hasExtension_parking.
  - intros c. by apply threePasses_base.
  - intros t Heq. apply (f_equal baseGlyph) in Heq.
    rewrite threePasses_base in Heq by done. simpl in Heq.
    unfold exchangeName in Heq. repeat case_decide; congruence.
  - intros first second. subst font'.
    by rewrite swapGlyphNames_kerning.
  - intros groupName. subst font'.
    rewrite swapGlyphNames_groups by done. by rewrite lookup_fmap.
  - intros name g'. rewrite Hlook, Hex.
    destruct (hasExtension ext name); [done|].
    repeat case_decide; subst; simpl.
    + intros [= <-]. eauto.
    + intros [= <-]. eauto.
    + destruct (glyphs font !! name) as [g|]; simpl; [|done].
      intros [= <-]. eauto.
Qed.

(** C3, as amended. When no glyph of the font has the extension in its name
    and no component refers to the parking name, swapping [oldName] and
    [newName] twice gives the font back as it was: glyphs with their
    outlines, widths and components, kerning and groups. *)
Theorem swapGlyphNames_twice (font : Font) (oldName newName ext : string) :
  is_Some (glyphs font !! oldName) →
  is_Some (glyphs font !! newName) →
  parkingFree font oldName ext →
  (swapGlyphNames (swapGlyphNames font oldName newName ext).2 oldName newName ext).2
  = font.
Proof.
  intros [gA HA] [gB HB] Hfree.
  set (parking := oldName +:+ ext) in *.
  assert (∀ name, is_Some (glyphs font !! name) → hasExtension ext name = false)
    as Hnames.
  { intros name [g Hg]. by destruct (Hfree name g Hg). }
  assert (∀ name g c, glyphs font !! name = Some g → c ∈ components g →
                      baseGlyph c ≠ parking) as Hrefs.
  { intros name g c Hg Hc. destruct (Hfree name g Hg) as [_ Hall].
    by eapply Forall_forall in Hall. }
  assert (hasExtension ext oldName = false) as HeA by (apply Hnames; eauto).
  assert (hasExtension ext newName = false) as HeB by (apply Hnames; eauto).
  pose proof (hasExtension_not_parking ext oldName oldName HeA) as HAp.
  pose proof (hasExtension_not_parking ext oldName newName HeB) as HBp.
  fold parking in HAp, HBp.
  set (font' := (swapGlyphNames font oldName newName ext).2).
  pose proof (swapGlyphNames_glyphs_lookup font oldName newName ext gA gB
                HA HB HeA HeB) as Hlook.
  fold parking font' in Hlook.
  pose proof (λ n, exchanged_lookup oldName newName (glyphs font) gA gB n HA HB) as Hex.
  assert (∀ g, (∀ c, c ∈ components g → baseGlyph c ≠ parking) →
     remapped oldName newName parking (remapped oldName newName parking g) = g) as Hrem.
  { intros g Hg. destruct g as [cs ks w u nt]. unfold remapped, set_components; simpl.
    f_equal. rewrite <- list_fmap_compose.
    rewrite <- (list_fmap_id ks) at 2. apply list_fmap_ext.
    intros i c Hc. simpl. apply threePasses_involutive; [done..|].
    apply Hg. simpl. by eapply list_elem_of_lookup_2. }
  assert (inFont oldName font = true) as HinA by (apply inFont_true; eauto).
  assert (inFont newName font = true) as HinB by (apply inFont_true; eauto).
  set (gA' := remapped oldName newName parking (takeOutline gA gB)).
  set (gB' := remapped oldName newName parking (takeOutline gB gA)).
  assert (glyphs font' !! oldName = Some gA') as HA'.
  { rewrite Hlook, HeA, Hex. case_decide; [|by rewrite decide_True].
    subst newName. assert (gB = gA) as -> by congruence. done. }
  assert (glyphs font' !! newName = Some gB') as HB'.
  { rewrite Hlook, HeB, Hex. by rewrite decide_True. }
  pose proof (swapGlyphNames_glyphs_lookup font' oldName newName ext gA' gB'
                HA' HB' HeA HeB) as Hlook'.
  fold parking in Hlook'.
  assert (inFont oldName font' = true) as HinA' by (apply inFont_true; eauto).
  assert (inFont newName font' = true) as HinB' by (apply inFont_true; eauto).
  set (font'' := (swapGlyphNames font' oldName newName ext).2) in *.
  assert (glyphs font'' = glyphs font) as Hglyphs.
  { apply map_eq. intros n. rewrite Hlook'.
    destruct (hasExtension ext n) eqn:Hn.
    { destruct (glyphs font !! n) eqn:Hg; [|done].
      rewrite Hnames in Hn by eauto. done. }
    rewrite (exchanged_lookup oldName newName _ gA' gB') by done.
    repeat case_decide; subst; simpl.
    - rewrite HB. f_equal.
      transitivity (remapped oldName newName parking
                      (remapped oldName newName parking gB)); [by destruct gA, gB|].
      apply Hrem. eauto.
    - rewrite HA. f_equal.
      transitivity (remapped oldName newName parking
                      (remapped oldName newName parking gA)); [by destruct gA, gB|].
      apply Hrem. eauto.
    - rewrite Hlook, Hn, Hex. rewrite !decide_False by done.
      destruct (glyphs font !! n) as [g|] eqn:Hg; simpl; [|done].
      f_equal. apply Hrem. eauto. }
  assert (kerning font'' = kerning font) as Hkern.
  { apply map_eq. intros k. subst font''.
    rewrite swapGlyphNames_kerning by done. subst font'.
    rewrite swapGlyphNames_kerning by done. simpl.
    rewrite !exchangeName_involutive. by destruct k. }
  assert (groups font'' = groups font) as Hgroups.
  { subst font''. rewrite swapGlyphNames_groups by done. subst font'.
    rewrite swapGlyphNames_groups by done.
    rewrite <- map_fmap_compose. rewrite <- (map_fmap_id (groups font)) at 2.
    apply map_fmap_ext. intros i members _. simpl.
    rewrite <- list_fmap_compose. rewrite <- (list_fmap_id members) at 2.
    apply list_fmap_ext. intros j name _. simpl. apply exchangeName_involutive. }
  destruct (swapGlyphNames_rest font' oldName newName ext) as (R1 & R2 & R3 & R4 & R5 & R6).
  destruct (swapGlyphNames_rest font oldName newName ext) as (Q1 & Q2 & Q3 & Q4 & Q5 & Q6).
  fold font' in R1, R2, R3, R4, R5, R6, Q1, Q2, Q3, Q4, Q5, Q6.
  fold font'' in R1, R2, R3, R4, R5, R6.
  destruct font'' as [p1 g1 l1 k1 gr1 i1 lb1 f1 r1], font as [p0 g0 l0 k0 gr0 i0 lb0 f0 r0].
  simpl in *. congruence.
Qed.

(** C10. When [oldName] or [newName] is not a glyph of the font,
    [swapGlyphNames] returns without a value and the font is as it was. *)
Theorem swapGlyphNames_absent (font : Font) (oldName newName ext : string) :
  inFont oldName font = false ∨ inFont newName font = false →
  swapGlyphNames font oldName newName ext = (tt, font).
Proof.
  intros [H|H]; unfold swapGlyphNames; rewrite H; simpl; [done|].
  by rewrite orb_true_r.
Qed.

(** ** Locations *)

Lemma splitAnisotropic_lookup (location : gmap string AxisValue) (dim : string) :
  (splitAnisotropic location).1 !! dim = horizontalOf <$> location !! dim ∧
  (splitAnisotropic location).2 !! dim = verticalOf <$> location !! dim.
Proof.
  unfold splitAnisotropic.
  apply (map_fold_weak_ind (λ (r : gmap string AxisValue * gmap string AxisValue) m,
           r.1 !! dim = horizontalOf <$> m !! dim ∧ r.2 !! dim = verticalOf <$> m !! dim)).
  - by rewrite !lookup_empty.
  - intros i v m r Hi [IH1 IH2].
    destruct (decide (i = dim)) as [->|Hne].
    + rewrite lookup_insert_eq. destruct v; simpl; by rewrite !lookup_insert_eq.
    + rewrite (lookup_insert_ne m) by done.
      destruct v; simpl; by rewrite !lookup_insert_ne.
Qed.

Lemma isAnisotropic_spec (location : gmap string AxisValue) :
  isAnisotropic location = true ↔ ∃ dim x y, location !! dim = Some (Pair x y).
Proof.
  unfold isAnisotropic.
  apply (map_fold_weak_ind (λ (r : bool) m,
           r = true ↔ ∃ dim x y, m !! dim = Some (Pair x y))).
  - split; [done|]. intros (dim & x & y & H). by rewrite lookup_empty in H.
  - intros i v m r Hi IH. split.
    + intros H. apply orb_true_iff in H as [H|H].
      * destruct v as [|x y]; [done|]. exists i, x, y. by rewrite lookup_insert_eq.
      * apply IH in H as (dim & x & y & H). exists dim, x, y.
        rewrite lookup_insert_ne; [done|]. intros ->. congruence.
    + intros (dim & x & y & H). apply orb_true_iff.
      destruct (decide (i = dim)) as [->|Hne].
      * rewrite lookup_insert_eq in H. injection H as ->. by left.
      * rewrite lookup_insert_ne in H by done. right. apply IH. eauto.
Qed.

(** C6. Of the two locations that [splitAnisotropic] returns, the first has
    the first number of every pair and the second the second, a plain number
    is in both, and no other axis appears; recombining the two halves gives
    the location back when it has no degenerate pair; [isAnisotropic] holds
    exactly when some axis has a pair. *)
Theorem splitAnisotropic_halves (location : gmap string AxisValue) :
  let horizontal := (splitAnisotropic location).1 in
  let vertical := (splitAnisotropic location).2 in
  (∀ dim x y, location !! dim = Some (Pair x y) →
     horizontal !! dim = Some (Scalar x) ∧ vertical !! dim = Some (Scalar y)) ∧
  (∀ dim v, location !! dim = Some (Scalar v) →
     horizontal !! dim = Some (Scalar v) ∧ vertical !! dim = Some (Scalar v)) ∧
  (∀ dim, location !! dim = None →
     horizontal !! dim = None ∧ vertical !! dim = None) ∧
  (nonDegenerate location → combine horizontal vertical = location) ∧
  (isAnisotropic location = true ↔ ∃ dim x y, location !! dim = Some (Pair x y)).
Proof.
  intros horizontal vertical.
  assert (∀ dim, horizontal !! dim = horizontalOf <$> location !! dim ∧
                 vertical !! dim = verticalOf <$> location !! dim) as Hlook
    by apply splitAnisotropic_lookup.
  split; [|split; [|split; [|split]]].
  - intros dim x y H. destruct (Hlook dim) as [-> ->]. by rewrite H.
  - intros dim v H. destruct (Hlook dim) as [-> ->]. by rewrite H.
  - intros dim H. destruct (Hlook dim) as [-> ->]. by rewrite H.
  - intros Hnd. apply map_eq. intros dim. unfold combine.
    rewrite map_lookup_zip_with. destruct (Hlook dim) as [-> ->].
    destruct (location !! dim) as [[v|x y]|] eqn:Hd; simpl; [| |done].
    + unfold combineValue. by rewrite Qeq_bool_refl.
    + unfold combineValue. by rewrite (Hnd dim x y Hd).
  - apply isAnisotropic_spec.
Qed.

(** ** Results and methods *)

Lemma res_bind_Ok {A B : Type} (r : res A) (k : A → res B) (b : B) :
  r ≫= k = Ok b ↔ ∃ a, r = Ok a ∧ k a = Ok b.
Proof.
  destruct r as [a|e]; simpl.
  - split; [eauto|]. by intros (a' & [= <-] & H).
  - split; [done|]. by intros (a' & [=] & _).
Qed.

Lemma mapM_res_Ok {A B : Type} (f : A → res B) (l : list A) (ys : list B) :
  mapM f l = Ok ys ↔ Forall2 (λ x y, f x = Ok y) l ys.
Proof.
  revert ys. induction l as [|x l IH]; intros ys; simpl.
  - split.
    + intros [= <-]. constructor.
    + intros H. by inversion H.
  - split.
    + intros H. apply res_bind_Ok in H as (y & Hy & H).
      apply res_bind_Ok in H as (k & Hk & H). injection H as <-.
      constructor; [done|]. by apply IH.
    + intros H. inversion H as [|? y ? k Hy Hk]; subst.
      apply res_bind_Ok. exists y. split; [done|].
      apply res_bind_Ok. exists k. split; [by apply IH|done].
Qed.

Lemma namingAttributes_not_copied (attribute : string) :
  attribute ∈ namingAttributes → attribute ∉ infoAttributes.
Proof.
  unfold namingAttributes. intros H.
  repeat (apply elem_of_cons in H as [->|H];
          [apply (bool_decide_unpack _); by vm_compute|]).
  by apply elem_of_nil in H.
Qed.

Section ProcessorProperties.
Context {FM : FontMath} {VB : VariationBackends} {DSL : DesignSpaceLib}
        {UL : UfoLib} {PP : PointPens}.

Lemma M_bind_run {A B : Type} (m : M A) (k : A → M B) (p : DesignSpaceProcessor) :
  (m ≫= k) p = match m p with
               | (Ok a, p') => k a p'
               | (Raise e, p') => (Raise e, p')
               end.
Proof. done. Qed.

(** *** collectMastersForGlyph *)

Lemma collectMaster_turn (p : DesignSpaceProcessor) (glyphName : string) (dc : bool)
    (sd : SourceDescriptor)
    (turn : option (gmap string AxisValue * MathGlyph * SourceInfo)) :
  collectMaster p glyphName dc sd = Ok turn →
  match turn with
  | None => excluded p glyphName sd = true
  | Some item => excluded p glyphName sd = false ∧
                 item.1.1 = source_location sd ∧
                 info_sourceName item.2 = source_name sd
  end.
Proof.
  unfold collectMaster, excluded, getitem.
  destruct (fonts p !! source_name sd) as [f|] eqn:Hf; simpl; [|done].
  destruct (bool_decide (glyphName ∈ mutedGlyphNames sd)) eqn:Hm; simpl.
  { by intros [= <-]. }
  destruct f as [f|]; simpl; [|done].
  destruct (inFont glyphName f) eqn:Hin; simpl; [|by intros [= <-]].
  destruct (layerName sd) as [name|]; simpl.
  - destruct (layers f !! name) as [layer|]; simpl.
    + destruct (bool_decide (is_Some (layer !! glyphName))) eqn:Hl; simpl;
        [|by intros [= <-]].
      intros H. apply res_bind_Ok in H as (g & _ & H).
      apply res_bind_Ok in H as (g' & _ & H).
      apply res_bind_Ok in H as (mg & _ & H). by injection H as <-.
    + intros H. apply res_bind_Ok in H as (g & _ & H).
      apply res_bind_Ok in H as (g' & _ & H).
      apply res_bind_Ok in H as (mg & _ & H). by injection H as <-.
  - intros H. apply res_bind_Ok in H as (g & _ & H).
    apply res_bind_Ok in H as (g' & _ & H).
    apply res_bind_Ok in H as (mg & _ & H). by injection H as <-.
Qed.

Lemma collectMaster_total (p : DesignSpaceProcessor) (glyphName : string)
    (sd : SourceDescriptor) (f : Font) :
  fonts p !! source_name sd = Some (Some f) →
  (∀ g, ∃ m, mathGlyphClass g = Ok m) →
  ∃ turn, collectMaster p glyphName false sd = Ok turn.
Proof.
  intros Hf Hmath. unfold collectMaster, getitem. rewrite Hf. simpl.
  destruct (bool_decide _); [eauto|]. simpl.
  destruct (inFont glyphName f) eqn:Hin; simpl; [|eauto].
  apply inFont_true in Hin as [g Hg].
  destruct (layerName sd) as [name|]; simpl.
  - destruct (layers f !! name) as [layer|]; simpl.
    + destruct (bool_decide (is_Some (layer !! glyphName))) eqn:Hl; simpl; [|eauto].
      apply bool_decide_eq_true in Hl as [g' Hg']. rewrite Hg'. simpl.
      destruct (Hmath g') as [m ->]. simpl. eauto.
    + rewrite Hg. simpl. destruct (Hmath g) as [m ->]. simpl. eauto.
  - rewrite Hg. simpl. destruct (Hmath g) as [m ->]. simpl. eauto.
Qed.

(** C7. The items that [collectMastersForGlyph] returns for a glyph are, in
    the order of the sources, one for each source that is not excluded and
    none for a source that is: a source in which the glyph is muted, whose
    font lacks the glyph, or whose named layer lacks it, adds nothing to the
    list. When the fonts of all sources are loaded, the list is returned. *)
Theorem collectMastersForGlyph_excludes (p : DesignSpaceProcessor)
    (glyphName : string) (decomposeComponents : bool) :
  (∀ items, collectMastersForGlyph p glyphName decomposeComponents = Ok items →
     (λ item : gmap string AxisValue * MathGlyph * SourceInfo,
        (item.1.1, info_sourceName item.2)) <$> items =
     (λ sd, (source_location sd, source_name sd))
       <$> filter (λ sd, excluded p glyphName sd = false) (sources p)) ∧
  (fontsPresent p → (∀ g, ∃ m, mathGlyphClass g = Ok m) →
     ∃ items, collectMastersForGlyph p glyphName false = Ok items).
Proof.
  split.
  - intros items H. unfold collectMastersForGlyph in H.
    apply res_bind_Ok in H as (turns & Hturns & H). injection H as <-.
    apply mapM_res_Ok in Hturns.
    induction Hturns as [|sd turn sds turns Hturn _ IH]; [done|].
    apply collectMaster_turn in Hturn. rewrite filter_cons.
    destruct turn as [item|]; simpl.
    + destruct Hturn as (Hex & Hloc & Hname).
      rewrite decide_True by done. simpl.
      f_equal; [by rewrite Hloc, Hname|]. apply IH.
    + rewrite decide_False by congruence. apply IH.
  - intros Hfonts Hmath. unfold collectMastersForGlyph.
    assert (∃ turns, mapM (collectMaster p glyphName false) (sources p) = Ok turns)
      as [turns ->]; [|simpl; eauto].
    unfold fontsPresent in Hfonts.
    induction (sources p) as [|sd sds IH]; simpl; [eauto|].
    destruct (Hfonts sd) as [f Hf]; [by left|].
    destruct (collectMaster_total p glyphName sd f Hf Hmath) as [turn ->]. simpl.
    destruct IH as [turns ->]; [|simpl; eauto].
    intros sd' Hsd'. apply Hfonts. by right.
Qed.

(** *** The mutator cache *)

Lemma getVariationModel_run {V : Type} (items : list (gmap string AxisValue * V))
    (bias : gmap string AxisValue) (p : DesignSpaceProcessor) :
  getVariationModel items bias p =
    match (if useVarlib p
           then m ← VariationModelMutator V items (axes p); Ok (∅, Some m)
           else buildMutator V items (getMutatorAxes p) bias) with
    | Ok r => (Ok (Some r), p)
    | Raise e => (Ok None, set_problems p (problems p ++ [VariationModelProblem e]))
    end.
Proof.
  unfold getVariationModel, try_except, mbind, M_bind, self, lift, mret, M_ret,
    problems_append, update. simpl.
  destruct (useVarlib p); simpl.
  - by destruct (VariationModelMutator V items (axes p)).
  - by destruct (buildMutator V items (getMutatorAxes p) bias).
Qed.

Lemma getGlyphMutator_run (glyphName : string) (dc fromCache : bool)
    (p : DesignSpaceProcessor) :
  getGlyphMutator glyphName dc fromCache p =
    let rebuild :=
      match rebuilt p glyphName dc with
      | (Ok (Some model), _) =>
          (Ok model.2,
           set_glyphMutators p (<[(glyphName, dc) := model.2]> (_glyphMutators p)))
      | (Ok None, l) => (Raise TypeError, set_problems p (problems p ++ l))
      | (Raise e, _) => (Raise e, p)
      end in
    match _glyphMutators p !! (glyphName, dc) with
    | Some m => if fromCache then (Ok m, p) else rebuild
    | None => rebuild
    end.
Proof.
  unfold getGlyphMutator, rebuilt. rewrite M_bind_run. unfold self at 1.
  destruct (_glyphMutators p !! (glyphName, dc)) as [m|] eqn:Hc.
  - rewrite bool_decide_eq_true_2 by eauto. destruct fromCache; simpl.
    + unfold lift, getitem. by rewrite Hc.
    + unfold lift, mbind, M_bind. simpl.
      destruct (collectMastersForGlyph p glyphName dc) as [items|e]; simpl; [|done].
      destruct (mapM _ items) as [new|e]; simpl; [|done].
      rewrite getVariationModel_run.
      destruct (if useVarlib p then _ else _) as [r|e]; simpl; [|done].
      destruct p; done.
  - rewrite bool_decide_eq_false_2 by (intros [? ?]; congruence). simpl.
    unfold lift, mbind, M_bind. simpl.
    destruct (collectMastersForGlyph p glyphName dc) as [items|e]; simpl; [|done].
    destruct (mapM _ items) as [new|e]; simpl; [|done].
    rewrite getVariationModel_run.
    destruct (if useVarlib p then _ else _) as [r|e]; simpl; [|done].
    destruct p; done.
Qed.

Lemma getGlyphMutator_hit (glyphName : string) (dc : bool)
    (p : DesignSpaceProcessor) (cached : option (Mutator MathGlyph)) :
  _glyphMutators p !! (glyphName, dc) = Some cached →
  getGlyphMutator glyphName dc true p = (Ok cached, p).
Proof. intros H. rewrite getGlyphMutator_run. simpl. by rewrite H. Qed.

(** A call that does not take the object from the cache returns the mutator
    of the model that [getVariationModel] builds from the masters that
    [collectMastersForGlyph] collects, and stores it under the key. *)
Lemma getGlyphMutator_builds (glyphName : string) (dc fromCache : bool)
    (p : DesignSpaceProcessor)
    (items : list (gmap string AxisValue * MathGlyph * SourceInfo))
    (new : list (gmap string AxisValue * MathGlyph))
    (model : gmap string AxisValue * option (Mutator MathGlyph)) :
  fromCache = false ∨ _glyphMutators p !! (glyphName, dc) = None →
  collectMastersForGlyph p glyphName dc = Ok items →
  mapM (λ item : gmap string AxisValue * MathGlyph * SourceInfo,
          b ← mathGlyphClass_again item.1.2; mret (item.1.1, b)) items = Ok new →
  getVariationModel new (defaultLoc p) p = (Ok (Some model), p) →
  getGlyphMutator glyphName dc fromCache p =
    (Ok model.2,
     set_glyphMutators p (<[(glyphName, dc) := model.2]> (_glyphMutators p))).
Proof.
  intros Hmiss Hitems Hnew Hmodel.
  unfold getGlyphMutator. rewrite M_bind_run. unfold self at 1.
  assert (bool_decide (is_Some (_glyphMutators p !! (glyphName, dc))) && fromCache
          = false) as ->.
  { destruct Hmiss as [-> | ->]; [apply andb_false_r|].
    rewrite bool_decide_eq_false_2; [done|]. by intros [? ?]. }
  rewrite M_bind_run. unfold lift at 1. rewrite Hitems.
  rewrite M_bind_run. unfold lift at 1. rewrite Hnew.
  rewrite M_bind_run, Hmodel. done.
Qed.

(** What such a call returns was built in this way. *)
Lemma getGlyphMutator_built (glyphName : string) (dc fromCache : bool)
    (p p' : DesignSpaceProcessor) (built : option (Mutator MathGlyph)) :
  fromCache = false ∨ _glyphMutators p !! (glyphName, dc) = None →
  getGlyphMutator glyphName dc fromCache p = (Ok built, p') →
  ∃ items new model,
    collectMastersForGlyph p glyphName dc = Ok items ∧
    mapM (λ item : gmap string AxisValue * MathGlyph * SourceInfo,
            b ← mathGlyphClass_again item.1.2; mret (item.1.1, b)) items = Ok new ∧
    getVariationModel new (defaultLoc p) p = (Ok (Some model), p) ∧
    built = model.2 ∧
    p' = set_glyphMutators p (<[(glyphName, dc) := built]> (_glyphMutators p)).
Proof.
  intros Hmiss.
  unfold getGlyphMutator. rewrite M_bind_run. unfold self at 1.
  assert (bool_decide (is_Some (_glyphMutators p !! (glyphName, dc))) && fromCache
          = false) as ->.
  { destruct Hmiss as [-> | ->]; [apply andb_false_r|].
    rewrite bool_decide_eq_false_2; [done|]. by intros [? ?]. }
  rewrite M_bind_run. unfold lift at 1.
  destruct (collectMastersForGlyph p glyphName dc) as [items|e]; [|done].
  rewrite M_bind_run. unfold lift at 1.
  destruct (mapM _ items) as [new|e] eqn:Hnew; [|done].
  rewrite M_bind_run, getVariationModel_run.
  destruct (if useVarlib p then _ else _) as [model|e] eqn:Hbackend; [|done].
  intros [= <- <-]. exists items, new, model.
  split; [done|]. split; [done|]. split; [|done].
  rewrite getVariationModel_run. by rewrite Hbackend.
Qed.

(** C5. [getGlyphMutator] keeps what it builds under the key [(glyphName,
    decomposeComponents)]: a call leaves the entries of all other keys as
    they were, so the two values of the flag have entries of their own; with
    [fromCache] a cached object is returned as it is and the processor is
    left untouched; without [fromCache] the result does not depend on what
    the cache holds, and what was built is the entry of the key afterwards,
    as it is after a miss; a call that returned an object returns the same
    object when it is repeated with [fromCache], and changes nothing. What a
    miss and a call without [fromCache] return and store is the mutator of
    the model that [getVariationModel] builds from the masters that
    [collectMastersForGlyph] collects for the glyph and the flag, and
    nothing else; a call without [fromCache] returns what a miss would. *)
Theorem getGlyphMutator_cache (glyphName : string) (decomposeComponents : bool)
    (p : DesignSpaceProcessor) :
  let cacheKey := (glyphName, decomposeComponents) in
  (∀ cached, _glyphMutators p !! cacheKey = Some cached →
     getGlyphMutator glyphName decomposeComponents true p = (Ok cached, p)) ∧
  (∀ fromCache key, key ≠ cacheKey →
     _glyphMutators (getGlyphMutator glyphName decomposeComponents fromCache p).2 !! key
     = _glyphMutators p !! key) ∧
  (∀ cache,
     (getGlyphMutator glyphName decomposeComponents false (set_glyphMutators p cache)).1
     = (getGlyphMutator glyphName decomposeComponents false p).1) ∧
  (∀ built,
     (getGlyphMutator glyphName decomposeComponents false p).1 = Ok built →
     _glyphMutators (getGlyphMutator glyphName decomposeComponents false p).2 !! cacheKey
     = Some built) ∧
  (∀ built,
     _glyphMutators p !! cacheKey = None →
     (getGlyphMutator glyphName decomposeComponents true p).1 = Ok built →
     _glyphMutators (getGlyphMutator glyphName decomposeComponents true p).2 !! cacheKey
     = Some built) ∧
  (∀ fromCache built p',
     getGlyphMutator glyphName decomposeComponents fromCache p = (Ok built, p') →
     getGlyphMutator glyphName decomposeComponents true p' = (Ok built, p')) ∧
  (∀ fromCache items new model,
     fromCache = false ∨ _glyphMutators p !! cacheKey = None →
     collectMastersForGlyph p glyphName decomposeComponents = Ok items →
     mapM (λ item : gmap string AxisValue * MathGlyph * SourceInfo,
             b ← mathGlyphClass_again item.1.2; mret (item.1.1, b)) items = Ok new →
     getVariationModel new (defaultLoc p) p = (Ok (Some model), p) →
     getGlyphMutator glyphName decomposeComponents fromCache p =
       (Ok model.2,
        set_glyphMutators p (<[cacheKey := model.2]> (_glyphMutators p)))) ∧
  (∀ fromCache built p',
     fromCache = false ∨ _glyphMutators p !! cacheKey = None →
     getGlyphMutator glyphName decomposeComponents fromCache p = (Ok built, p') →
     ∃ items new model,
       collectMastersForGlyph p glyphName decomposeComponents = Ok items ∧
       mapM (λ item : gmap string AxisValue * MathGlyph * SourceInfo,
               b ← mathGlyphClass_again item.1.2; mret (item.1.1, b)) items = Ok new ∧
       getVariationModel new (defaultLoc p) p = (Ok (Some model), p) ∧
       built = model.2 ∧
       p' = set_glyphMutators p (<[cacheKey := built]> (_glyphMutators p))) ∧
  (getGlyphMutator glyphName decomposeComponents false p).1
  = (getGlyphMutator glyphName decomposeComponents true
       (set_glyphMutators p (delete cacheKey (_glyphMutators p)))).1.
Proof.
  intros cacheKey. subst cacheKey.
  split; [|split; [|split; [|split; [|split; [|split; [|split; [|split]]]]]]].
  - intros cached H. by apply getGlyphMutator_hit.
  - intros fromCache key Hkey. rewrite getGlyphMutator_run. simpl.
    destruct (_glyphMutators p !! (glyphName, decomposeComponents)), fromCache; simpl;
      try done;
      destruct (rebuilt p glyphName decomposeComponents) as [[[model|]|e] l]; simpl;
      try done; by rewrite lookup_insert_ne.
  - intros cache. rewrite !getGlyphMutator_run. simpl.
    assert (rebuilt (set_glyphMutators p cache) glyphName decomposeComponents
            = rebuilt p glyphName decomposeComponents) as -> by done.
    destruct (cache !! _), (_glyphMutators p !! _); simpl;
      by destruct (rebuilt p glyphName decomposeComponents) as [[[model|]|e] l].
  - intros built. rewrite getGlyphMutator_run. simpl.
    destruct (_glyphMutators p !! _); simpl;
      destruct (rebuilt p glyphName decomposeComponents) as [[[model|]|e] l]; simpl;
      try done; intros [= <-]; by rewrite lookup_insert_eq.
  - intros built Hnone. rewrite getGlyphMutator_run. simpl. rewrite Hnone.
    destruct (rebuilt p glyphName decomposeComponents) as [[[model|]|e] l]; simpl;
      try done; intros [= <-]; by rewrite lookup_insert_eq.
  - intros fromCache built p' Hcall. apply getGlyphMutator_hit.
    revert Hcall. rewrite getGlyphMutator_run. simpl.
    destruct (_glyphMutators p !! _) as [m|] eqn:Hm; [destruct fromCache|]; simpl;
      try (intros [= <- <-]; exact Hm);
      destruct (rebuilt p glyphName decomposeComponents) as [[[model|]|e] l]; simpl;
      try done; intros [= <- <-]; simpl; by rewrite lookup_insert_eq.
  - intros fromCache items new model. apply getGlyphMutator_builds.
  - intros fromCache built p'. apply getGlyphMutator_built.
  - rewrite !getGlyphMutator_run. simpl. rewrite lookup_delete_eq.
    assert (rebuilt (set_glyphMutators p
                       (delete (glyphName, decomposeComponents) (_glyphMutators p)))
                    glyphName decomposeComponents
            = rebuilt p glyphName decomposeComponents) as -> by done.
    destruct (_glyphMutators p !! _); simpl;
      by destruct (rebuilt p glyphName decomposeComponents) as [[[model|]|e] l].
Qed.

(** *** The two halves of an instance *)


(** *** The problems only grow *)

Lemma extends_log_refl (p : DesignSpaceProcessor) : extends_log p p.
Proof. exists []. by rewrite app_nil_r. Qed.

Lemma extends_log_trans (p1 p2 p3 : DesignSpaceProcessor) :
  extends_log p1 p2 → extends_log p2 p3 → extends_log p1 p3.
Proof. intros [l1 H1] [l2 H2]. exists (l1 ++ l2). by rewrite H2, H1, app_assoc. Qed.

Lemma extends_log_elem (p p' : DesignSpaceProcessor) (problem : Problem) :
  extends_log p p' → problem ∈ problems p → problem ∈ problems p'.
Proof. intros [l ->] H. apply elem_of_app. by left. Qed.

Lemma log_monotone_ret {A : Type} (a : A) : log_monotone (mret a).
Proof. intros p. apply extends_log_refl. Qed.

Lemma log_monotone_lift {A : Type} (r : res A) : log_monotone (lift r).
Proof. intros p. apply extends_log_refl. Qed.

Lemma log_monotone_self : log_monotone self.
Proof. intros p. apply extends_log_refl. Qed.

Lemma log_monotone_bind {A B : Type} (m : M A) (k : A → M B) :
  log_monotone m → (∀ a, log_monotone (k a)) → log_monotone (m ≫= k).
Proof.
  intros Hm Hk p. rewrite M_bind_run. specialize (Hm p).
  destruct (m p) as [[a|e] p1]; simpl in *; [|done].
  eapply extends_log_trans; [done|]. apply Hk.
Qed.

Lemma log_monotone_try_except {A : Type} (body : M A) (handler : exn → M A) :
  log_monotone body → (∀ e, log_monotone (handler e)) →
  log_monotone (try_except body handler).
Proof.
  intros Hm Hk p. unfold try_except. specialize (Hm p).
  destruct (body p) as [[a|e] p1]; simpl in *; [done|].
  eapply extends_log_trans; [done|]. apply Hk.
Qed.

Lemma log_monotone_try_except_only {A : Type} (E : exn) (body handler : M A) :
  log_monotone body → log_monotone handler →
  log_monotone (try_except_only E body handler).
Proof.
  intros Hm Hk p. unfold try_except_only. specialize (Hm p).
  destruct (body p) as [[a|e] p1]; simpl in *; [done|].
  destruct (decide (e = E)); [|done].
  eapply extends_log_trans; [done|]. apply Hk.
Qed.

Lemma log_monotone_problems_append (problem : Problem) :
  log_monotone (problems_append problem).
Proof. intros p. by exists [problem]. Qed.

Lemma log_monotone_update (f : DesignSpaceProcessor → DesignSpaceProcessor) :
  (∀ p, problems (f p) = problems p) → log_monotone (update f).
Proof. intros Hf p. exists []. simpl. by rewrite Hf, app_nil_r. Qed.

Lemma log_monotone_print (line : string) : log_monotone (print line).
Proof. by apply log_monotone_update. Qed.

Lemma log_monotone_for_each {A S : Type} (body : A → S → M S) (xs : list A) (s : S) :
  (∀ x s, log_monotone (body x s)) → log_monotone (for_each body xs s).
Proof.
  intros Hbody. revert s. induction xs as [|x xs IH]; intros s; simpl.
  - apply log_monotone_ret.
  - apply log_monotone_bind; [apply Hbody|]. intros s'. apply IH.
Qed.

Ltac log_step :=
  first
    [ apply log_monotone_ret
    | apply log_monotone_lift
    | apply log_monotone_self
    | apply log_monotone_problems_append
    | apply log_monotone_print
    | apply log_monotone_update; done
    | apply log_monotone_try_except_only
    | apply log_monotone_try_except; [|intros ?]
    | apply log_monotone_bind; [|intros ?]
    | match goal with
      | |- log_monotone (if ?b then _ else _) => destruct b
      | |- log_monotone (match ?x with _ => _ end) => destruct x
      end ].

Lemma log_monotone_getVariationModel {V : Type}
    (items : list (gmap string AxisValue * V)) (bias : gmap string AxisValue) :
  log_monotone (getVariationModel items bias).
Proof. unfold getVariationModel. repeat log_step. Qed.

Lemma log_monotone_getKerningMutator : log_monotone getKerningMutator.
Proof.
  unfold getKerningMutator.
  repeat (first [apply log_monotone_getVariationModel | log_step]).
Qed.

Lemma log_monotone_getGlyphMutator (glyphName : string) (dc fromCache : bool) :
  log_monotone (getGlyphMutator glyphName dc fromCache).
Proof.
  unfold getGlyphMutator.
  repeat (first [apply log_monotone_getVariationModel | log_step]).
Qed.

Lemma log_monotone_makeGlyph (instanceDescriptor : InstanceDescriptor)
    (glyphName : string) (font : Font) :
  log_monotone (makeGlyph instanceDescriptor glyphName font).
Proof.
  unfold makeGlyph.
  repeat (first [apply log_monotone_getVariationModel
                | apply log_monotone_getGlyphMutator | log_step]).
Qed.

Lemma log_monotone_makeKerning (instanceDescriptor : InstanceDescriptor)
    (locHorizontal : gmap string AxisValue) (font : Font) :
  log_monotone (makeKerning instanceDescriptor locHorizontal font).
Proof.
  unfold makeKerning.
  repeat (first [apply log_monotone_getKerningMutator | log_step]).
Qed.

(** *** What happens to [font.info] *)

Lemma copyFontInfo_other (p : DesignSpaceProcessor)
    (sourceInfo targetInfo : gmap string PyVal) (attribute : string) :
  attribute ∉ infoAttributes →
  _copyFontInfo p sourceInfo targetInfo !! attribute = targetInfo !! attribute.
Proof.
  unfold _copyFontInfo. generalize infoAttributes as attributes.
  intros attributes. revert targetInfo.
  induction attributes as [|a attributes IH]; intros targetInfo Hnot; simpl; [done|].
  apply not_elem_of_cons in Hnot as [Hne Hnot].
  rewrite IH by done.
  match goal with |- context [if ?b then _ else _] => destruct b end; [|done].
  by rewrite lookup_insert_ne.
Qed.

Lemma copyFromSource_info (p : DesignSpaceProcessor) (sd : SourceDescriptor)
    (font font' : Font) (attribute : string) :
  attribute ∉ infoAttributes →
  copyFromSource p sd font = Ok font' →
  info font' !! attribute = info font !! attribute.
Proof.
  intros Hnot. unfold copyFromSource. intros H.
  apply res_bind_Ok in H as (font1 & H1 & H).
  apply res_bind_Ok in H as (font2 & H2 & H).
  assert (info font1 !! attribute = info font !! attribute) as E1.
  { destruct (copyInfo sd); [|by injection H1 as <-].
    apply res_bind_Ok in H1 as (f & _ & H1).
    apply res_bind_Ok in H1 as (f' & _ & H1). injection H1 as <-. simpl.
    by apply copyFontInfo_other. }
  assert (info font2 = info font1) as E2.
  { destruct (copyLib sd); [|by injection H2 as <-].
    apply res_bind_Ok in H2 as (f & _ & H2).
    apply res_bind_Ok in H2 as (f' & _ & H2). by injection H2 as <-. }
  assert (info font' = info font2) as E3.
  { destruct (copyFeatures sd); [|by injection H as <-].
    apply res_bind_Ok in H as (f & _ & H).
    apply res_bind_Ok in H as (f' & _ & H).
    destruct (features f'); by injection H as <-. }
  by rewrite E3, E2.
Qed.

Lemma copyFromSources_info (p : DesignSpaceProcessor) (sds : list SourceDescriptor)
    (font font' : Font) (attribute : string) :
  attribute ∉ infoAttributes →
  foldl (λ (font : res Font) sourceDescriptor,
           font ← font; copyFromSource p sourceDescriptor font) (Ok font) sds = Ok font' →
  info font' !! attribute = info font !! attribute.
Proof.
  intros Hnot. revert font. induction sds as [|sd sds IH]; intros font; simpl.
  - by intros [= <-].
  - destruct (copyFromSource p sd font) as [font1|e] eqn:H1.
    + intros H. rewrite (IH font1 H). by eapply copyFromSource_info.
    + intros H. exfalso. clear -H. induction sds as [|sd' sds IH]; simpl in H; [done|].
      by apply IH.
Qed.

Lemma placeGlyph_info (p : DesignSpaceProcessor) (glyphName : string)
    (u : list Z) (o : MathGlyph) (font font' : Font) :
  placeGlyph p glyphName u o font = Ok font' → info font' = info font.
Proof.
  unfold placeGlyph. intros H.
  apply res_bind_Ok in H as (o' & _ & H).
  apply res_bind_Ok in H as (g & _ & H).
  apply res_bind_Ok in H as (g' & _ & H). by injection H as <-.
Qed.

(** The glyph that [placeGlyph] leaves under the name has the unicodes that
    the loop body chose for it. *)
Lemma placeGlyph_unicodes (p : DesignSpaceProcessor) (glyphName : string)
    (u : list Z) (o : MathGlyph) (font font' : Font) :
  placeGlyph p glyphName u o font = Ok font' →
  ∃ g, glyphs font' !! glyphName = Some g ∧ unicodes g = u.
Proof.
  unfold placeGlyph. intros H.
  apply res_bind_Ok in H as (o' & _ & H).
  apply res_bind_Ok in H as (g & _ & H).
  apply res_bind_Ok in H as (g' & _ & H). injection H as <-. simpl.
  rewrite lookup_insert_eq. eauto.
Qed.

Lemma makeGlyph_info (instanceDescriptor : InstanceDescriptor) (glyphName : string)
    (font font' : Font) (p p' : DesignSpaceProcessor) :
  makeGlyph instanceDescriptor glyphName font p = (Ok font', p') →
  info font' = info font.
Proof.
  unfold makeGlyph. rewrite M_bind_run. unfold self at 1. rewrite M_bind_run.
  destruct (try_except _ _ p) as [[[glyphMutator|]|e] p1]; [| |done].
  2:{ by intros [= <- _]. }
  destruct (get_or (data_mute _) false); [by intros [= <- _]|].
  rewrite M_bind_run. unfold lift at 1.
  assert (∀ (font0 : Font) (gm : option (Mutator MathGlyph)) loc u p2,
    info font0 = info font →
    (made ← try_except_only IndexError
               (glyphInstanceObject ← lift (interpolateGlyph gm loc);
                mret (Some glyphInstanceObject))
               (print ("Error making instance " +:+ glyphName);; mret None);
     match made with
     | None => mret font0
     | Some glyphInstanceObject =>
         lift (placeGlyph p glyphName u glyphInstanceObject font0)
     end) p2 = (Ok font', p') → info font' = info font) as Htail.
  { intros font0 gm loc u p2 H0. rewrite M_bind_run.
    unfold try_except_only, lift, mbind, M_bind, mret, M_ret, print, update. simpl.
    destruct (interpolateGlyph gm loc) as [o|e]; simpl.
    - intros [= H _]. apply placeGlyph_info in H. congruence.
    - destruct (decide (e = IndexError)); [|done]. intros [= <- _]. done. }
  destruct (data_note _) as [nt|].
  { destruct (bool_decide (nt ≠ "")); [done|].
    rewrite M_bind_run.
    match goal with |- context [match ?m p1 with _ => _ end] =>
      destruct (m p1) as [[gm|e] p2] end; [|done].
    by apply Htail. }
  rewrite M_bind_run.
  match goal with |- context [match ?m p1 with _ => _ end] =>
    destruct (m p1) as [[gm|e] p2] end; [|done].
  by apply Htail.
Qed.

Lemma for_each_makeGlyph_info (instanceDescriptor : InstanceDescriptor)
    (names : list string) (font font' : Font) (p p' : DesignSpaceProcessor) :
  for_each (makeGlyph instanceDescriptor) names font p = (Ok font', p') →
  info font' = info font.
Proof.
  revert font p. induction names as [|name names IH]; intros font p; simpl.
  - by intros [= <- _].
  - rewrite M_bind_run.
    destruct (makeGlyph instanceDescriptor name font p) as [[font1|e] p1] eqn:H1; [|done].
    intros H. apply IH in H. apply makeGlyph_info in H1. congruence.
Qed.

Lemma applyRules_info (p : DesignSpaceProcessor) (loc : gmap string AxisValue)
    (font : Font) :
  info (applyRules p loc font) = info font.
Proof.
  unfold applyRules.
  generalize (zip (glyphNames p) (processRules (rules p) loc (glyphNames p))).
  intros pairs. revert font.
  induction pairs as [|names pairs IH]; intros font; simpl; [done|].
  rewrite IH. destruct (bool_decide _); [|done].
  by destruct (swapGlyphNames_rest font names.1 names.2 defaultSwapNameExtension)
    as (_ & _ & -> & _).
Qed.

(** The [try] statement of the info either names the font, or leaves it as
    it was and notes the failure. *)
Lemma makeInfo_outcome (instanceDescriptor : InstanceDescriptor) (anisotropic : bool)
    (locHorizontal locVertical : gmap string AxisValue) (font : Font)
    (p : DesignSpaceProcessor) :
  let loc := instance_location instanceDescriptor in
  let outcome := makeInfo instanceDescriptor anisotropic locHorizontal locVertical font p in
  (∃ extracted, outcome.1 = Ok (set_info font (nameInfo instanceDescriptor extracted))) ∨
  (outcome.1 = Ok font ∧ ∃ e, FontinfoProblem loc e ∈ problems outcome.2).
Proof.
  intros loc outcome. subst outcome. unfold makeInfo, try_except.
  match goal with |- context [match ?m p with _ => _ end] =>
    destruct (m p) as [[font1|e] p1] eqn:Hbody end; simpl.
  - left. revert Hbody. rewrite M_bind_run.
    destruct (getInfoMutator p) as [[im|e] p0]; [|done].
    rewrite M_bind_run. unfold lift at 1. destruct (deref im) as [im'|e]; [|done].
    rewrite M_bind_run.
    match goal with |- context [match ?m p0 with _ => _ end] =>
      destruct (m p0) as [[o|e] p2] end; [|done].
    unfold lift, mbind, M_bind, mret, M_ret.
    destruct (extractInfo o (info font)) as [extracted|e]; [|done].
    intros [= <- _]. eauto.
  - right. split; [done|]. exists e. apply elem_of_app. right. by left.
Qed.

Lemma nameInfo_lookup (instanceDescriptor : InstanceDescriptor) (i : gmap string PyVal) :
  let named := nameInfo instanceDescriptor i in
  named !! "familyName" = Some (nameValue (familyName instanceDescriptor)) ∧
  named !! "styleName" = Some (nameValue (styleName instanceDescriptor)) ∧
  named !! "postScriptFontName" = Some (nameValue (postScriptFontName instanceDescriptor)) ∧
  named !! "styleMapFamilyName" = Some (nameValue (styleMapFamilyName instanceDescriptor)) ∧
  named !! "styleMapStyleName" = Some (nameValue (styleMapStyleName instanceDescriptor)).
Proof. unfold nameInfo. repeat split; by simplify_map_eq. Qed.

(** C8, as amended. When [makeInstance] returns a font and its problems have
    no entry for a failure of the info of this instance, the info of the
    font has the five names of the instance: they are assigned after the
    interpolation, inside the same [try], and nothing later in the method
    changes them. *)
Theorem makeInstance_names (instanceDescriptor : InstanceDescriptor) (doRules : bool)
    (glyphNames' : option (list string)) (p p' : DesignSpaceProcessor) (font : Font) :
  makeInstance instanceDescriptor doRules glyphNames' p = (Ok font, p') →
  (∀ e, FontinfoProblem (instance_location instanceDescriptor) e ∉ problems p') →
  info font !! "familyName" = Some (nameValue (familyName instanceDescriptor)) ∧
  info font !! "styleName" = Some (nameValue (styleName instanceDescriptor)) ∧
  info font !! "postScriptFontName"
    = Some (nameValue (postScriptFontName instanceDescriptor)) ∧
  info font !! "styleMapFamilyName"
    = Some (nameValue (styleMapFamilyName instanceDescriptor)) ∧
  info font !! "styleMapStyleName"
    = Some (nameValue (styleMapStyleName instanceDescriptor)).
Proof.
  intros Hrun Hlog.
  assert (∃ extracted, ∀ attribute, attribute ∈ namingAttributes →
            info font !! attribute
            = nameInfo instanceDescriptor extracted !! attribute) as [extracted Hnames].
  { revert Hrun. unfold makeInstance. rewrite M_bind_run. unfold self at 1.
    rewrite M_bind_run. unfold lift at 1.
    destruct (deref (default p)) as [defaultSource|e]; [|done].
    rewrite M_bind_run. unfold lift at 1.
    destruct (getitem (fonts p) (source_name defaultSource)) as [defaultFont|e]; [|done].
    rewrite M_bind_run.
    match goal with |- context [makeKerning ?i ?l ?f p] =>
      pose proof (log_monotone_makeKerning i l f p) as Hk;
      destruct (makeKerning i l f p) as [[font1|e] p1] end; [|done].
    rewrite M_bind_run.
    match goal with |- context [makeInfo ?i ?a ?h ?v font1 p1] =>
      pose proof (makeInfo_outcome i a h v font1 p1) as Hinfo;
      destruct (makeInfo i a h v font1 p1) as [[font2|e] p2] end; [|done].
    simpl in Hinfo.
    rewrite M_bind_run. unfold lift at 1.
    match goal with |- context [foldl ?f (Ok font2) (sources p)] =>
      destruct (foldl f (Ok font2) (sources p)) as [font3|e] eqn:Hcopy end; [|done].
    rewrite M_bind_run.
    match goal with |- context [for_each ?b ?l ?f p2] =>
      pose proof (log_monotone_for_each b l f
                    (log_monotone_makeGlyph instanceDescriptor) p2) as Hmono;
      destruct (for_each b l f p2) as [[font4|e] p3] eqn:Hglyphs end; [|done].
    simpl in Hmono. apply for_each_makeGlyph_info in Hglyphs.
    unfold mret, M_ret. intros [= <- <-].
    destruct Hinfo as [[extracted Hfont2]|[_ [e He]]].
    - injection Hfont2 as ->. exists extracted. intros attribute Hattr.
      assert (info (if doRules
                    then applyRules p (instance_location instanceDescriptor) font4
                    else font4) = info font4) as Hrules.
      { destruct doRules; [apply applyRules_info|done]. }
      simpl. rewrite Hrules, Hglyphs.
      transitivity (info font3 !! attribute); [by destruct (bool_decide _)|].
      apply (copyFromSources_info p (sources p) _ font3 attribute) in Hcopy;
        [|by apply namingAttributes_not_copied].
      by rewrite Hcopy.
    - exfalso. apply (Hlog e). by eapply extends_log_elem. }
  destruct (nameInfo_lookup instanceDescriptor extracted) as (N1 & N2 & N3 & N4 & N5).
  unfold namingAttributes in Hnames.
  rewrite !Hnames by (repeat first [by left | right]).
  done.
Qed.

(** [generateUFO] raises when the document has no default source. *)
Lemma generateUFO_no_default (processRules : bool) (p : DesignSpaceProcessor) :
  findDefault (sources p) (axes p) = None →
  _fontsLoaded p = true →
  generateUFO processRules p =
    (Raise (UFOProcessorError
              "Can't generate UFO from this designspace: no default font."),
     set_default p None).
Proof.
  intros Hnone Hloaded. unfold generateUFO, loadFonts.
  rewrite !M_bind_run. unfold self at 1. rewrite Hloaded. simpl.
  unfold mbind, M_bind, update, self, raise. simpl. by rewrite Hnone.
Qed.

End ProcessorProperties.

(** ** The definitions at work on the sample *)

(** Witness of C4: [a] and [b] of the light font are swapped. *)
Lemma swapGlyphNames_exchanges_witness :
  glyphs Sample.lightFont !! "a" = Some Sample.light_a ∧
  glyphs Sample.lightFont !! "b" = Some Sample.light_b ∧
  hasExtension defaultSwapNameExtension "a" = false ∧
  hasExtension defaultSwapNameExtension "b" = false ∧
  glyphs (swapGlyphNames Sample.lightFont "a" "b" defaultSwapNameExtension).2
    !! "a_______________swap" = None ∧
  kerning (swapGlyphNames Sample.lightFont "a" "b" defaultSwapNameExtension).2
    !! ("b", "a") = Some ((-20)#1)%Q.
Proof.
  assert (glyphs Sample.lightFont !! "a" = Some Sample.light_a) as H1
    by (vm_compute; reflexivity).
  assert (glyphs Sample.lightFont !! "b" = Some Sample.light_b) as H2
    by (vm_compute; reflexivity).
  assert (hasExtension defaultSwapNameExtension "a" = false) as H3 by reflexivity.
  assert (hasExtension defaultSwapNameExtension "b" = false) as H4 by reflexivity.
  destruct (swapGlyphNames_exchanges Sample.lightFont "a" "b" defaultSwapNameExtension
              Sample.light_a Sample.light_b H1 H2 H3 H4)
    as (_ & _ & _ & Hparking & _ & _ & Hkerning & _).
  split; [exact H1|]. split; [exact H2|]. split; [exact H3|]. split; [exact H4|].
  split; [exact Hparking|].
  rewrite Hkerning. vm_compute. reflexivity.
Defined.

(** Witness of C3 as amended: no name of the light font has the extension. *)
Lemma swapGlyphNames_twice_witness :
  is_Some (glyphs Sample.lightFont !! "a") ∧
  is_Some (glyphs Sample.lightFont !! "b") ∧
  parkingFree Sample.lightFont "a" defaultSwapNameExtension ∧
  (swapGlyphNames
     (swapGlyphNames Sample.lightFont "a" "b" defaultSwapNameExtension).2
     "a" "b" defaultSwapNameExtension).2 = Sample.lightFont.
Proof.
  assert (is_Some (glyphs Sample.lightFont !! "a")) as H1
    by (exists Sample.light_a; vm_compute; reflexivity).
  assert (is_Some (glyphs Sample.lightFont !! "b")) as H2
    by (exists Sample.light_b; vm_compute; reflexivity).
  assert (parkingFree Sample.lightFont "a" defaultSwapNameExtension) as H3.
  { unfold parkingFree. apply (bool_decide_unpack _). vm_compute. exact I. }
  split; [exact H1|]. split; [exact H2|]. split; [exact H3|].
  exact (swapGlyphNames_twice Sample.lightFont "a" "b" defaultSwapNameExtension
           H1 H2 H3).
Defined.

(** Counterexample to C3 as stated: a font with a glyph under the parking
    name of [a] loses that glyph in the first swap, and the second swap does
    not bring it back; and in a font where a component of [c] refers to the
    parking name, the component refers to [a] after the two swaps. *)
Lemma swapGlyphNames_twice_counterexample :
  (inFont "a" Sample.parkedFont = true ∧
   inFont "b" Sample.parkedFont = true ∧
   (swapGlyphNames
      (swapGlyphNames Sample.parkedFont "a" "b" defaultSwapNameExtension).2
      "a" "b" defaultSwapNameExtension).2 ≠ Sample.parkedFont) ∧
  (inFont "a" Sample.danglingFont = true ∧
   inFont "b" Sample.danglingFont = true ∧
   (swapGlyphNames
      (swapGlyphNames Sample.danglingFont "a" "b" defaultSwapNameExtension).2
      "a" "b" defaultSwapNameExtension).2 ≠ Sample.danglingFont).
Proof.
  split.
  - split; [vm_compute; reflexivity|]. split; [vm_compute; reflexivity|].
    intros H.
    apply (f_equal (λ f, glyphs f !! "a_______________swap")) in H.
    vm_compute in H. discriminate H.
  - split; [vm_compute; reflexivity|]. split; [vm_compute; reflexivity|].
    intros H.
    apply (f_equal (λ f, components <$> glyphs f !! "c")) in H.
    vm_compute in H. discriminate H.
Qed.

(** Witness of C10: the light font has no glyph [z]. *)
Lemma swapGlyphNames_absent_witness :
  (inFont "a" Sample.lightFont = false ∨ inFont "z" Sample.lightFont = false) ∧
  swapGlyphNames Sample.lightFont "a" "z" defaultSwapNameExtension
  = (tt, Sample.lightFont).
Proof.
  assert (inFont "a" Sample.lightFont = false ∨ inFont "z" Sample.lightFont = false)
    as H by (right; vm_compute; reflexivity).
  split; [exact H|].
  exact (swapGlyphNames_absent Sample.lightFont "a" "z" defaultSwapNameExtension H).
Defined.

(** Witness of C6: a location with a pair on one axis and a number on
    another. *)
Lemma splitAnisotropic_halves_witness :
  let location : gmap string AxisValue :=
    {[ "weight" := Pair (0#1) (1000#1); "width" := Scalar (5#1) ]} in
  nonDegenerate location ∧
  (splitAnisotropic location).1 !! "weight" = Some (Scalar (0#1)) ∧
  (splitAnisotropic location).2 !! "weight" = Some (Scalar (1000#1)) ∧
  combine (splitAnisotropic location).1 (splitAnisotropic location).2 = location ∧
  isAnisotropic location = true.
Proof.
  intros location.
  assert (nonDegenerate location) as Hnd.
  { intros dim x y H. subst location.
    destruct (decide (dim = "weight")) as [->|Hne].
    - rewrite lookup_insert_eq in H. by injection H as <- <-.
    - rewrite lookup_insert_ne in H by done.
      apply lookup_singleton_Some in H as [_ H]. discriminate H. }
  destruct (splitAnisotropic_halves location) as (Hpair & _ & _ & Hround & Haniso).
  assert (location !! "weight" = Some (Pair (0#1) (1000#1))) as Hw
    by (vm_compute; reflexivity).
  split; [exact Hnd|].
  split; [exact (proj1 (Hpair "weight" _ _ Hw))|].
  split; [exact (proj2 (Hpair "weight" _ _ Hw))|].
  split; [exact (Hround Hnd)|].
  apply Haniso. eauto.
Defined.

(** Witness of C7: for [c], the bold source mutes the glyph and the layer of
    the sparse source lacks it; the light source alone gives an item. *)
Lemma collectMastersForGlyph_excludes_witness :
  ∃ items,
    collectMastersForGlyph Sample.processor "c" false = Ok items ∧
    (λ item : gmap string AxisValue * MathGlyph * SourceInfo,
       (item.1.1, info_sourceName item.2)) <$> items
    = [(Sample.at_weight (Scalar (0#1)), "light")].
Proof.
  destruct (collectMastersForGlyph_excludes Sample.processor "c" false)
    as [Hitems Htotal].
  destruct Htotal as [items Hok].
  - intros sd Hsd.
    repeat (apply elem_of_cons in Hsd as [->|Hsd];
            [eexists; vm_compute; reflexivity|]).
    by apply elem_of_nil in Hsd.
  - intros g. by exists g.
  - exists items. split; [exact Hok|].
    rewrite (Hitems items Hok). vm_compute. reflexivity.
Defined.

(** The model that the back-end of the sample builds from masters it can
    build from. *)
Lemma sample_getVariationModel {V : Type} (items : list (gmap string AxisValue * V))
    (bias : gmap string AxisValue) (p : DesignSpaceProcessor) :
  useVarlib p = false → Sample.constructible items = true →
  getVariationModel items bias p
  = (Ok (Some (bias, Some (Sample.mastersOnly items bias))), p).
Proof.
  intros Hv Hc. rewrite getVariationModel_run, Hv. simpl. by rewrite Hc.
Qed.

(** Witness of C5: the mutator of [a] is cached for the glyph as it is; a
    request for the decomposed glyph builds an entry of its own; and a call
    without [fromCache] builds the mutator again from the three sources and
    puts it in the place of the cached one, which was built from two: at the
    location of the third source the two mutators differ. *)
Lemma getGlyphMutator_cache_witness :
  _glyphMutators Sample.cachedProcessor !! ("a", false)
    = Some (Some Sample.glyphMutator_a) ∧
  getGlyphMutator "a" false true Sample.cachedProcessor
    = (Ok (Some Sample.glyphMutator_a), Sample.cachedProcessor) ∧
  _glyphMutators (getGlyphMutator "a" true false Sample.cachedProcessor).2
    !! ("a", false) = Some (Some Sample.glyphMutator_a) ∧
  is_Some (_glyphMutators (getGlyphMutator "a" true false Sample.cachedProcessor).2
             !! ("a", true)) ∧
  getGlyphMutator "a" false false Sample.cachedProcessor
    = (Ok (Some Sample.rebuiltMutator_a),
       set_glyphMutators Sample.cachedProcessor
         (<[("a", false) := Some Sample.rebuiltMutator_a]>
            (_glyphMutators Sample.cachedProcessor))) ∧
  mutator_makeInstance Sample.glyphMutator_a (Sample.at_weight (Scalar (500#1)))
    = Raise IndexError ∧
  mutator_makeInstance Sample.rebuiltMutator_a (Sample.at_weight (Scalar (500#1)))
    = Ok Sample.bold_a.
Proof.
  assert (_glyphMutators Sample.cachedProcessor !! ("a", false)
          = Some (Some Sample.glyphMutator_a)) as Hcached
    by apply lookup_singleton_eq.
  destruct (getGlyphMutator_cache "a" false Sample.cachedProcessor)
    as (Hhit & _ & _ & _ & _ & _ & Hbuilds & _).
  destruct (getGlyphMutator_cache "a" true Sample.cachedProcessor)
    as (_ & Hother & _ & Hbuilt & _).
  split; [exact Hcached|].
  split; [exact (Hhit _ Hcached)|].
  split; [|split; [|split; [|split]]].
  - etransitivity; [apply (Hother false ("a", false)); discriminate|exact Hcached].
  - assert (match (getGlyphMutator "a" true false Sample.cachedProcessor).1 with
            | Ok _ => true
            | Raise _ => false
            end = true) as Hok by (vm_compute; reflexivity).
    destruct ((getGlyphMutator "a" true false Sample.cachedProcessor).1)
      as [built|e] eqn:E; [|discriminate Hok].
    exists built. apply Hbuilt. reflexivity.
  - apply (Hbuilds false
             [(Sample.at_weight (Scalar (0#1)), Sample.light_a,
               mkSourceInfo (Some "Light.ufo") "a" "foreground"
                 (Sample.at_weight (Scalar (0#1))) "light");
              (Sample.at_weight (Scalar (1000#1)), Sample.bold_a,
               mkSourceInfo (Some "Bold.ufo") "a" "foreground"
                 (Sample.at_weight (Scalar (1000#1))) "bold");
              (Sample.at_weight (Scalar (500#1)), Sample.bold_a,
               mkSourceInfo (Some "Bold.ufo") "a" "support"
                 (Sample.at_weight (Scalar (500#1))) "sparse")]
             Sample.masters_a
             (Sample.at_weight (Scalar (0#1)), Some Sample.rebuiltMutator_a)).
    + by left.
    + vm_compute. reflexivity.
    + vm_compute. reflexivity.
    + apply (sample_getVariationModel Sample.masters_a); [reflexivity|].
      vm_compute. reflexivity.
  - vm_compute. reflexivity.
  - vm_compute. reflexivity.
Defined.


(** Witness of C8 as amended: at the light master the info is made without
    a problem and the font bears the names of the instance. *)
Lemma makeInstance_names_witness :
  ∃ font p',
    makeInstance Sample.plainInstance false None Sample.processor = (Ok font, p') ∧
    (∀ e, FontinfoProblem (instance_location Sample.plainInstance) e ∉ problems p') ∧
    info font !! "familyName" = Some (VStr "Sample") ∧
    info font !! "styleMapStyleName" = Some VNone.
Proof.
  destruct (makeInstance Sample.plainInstance false None Sample.processor)
    as [[font|e] p'] eqn:E.
  - assert (problems p' = []) as Hlog.
    { change p' with (Ok font, p').2. rewrite <- E. vm_compute. reflexivity. }
    assert (∀ e, FontinfoProblem (instance_location Sample.plainInstance) e
                 ∉ problems p') as Hnone.
    { intros e. rewrite Hlog. apply not_elem_of_nil. }
    destruct (makeInstance_names Sample.plainInstance false None Sample.processor
                p' font E Hnone) as (N1 & _ & _ & _ & N5).
    exists font, p'. split; [reflexivity|]. split; [exact Hnone|].
    split; [exact N1|exact N5].
  - exfalso.
    assert ((makeInstance Sample.plainInstance false None Sample.processor).1
            = Raise e) as H by (by rewrite E).
    vm_compute in H. discriminate H.
Defined.

(** Counterexample to C8 as stated: the two sources of the document sit at
    one location, so that no model can be built and the info of the instance
    cannot be interpolated; [makeInstance] notes the problem and returns a
    font whose info has none of the names of the instance. *)
Lemma makeInstance_names_counterexample :
  familyName Sample.plainInstance = Some "Sample" ∧
  ∃ font,
    (makeInstance Sample.plainInstance false None Sample.doubledProcessor).1
      = Ok font ∧
    FontinfoProblem (instance_location Sample.plainInstance) TypeError
      ∈ problems (makeInstance Sample.plainInstance false None
                    Sample.doubledProcessor).2 ∧
    info font !! "familyName" = None ∧
    info font !! "styleName" = None ∧
    info font !! "postScriptFontName" = None ∧
    info font !! "styleMapFamilyName" = None ∧
    info font !! "styleMapStyleName" = None.
Proof.
  split; [reflexivity|].
  eexists. split; [vm_compute; reflexivity|].
  split.
  - apply (list_elem_of_lookup_2 _ 3). vm_compute. reflexivity.
  - repeat split; vm_compute; reflexivity.
Qed.

(** C2, where the code departs from the claim. The light and the bold [b]
    do not have the same number of contours, so that the two halves of [b] do
    not add up and the evaluation raises IndexError. [makeInstance] catches
    it, prints a line and goes on to the next glyph: the problems get no
    entry for it, and [generateUFO] returns normally with the only entry
    that the instance was generated. A failure of another kind in the same
    place, here a private master in a font that is not loaded, is not caught
    at all and ends [makeInstance] and [generateUFO]. *)
Theorem glyph_failure_not_logged :
  let run := makeInstance Sample.wideInstance false (Some ["a"; "b"]) Sample.processor in
  let build := generateUFO false Sample.processor in
  (∃ font g, run.1 = Ok font ∧ glyphs font !! "b" = Some g ∧ contours g = []) ∧
  problems run.2 = [] ∧
  stdout run.2 = ["Error making instance b"] ∧
  build.1 = Ok true ∧
  problems build.2 = [Generated "Instance.ufo" 3] ∧
  stdout build.2 = ["Error making instance b"; "Error making instance c"] ∧
  (makeInstance Sample.strayInstance false None Sample.processor).1 = Raise TypeError ∧
  (generateUFO false (Sample.processorFor [Sample.strayInstance])).1 = Raise TypeError.
Proof.
  intros run build. subst run build.
  split.
  { eexists. eexists. split; [vm_compute; reflexivity|].
    split; vm_compute; reflexivity. }
  repeat split; vm_compute; reflexivity.
Qed.

(** C9, where the code departs from the claim. The unicodes of a glyph are
    those of the neutral master, or those that the instance gives for the
    glyph. A note that the instance gives for the glyph is assigned to
    [font[glyphName]] itself and not to the note of the glyph: the font
    refuses the assignment, [makeInstance] ends with a TypeError, and no
    glyph ever gets the note. *)
Theorem note_assignment_raises :
  (∃ font g,
     (makeInstance Sample.plainInstance false None Sample.processor).1 = Ok font ∧
     glyphs font !! "a" = Some g ∧ unicodes g = [97%Z] ∧ note g = None) ∧
  (∃ font g,
     (makeInstance Sample.recodedInstance false None Sample.processor).1 = Ok font ∧
     glyphs font !! "a" = Some g ∧ unicodes g = [65%Z; 97%Z]) ∧
  data_note <$> instance_glyphs Sample.notedInstance !! "a"
    = Some (Some "drawn by hand") ∧
  (makeInstance Sample.notedInstance false None Sample.processor).1 = Raise TypeError.
Proof.
  split.
  { eexists. eexists. split; [vm_compute; reflexivity|].
    split; [vm_compute; reflexivity|]. split; vm_compute; reflexivity. }
  split.
  { eexists. eexists. split; [vm_compute; reflexivity|].
    split; vm_compute; reflexivity. }
  split; vm_compute; reflexivity.
Qed.

(** * Further properties of the code *)

(** ** More on swapGlyphNames *)

Lemma copyOutline_is_Some (src dst : string) (gs : gmap string Glyph) (n : string) :
  is_Some (copyOutline src dst gs !! n) ↔ is_Some (gs !! n).
Proof.
  unfold copyOutline.
  assert (is_Some (alter clear dst gs !! n) ↔ is_Some (gs !! n)) as Halter.
  { rewrite lookup_alter. case_decide; [subst|done].
    by rewrite fmap_is_Some. }
  destruct (alter clear dst gs !! src) as [s|]; [|done].
  destruct (alter clear dst gs !! dst) as [d|] eqn:Hd; [|done].
  rewrite <- Halter.
  destruct (decide (dst = n)) as [<-|Hne].
  - rewrite lookup_insert_eq, Hd. split; eauto.
  - by rewrite lookup_insert_ne.
Qed.

Lemma exchangeName_same (name n : string) : exchangeName name name n = n.
Proof. unfold exchangeName. repeat case_decide; congruence. Qed.

(** X1. When both names are in the font, [swapGlyphNames] leaves the font
    with the glyphs of before whose name does not contain the extension, and
    no others: every glyph that bears the extension is deleted, whether the
    call parked it or not. Every group keeps its name and its number of
    members, and path, layers, info, lib and features are as before. *)
Theorem swapGlyphNames_glyph_names (font : Font) (oldName newName ext : string) :
  inFont oldName font = true → inFont newName font = true →
  let font' := (swapGlyphNames font oldName newName ext).2 in
  (∀ name, is_Some (glyphs font' !! name) ↔
           is_Some (glyphs font !! name) ∧ hasExtension ext name = false) ∧
  (∀ groupName, length <$> groups font' !! groupName
                = length <$> groups font !! groupName) ∧
  path font' = path font ∧ layers font' = layers font ∧ info font' = info font ∧
  lib font' = lib font ∧ features font' = features font.
Proof.
  intros HA HB font'. split; [|split].
  - intros name. subst font'. unfold swapGlyphNames. rewrite HA, HB. simpl.
    rewrite map_lookup_filter. rewrite !remapComponents_lookup.
    rewrite <- !option_fmap_compose.
    set (gs := copyOutline _ _ _).
    assert (is_Some (gs !! name) ↔
            is_Some (glyphs font !! name) ∨ name = oldName +:+ ext) as Hdom.
    { subst gs. rewrite !copyOutline_is_Some.
      destruct (inFont (oldName +:+ ext) font) eqn:Hp; simpl.
      - apply inFont_true in Hp. split; [eauto|]. by intros [?| ->].
      - unfold newGlyph. rewrite lookup_insert_is_Some.
        split.
        + intros [<-|[_ ?]]; eauto.
        + intros [?| ->]; [|by left].
          destruct (decide (oldName +:+ ext = name)); [by left|by right]. }
    destruct (gs !! name) as [g|] eqn:Hg; simpl.
    + destruct (hasExtension ext name) eqn:He.
      * rewrite option_guard_False by (simpl; congruence). simpl.
        split; [by intros [? ?]|]. by intros [_ ?].
      * rewrite option_guard_True by done. simpl.
        split; [|eauto]. intros _. split; [|done].
        destruct Hdom as [Hdom _]. destruct Hdom as [?| ->]; [eauto|done|].
        by rewrite hasExtension_parking in He.
    + split; [by intros [? ?]|]. intros [Hn He].
      destruct Hdom as [_ Hdom]. destruct Hdom as [? ?]; [by left|done].
  - intros groupName. subst font'. rewrite swapGlyphNames_groups by done.
    rewrite lookup_fmap. destruct (groups font !! groupName); simpl; [|done].
    by rewrite length_fmap.
  - destruct (swapGlyphNames_rest font oldName newName ext) as (H1 & H2 & H3 & H4 & H5 & _).
    done.
Qed.

(** X2. Swapping a glyph with itself changes nothing, in a font where no
    glyph name contains the extension and no component refers to the parking
    name: the outline goes to the parking glyph and comes back, and the
    parking glyph is deleted. *)
Theorem swapGlyphNames_self (font : Font) (name ext : string) :
  inFont name font = true → parkingFree font name ext →
  swapGlyphNames font name name ext = (tt, font).
Proof.
  intros HA Hfree.
  pose proof HA as [g Hg]%inFont_true.
  assert (hasExtension ext name = false) as He by (by destruct (Hfree name g Hg)).
  rewrite (surjective_pairing (swapGlyphNames font name name ext)).
  f_equal; [by destruct (swapGlyphNames font name name ext).1|].
  assert (glyphs (swapGlyphNames font name name ext).2 = glyphs font) as Hglyphs.
  { apply map_eq. intros n.
    rewrite (swapGlyphNames_glyphs_lookup font name name ext g g) by done.
    rewrite (exchanged_lookup name name _ g g) by done.
    destruct (hasExtension ext n) eqn:Hn.
    - destruct (glyphs font !! n) as [h|] eqn:Hh; [|done].
      destruct (Hfree n h Hh). congruence.
    - assert (∀ h, glyphs font !! n = Some h →
                   remapped name name (name +:+ ext) h = h) as Hid.
      { intros h Hh. destruct (Hfree n h Hh) as [_ Hcs].
        unfold remapped, set_components. destruct h as [cs ks w u nt]. simpl in *.
        f_equal. clear Hh. induction Hcs as [|c ks Hc Hcs IH]; simpl; [done|].
        f_equal; [|done]. unfold threePasses, renameBase.
        destruct c as [b t]. simpl in *.
        repeat (case_decide; simpl in *; subst); congruence. }
      case_decide as Hnn.
      + subst n. assert (takeOutline g g = g) as -> by (by destruct g).
        simpl. rewrite Hg. f_equal. by apply Hid.
      + destruct (glyphs font !! n) as [h|] eqn:Hh; simpl; [|done].
        f_equal. by apply Hid. }
  assert (kerning (swapGlyphNames font name name ext).2 = kerning font) as Hkerning.
  { apply map_eq. intros k. rewrite swapGlyphNames_kerning by done.
    rewrite !exchangeName_same. by destruct k. }
  assert (groups (swapGlyphNames font name name ext).2 = groups font) as Hgroups.
  { rewrite swapGlyphNames_groups by done. apply map_eq. intros k.
    rewrite lookup_fmap. destruct (groups font !! k) as [members|]; simpl; [|done].
    f_equal. induction members as [|m members IH]; simpl; [done|].
    f_equal; [apply exchangeName_same|exact IH]. }
  destruct (swapGlyphNames_rest font name name ext) as (H1 & H2 & H3 & H4 & H5 & H6).
  destruct (swapGlyphNames font name name ext).2, font. simpl in *. congruence.
Qed.

(** ** More on locations *)

Lemma isAnisotropic_false (location : gmap string AxisValue) :
  isAnisotropic location = false ↔ ∀ dim v, location !! dim = Some v → isTuple v = false.
Proof.
  split.
  - intros H dim [s|x y] Hv; [done|].
    assert (isAnisotropic location = true) by (apply isAnisotropic_spec; eauto).
    congruence.
  - intros H. apply not_true_is_false. intros (dim & x & y & Hv)%isAnisotropic_spec.
    by apply H in Hv.
Qed.

(** X3. [splitAnisotropic] gives an isotropic location back twice, so the
    two branches on [isAnisotropic] in [makeInstance] agree with each other;
    and neither half of any location is anisotropic, so a half splits into
    itself. *)
Theorem splitAnisotropic_isotropic (location : gmap string AxisValue) :
  (isAnisotropic location = false → splitAnisotropic location = (location, location)) ∧
  isAnisotropic (splitAnisotropic location).1 = false ∧
  isAnisotropic (splitAnisotropic location).2 = false.
Proof.
  assert (∀ l, isAnisotropic l = false → splitAnisotropic l = (l, l)) as Hiso.
  { intros l H. rewrite (surjective_pairing (splitAnisotropic l)).
    f_equal; apply map_eq; intros dim;
      destruct (splitAnisotropic_lookup l dim) as [H1 H2]; rewrite ?H1, ?H2;
      destruct (l !! dim) as [[s|x y]|] eqn:Hv; simpl; try done;
      by apply (proj1 (isAnisotropic_false l) H) in Hv. }
  split; [apply Hiso|].
  split; apply isAnisotropic_false; intros dim v Hv;
    destruct (splitAnisotropic_lookup location dim) as [H1 H2];
    rewrite ?H1, ?H2 in Hv; destruct (location !! dim) as [[s|x y]|]; by simplify_eq/=.
Qed.

Lemma mapM_res_Raise {A B : Type} (f : A → res B) (l : list A) (e : exn) :
  mapM f l = Raise e → ∃ x, x ∈ l ∧ f x = Raise e.
Proof.
  induction l as [|x l IH]; simpl; [done|].
  destruct (f x) as [y|e'] eqn:Hx; simpl.
  - destruct (mapM f l) as [k|e'']; simpl; [done|].
    intros [= ->]. destruct IH as (x' & Hin & Hx'); [done|].
    exists x'. split; [by right|done].
  - intros [= ->]. exists x. split; [by left|done].
Qed.

Lemma mapM_res_not_Ok {A B : Type} (f : A → res B) (l : list A) (x : A) :
  x ∈ l → (∀ y, f x ≠ Ok y) → ∀ ys, mapM f l ≠ Ok ys.
Proof.
  intros Hin Hx ys H. apply mapM_res_Ok in H.
  apply list_elem_of_lookup in Hin as [i Hi].
  destruct (Forall2_lookup_l _ _ _ _ _ H Hi) as (y & _ & Hy). by apply Hx in Hy.
Qed.

Lemma mapM_concat_filter {A B C : Type} (f : A → res (list B)) (P : A → Prop)
    `{∀ x, Decision (P x)} (l : list A) (k : list B → res C) :
  (∀ x, ¬ P x → f x = Ok []) →
  (nested ← mapM f l; k (concat nested)) =
  (nested ← mapM f (filter P l); k (concat nested)).
Proof.
  intros Hf. revert k. induction l as [|x l IH]; intros k; [done|].
  rewrite filter_cons. destruct (decide (P x)) as [HP|HP]; simpl.
  - destruct (f x) as [y|e]; simpl; [|done].
    specialize (IH (λ c, k (y ++ c))). simpl in IH.
    destruct (mapM f l) as [n|e], (mapM f (filter P l)) as [n'|e']; simpl in *; done.
  - rewrite (Hf x HP). simpl. specialize (IH k).
    destruct (mapM f l) as [n|e], (mapM f (filter P l)) as [n'|e']; simpl in *; done.
Qed.

Section DecomposeProperties.
Context {FM : FontMath} {VB : VariationBackends} {DSL : DesignSpaceLib}
        {UL : UfoLib} {PP : PointPens}.

(** [decompose] raises nothing but the error of the recursion limit. *)
Lemma decompose_raises (depth : nat) (glyphSet : gmap string Glyph)
    (through : option Transformation) (glyph : Glyph) (e : exn) :
  decompose depth glyphSet through glyph = Raise e → e = RuntimeError.
Proof.
  revert through glyph. induction depth as [|depth IH]; intros through glyph; simpl.
  - by intros [= <-].
  - match goal with |- context [mapM ?f ?l] => destruct (mapM f l) as [nested|e'] eqn:Hm end;
      simpl; [done|].
    intros [= ->]. apply mapM_res_Raise in Hm as (c & _ & Hc).
    destruct (glyphSet !! baseGlyph c) as [base|]; [|done].
    destruct (isDefaultTransformation _); by apply IH in Hc.
Qed.

(** A result of [decompose] does not depend on the recursion limit that was
    enough for it. *)
Lemma decompose_fuel (depth : nat) (glyphSet : gmap string Glyph)
    (through : option Transformation) (glyph : Glyph) (drawn : list Contour) :
  decompose depth glyphSet through glyph = Ok drawn →
  ∀ depth', depth ≤ depth' → decompose depth' glyphSet through glyph = Ok drawn.
Proof.
  revert through glyph drawn.
  induction depth as [|depth IH]; intros through glyph drawn; simpl; [done|].
  intros H [|depth'] Hle; [lia|]. simpl.
  apply res_bind_Ok in H as (nested & Hm & H).
  apply res_bind_Ok. exists nested. split; [|done].
  apply mapM_res_Ok. apply mapM_res_Ok in Hm.
  eapply Forall2_impl; [exact Hm|]. simpl. intros c cs Hc.
  destruct (glyphSet !! baseGlyph c) as [base|]; [|done].
  destruct (isDefaultTransformation _); apply (IH _ _ _ Hc); lia.
Qed.

(** X4. Where the components of a glyph lead to glyphs of lower rank only,
    [DecomposePointPen] draws the glyph: there is a result, the same at every
    recursion limit above the rank of the glyph. *)
Theorem decompose_returns (glyphSet : gmap string Glyph) (reached : Glyph → Prop)
    (rank : Glyph → nat) (through : option Transformation) (glyph : Glyph) :
  (∀ g c base, reached g → c ∈ components g → glyphSet !! baseGlyph c = Some base →
               reached base ∧ rank base < rank g) →
  reached glyph →
  ∃ drawn, ∀ depth, rank glyph < depth →
    decompose depth glyphSet through glyph = Ok drawn.
Proof.
  intros Hrank Hreached.
  assert (∀ n g t, reached g → rank g < n → ∃ drawn, decompose n glyphSet t g = Ok drawn)
    as Hsome.
  { clear glyph through Hreached.
    induction n as [|n IH]; intros g t Hg Hn; [lia|]. simpl.
    match goal with |- context [mapM ?f _] => set (F := f) end.
    assert (∀ ks, (∀ c, c ∈ ks → c ∈ components g) → ∃ nested, mapM F ks = Ok nested)
      as Hks.
    { induction ks as [|c ks IHks]; intros Hin; simpl; [eauto|].
      destruct IHks as [nested Hnested]; [intros c' Hc'; apply Hin; by right|].
      rewrite Hnested.
      assert (c ∈ components g) as Hc by (apply Hin; by left).
      subst F. simpl.
      destruct (glyphSet !! baseGlyph c) as [base|] eqn:Hbase; simpl; [|eauto].
      destruct (Hrank g c base Hg Hc Hbase) as [Hb Hlt].
      destruct (isDefaultTransformation _).
      - destruct (IH base None Hb) as [drawn ->]; [lia|]. simpl. eauto.
      - match goal with |- context [decompose n glyphSet (Some ?t') base] =>
          destruct (IH base (Some t') Hb) as [drawn ->]; [lia|] end. simpl. eauto. }
    destruct (Hks (components g)) as [nested Hnested]; [done|].
    rewrite Hnested. simpl. eauto. }
  destruct (Hsome (S (rank glyph)) glyph through Hreached) as [drawn Hdrawn]; [lia|].
  exists drawn. intros depth Hdepth. apply (decompose_fuel _ _ _ _ _ Hdrawn). lia.
Qed.

(** X5. Where components can be followed for ever, as from a glyph with a
    component that refers to the glyph itself, [DecomposePointPen] never
    draws the glyph: whatever the recursion limit, the outcome is the error
    of the limit. *)
Theorem decompose_cycle (glyphSet : gmap string Glyph) (cyclic : Glyph → Prop)
    (through : option Transformation) (glyph : Glyph) (depth : nat) :
  (∀ g, cyclic g → ∃ c base, c ∈ components g ∧
                             glyphSet !! baseGlyph c = Some base ∧ cyclic base) →
  cyclic glyph →
  decompose depth glyphSet through glyph = Raise RuntimeError.
Proof.
  intros Hcyclic. revert through glyph.
  assert (∀ n t g, cyclic g → ∀ drawn, decompose n glyphSet t g ≠ Ok drawn) as Hnot.
  { induction n as [|n IH]; intros t g Hg drawn; simpl; [done|].
    destruct (Hcyclic g Hg) as (c & base & Hc & Hbase & Hb).
    intros H. apply res_bind_Ok in H as (nested & Hm & _).
    revert Hm. apply mapM_res_not_Ok with (x := c); [done|].
    simpl. rewrite Hbase. intros y. destruct (isDefaultTransformation _); by apply IH. }
  intros through glyph Hg.
  destruct (decompose depth glyphSet through glyph) as [drawn|e] eqn:H.
  - by apply Hnot in H.
  - by apply decompose_raises in H as ->.
Qed.

(** X6. A component whose base glyph is not in the glyph set draws nothing
    and is no error: the glyph decomposes as it does without such
    components, and to its own contours when no base glyph is there. *)
Theorem decompose_missing_base (depth : nat) (glyphSet : gmap string Glyph)
    (through : option Transformation) (glyph : Glyph) :
  decompose depth glyphSet through glyph =
  decompose depth glyphSet through
    (set_components glyph
       (filter (λ c, is_Some (glyphSet !! baseGlyph c)) (components glyph))) ∧
  ((∀ c, c ∈ components glyph → glyphSet !! baseGlyph c = None) →
   decompose (S depth) glyphSet through glyph =
   Ok (match through with
       | None => contours glyph
       | Some t => transformContour t <$> contours glyph
       end)).
Proof.
  assert (∀ d, decompose d glyphSet through glyph =
          decompose d glyphSet through
            (set_components glyph
               (filter (λ c, is_Some (glyphSet !! baseGlyph c)) (components glyph))))
    as Hfilter.
  { intros [|d]; simpl; [done|].
    apply (mapM_concat_filter _ (λ c, is_Some (glyphSet !! baseGlyph c)) _
             (λ drawn, Ok (match through with
                           | Some t => transformContour t <$> contours glyph
                           | None => contours glyph
                           end ++ drawn))).
    intros c Hc. destruct (glyphSet !! baseGlyph c); [|done].
    exfalso. apply Hc. eauto. }
  split; [apply Hfilter|].
  intros Hnone. rewrite Hfilter.
  assert (∀ ks, (∀ c, c ∈ ks → glyphSet !! baseGlyph c = None) →
                filter (λ c, is_Some (glyphSet !! baseGlyph c)) ks = []) as Hnil.
  { induction ks as [|c ks IH]; intros Hks; [done|].
    rewrite filter_cons, decide_False.
    - apply IH. intros c' Hc'. apply Hks. by right.
    - rewrite (Hks c) by (by left). by intros [? ?]. }
  rewrite (Hnil _ Hnone). simpl. by rewrite app_nil_r.
Qed.

End DecomposeProperties.

Section CopyFontInfoProperties.
Context {FM : FontMath} {VB : VariationBackends} {DSL : DesignSpaceLib}
        {UL : UfoLib} {PP : PointPens}.

(** X7. After [_copyFontInfo] an attribute of the target is the attribute of
    the source, [None] where the source never set it, when it is one of the
    listed attributes and in ufoLib's list for the format version of the
    processor; any other attribute is as the target had it, and for a
    version other than 1, 2 and 3 nothing is copied. Copying twice is
    copying once. *)
Theorem _copyFontInfo_lookup (p : DesignSpaceProcessor)
    (sourceInfo targetInfo : gmap string PyVal) :
  (∀ attribute,
     _copyFontInfo p sourceInfo targetInfo !! attribute =
     if bool_decide (attribute ∈ infoAttributes)
        && bool_decide (attribute ∈ attributesOfVersion p)
     then Some (getattr sourceInfo attribute)
     else targetInfo !! attribute) ∧
  _copyFontInfo p sourceInfo (_copyFontInfo p sourceInfo targetInfo)
  = _copyFontInfo p sourceInfo targetInfo.
Proof.
  assert (∀ targetInfo attribute,
     _copyFontInfo p sourceInfo targetInfo !! attribute =
     if bool_decide (attribute ∈ infoAttributes)
        && bool_decide (attribute ∈ attributesOfVersion p)
     then Some (getattr sourceInfo attribute)
     else targetInfo !! attribute) as Hlookup.
  { clear targetInfo. intros targetInfo attribute.
    unfold _copyFontInfo. generalize infoAttributes as attributes.
    intros attributes. revert targetInfo.
    induction attributes as [|a attributes IH]; intros targetInfo; simpl; [done|].
    rewrite IH.
    assert ((if bool_decide (ufoVersion p = 1%Z)
                && bool_decide (a ∈ fontInfoAttributesVersion1) then true
             else if bool_decide (ufoVersion p = 2%Z)
                && bool_decide (a ∈ fontInfoAttributesVersion2) then true
             else if bool_decide (ufoVersion p = 3%Z)
                && bool_decide (a ∈ fontInfoAttributesVersion3) then true
             else false) = bool_decide (a ∈ attributesOfVersion p)) as ->.
    { unfold attributesOfVersion.
      repeat case_bool_decide; simpl; try done; try lia.
      all: by exfalso; match goal with H : _ ∈ [] |- _ => apply elem_of_nil in H end. }
    destruct (decide (attribute = a)) as [->|Hne].
    - rewrite (bool_decide_eq_true_2 (a ∈ a :: attributes)) by (by left). simpl.
      destruct (bool_decide (a ∈ attributesOfVersion p)) eqn:Hv.
      + rewrite andb_true_r. rewrite lookup_insert_eq.
        by destruct (bool_decide (a ∈ attributes)).
      + by rewrite andb_false_r.
    - assert (bool_decide (attribute ∈ a :: attributes)
              = bool_decide (attribute ∈ attributes)) as ->.
      { apply bool_decide_ext. rewrite elem_of_cons. split; [by intros [?|?]|by right]. }
      destruct (bool_decide (a ∈ attributesOfVersion p)); [|done].
      by rewrite lookup_insert_ne. }
  split; [apply Hlookup|].
  apply map_eq. intros attribute. rewrite !Hlookup.
  by destruct (_ && _).
Qed.

End CopyFontInfoProperties.

Section ProcessorFrames.
Context {FM : FontMath} {VB : VariationBackends} {DSL : DesignSpaceLib}
        {UL : UfoLib} {PP : PointPens}.

(** *** Methods that respect a preorder on processors *)

Section Respects.
Variable R : relation DesignSpaceProcessor.
Hypothesis R_refl : ∀ p, R p p.
Hypothesis R_trans : ∀ p1 p2 p3, R p1 p2 → R p2 p3 → R p1 p3.

Lemma respects_ret {A : Type} (a : A) : respects R (mret a).
Proof. intros p. apply R_refl. Qed.

Lemma respects_lift {A : Type} (r : res A) : respects R (lift r).
Proof. intros p. apply R_refl. Qed.

Lemma respects_raise {A : Type} (e : exn) : respects R (raise (A := A) e).
Proof. intros p. apply R_refl. Qed.

Lemma respects_self : respects R self.
Proof. intros p. apply R_refl. Qed.

Lemma respects_update (f : DesignSpaceProcessor → DesignSpaceProcessor) :
  (∀ p, R p (f p)) → respects R (update f).
Proof. intros Hf p. apply Hf. Qed.

Lemma respects_bind {A B : Type} (m : M A) (k : A → M B) :
  respects R m → (∀ a, respects R (k a)) → respects R (m ≫= k).
Proof.
  intros Hm Hk p. rewrite M_bind_run. specialize (Hm p).
  destruct (m p) as [[a|e] p1]; simpl in *; [|done].
  eapply R_trans; [done|]. apply Hk.
Qed.

(** The same, when the continuation looks at the state the method began in. *)
Lemma respects_bind_self {B : Type} (k : DesignSpaceProcessor → M B) :
  (∀ p, R p (k p p).2) → respects R (self ≫= k).
Proof. intros Hk p. rewrite M_bind_run. apply Hk. Qed.

Lemma respects_try_except {A : Type} (body : M A) (handler : exn → M A) :
  respects R body → (∀ e, respects R (handler e)) →
  respects R (try_except body handler).
Proof.
  intros Hm Hk p. unfold try_except. specialize (Hm p).
  destruct (body p) as [[a|e] p1]; simpl in *; [done|].
  eapply R_trans; [done|]. apply Hk.
Qed.

Lemma respects_try_except_only {A : Type} (E : exn) (body handler : M A) :
  respects R body → respects R handler →
  respects R (try_except_only E body handler).
Proof.
  intros Hm Hk p. unfold try_except_only. specialize (Hm p).
  destruct (body p) as [[a|e] p1]; simpl in *; [done|].
  destruct (decide (e = E)); [|done].
  eapply R_trans; [done|]. apply Hk.
Qed.

Lemma respects_for_each {A S : Type} (body : A → S → M S) (xs : list A) (s : S) :
  (∀ x s, respects R (body x s)) → respects R (for_each body xs s).
Proof.
  intros Hbody. revert s. induction xs as [|x xs IH]; intros s; simpl.
  - apply respects_ret.
  - apply respects_bind; [apply Hbody|]. intros s'. apply IH.
Qed.

End Respects.

(** *** What [makeInstance] and the methods under it leave alone *)

Lemma advances_refl (p : DesignSpaceProcessor) : advances p p.
Proof. unfold advances. by repeat split. Qed.

Lemma advances_trans (p1 p2 p3 : DesignSpaceProcessor) :
  advances p1 p2 → advances p2 p3 → advances p1 p3.
Proof.
  unfold advances. intros H1 H2.
  destruct H1 as (?&?&?&?&?&?&?&?&?&?&?&?&?&?&?).
  destruct H2 as (?&?&?&?&?&?&?&?&?&?&?&?&?&?&?).
  repeat split; try congruence; by etransitivity.
Qed.

Lemma advances_problems_append (problem : Problem) :
  respects advances (problems_append problem).
Proof.
  intros p. unfold advances. simpl. repeat split; try done.
  by apply prefix_app_r.
Qed.

Lemma advances_print (line : string) : respects advances (print line).
Proof.
  intros p. unfold advances. simpl. repeat split; try done.
  by apply prefix_app_r.
Qed.

Lemma advances_set_glyphMutators (c : DesignSpaceProcessor →
    gmap (string * bool) (option (Mutator MathGlyph))) :
  respects advances (update (λ p, set_glyphMutators p (c p))).
Proof. intros p. unfold advances. simpl. by repeat split. Qed.

Lemma advances_set_infoMutator (m : option (Mutator MathInfo)) :
  respects advances (update (λ p, set_infoMutator p m)).
Proof. intros p. unfold advances. simpl. by repeat split. Qed.

Lemma advances_set_kerningMutator (m : option (Mutator MathKerning)) :
  respects advances (update (λ p, set_kerningMutator p m)).
Proof. intros p. unfold advances. simpl. by repeat split. Qed.

End ProcessorFrames.

(** One step through the text of a method, for a preorder with the proofs
    [Rrefl] and [Rtrans]. *)
Ltac respects_step Rrefl Rtrans :=
  lazymatch goal with
  | |- respects _ (mret _) => apply (respects_ret _ Rrefl)
  | |- respects _ (lift _) => apply (respects_lift _ Rrefl)
  | |- respects _ (raise _) => apply (respects_raise _ Rrefl)
  | |- respects _ self => apply (respects_self _ Rrefl)
  | |- respects _ (try_except_only _ _ _) =>
      apply (respects_try_except_only _ Rtrans)
  | |- respects _ (try_except _ _) =>
      apply (respects_try_except _ Rtrans); [|intros ?]
  | |- respects _ (for_each _ _ _) =>
      apply (respects_for_each _ Rrefl Rtrans); intros ? ?
  | |- respects _ (mbind _ _) =>
      apply (respects_bind _ Rtrans); [|intros ?]
  | |- respects _ (if ?b then _ else _) => destruct b
  | |- respects _ (match ?x with _ => _ end) => destruct x
  end.

Ltac advances_step :=
  lazymatch goal with
  | |- respects advances (problems_append _) => apply advances_problems_append
  | |- respects advances (print _) => apply advances_print
  | |- respects advances (update (λ p, set_glyphMutators p _)) =>
      apply (advances_set_glyphMutators (λ p, _))
  | |- respects advances (update (λ p, set_infoMutator p _)) =>
      apply advances_set_infoMutator
  | |- respects advances (update (λ p, set_kerningMutator p _)) =>
      apply advances_set_kerningMutator
  | |- _ => let Rrefl := constr:(advances_refl) in
            let Rtrans := constr:(advances_trans) in
            respects_step Rrefl Rtrans
  end.

Section ProcessorAdvances.
Context {FM : FontMath} {VB : VariationBackends} {DSL : DesignSpaceLib}
        {UL : UfoLib} {PP : PointPens}.

Lemma advances_getVariationModel {V : Type}
    (items : list (gmap string AxisValue * V)) (bias : gmap string AxisValue) :
  respects advances (getVariationModel items bias).
Proof. unfold getVariationModel. repeat advances_step. Qed.

Lemma advances_getInfoMutator : respects advances getInfoMutator.
Proof.
  unfold getInfoMutator.
  repeat first [apply advances_getVariationModel | advances_step].
Qed.

Lemma advances_getKerningMutator : respects advances getKerningMutator.
Proof.
  unfold getKerningMutator.
  repeat first [apply advances_getVariationModel | advances_step].
Qed.

Lemma advances_getGlyphMutator (glyphName : string) (dc fromCache : bool) :
  respects advances (getGlyphMutator glyphName dc fromCache).
Proof.
  unfold getGlyphMutator.
  repeat first [apply advances_getVariationModel | advances_step].
Qed.

Lemma advances_makeGlyph (instanceDescriptor : InstanceDescriptor)
    (glyphName : string) (font : Font) :
  respects advances (makeGlyph instanceDescriptor glyphName font).
Proof.
  unfold makeGlyph.
  repeat first [apply advances_getGlyphMutator | apply advances_getVariationModel
               | advances_step].
Qed.

Lemma advances_makeKerning (instanceDescriptor : InstanceDescriptor)
    (locHorizontal : gmap string AxisValue) (font : Font) :
  respects advances (makeKerning instanceDescriptor locHorizontal font).
Proof.
  unfold makeKerning. repeat first [apply advances_getKerningMutator | advances_step].
Qed.

Lemma advances_makeInfo (instanceDescriptor : InstanceDescriptor) (anisotropic : bool)
    (locHorizontal locVertical : gmap string AxisValue) (font : Font) :
  respects advances
    (makeInfo instanceDescriptor anisotropic locHorizontal locVertical font).
Proof.
  unfold makeInfo. repeat first [apply advances_getInfoMutator | advances_step].
Qed.

Lemma advances_makeInstance (instanceDescriptor : InstanceDescriptor) (doRules : bool)
    (glyphNames' : option (list string)) :
  respects advances (makeInstance instanceDescriptor doRules glyphNames').
Proof.
  unfold makeInstance.
  repeat first [apply advances_makeKerning | apply advances_makeInfo
               | apply advances_makeGlyph | advances_step].
Qed.

End ProcessorAdvances.

Section MutatorProperties.
Context {FM : FontMath} {VB : VariationBackends} {DSL : DesignSpaceLib}
        {UL : UfoLib} {PP : PointPens}.

(** [getVariationModel] returns a model and leaves the processor as it is,
    or returns [None] with one more problem. *)
Lemma getVariationModel_outcome {V : Type} (items : list (gmap string AxisValue * V))
    (bias : gmap string AxisValue) (p : DesignSpaceProcessor) :
  (∃ model, getVariationModel items bias p = (Ok (Some model), p)) ∨
  (∃ e, getVariationModel items bias p =
          (Ok None, set_problems p (problems p ++ [VariationModelProblem e]))).
Proof.
  rewrite getVariationModel_run.
  destruct (if useVarlib p then _ else _) as [r|e]; eauto.
Qed.

(** The four ways a call of [getInfoMutator] can go. *)
Lemma getInfoMutator_outcome (p : DesignSpaceProcessor) :
  (∃ m, _infoMutator p = Some m ∧ getInfoMutator p = (Ok (Some m), p)) ∨
  _infoMutator p = None ∧
  ((∃ e, getInfoMutator p = (Raise e, p)) ∨
   (∃ e, getInfoMutator p =
           (Raise TypeError, set_problems p (problems p ++ [VariationModelProblem e]))) ∨
   (∃ r, getInfoMutator p = (Ok r, set_infoMutator p r))).
Proof.
  remember (getInfoMutator p) as outcome eqn:Hcall.
  unfold getInfoMutator in Hcall. rewrite M_bind_run in Hcall. unfold self in Hcall.
  destruct (_infoMutator p) as [m|] eqn:Hm.
  - left. exists m. split; [done|].
    by rewrite bool_decide_eq_true_2 in Hcall by eauto.
  - right. split; [done|].
    rewrite bool_decide_eq_false_2 in Hcall by (by intros [? ?]).
    rewrite M_bind_run in Hcall. unfold lift at 1 in Hcall.
    destruct (mapM _ (sources p)) as [infoItems|e]; [|left; by exists e].
    rewrite M_bind_run in Hcall.
    destruct (getVariationModel_outcome infoItems (defaultLoc p) p)
      as [[model Hmodel]|[e Hmodel]]; rewrite Hmodel in Hcall.
    + right. right. by exists model.2.
    + right. left. by exists e.
Qed.

(** The same for [getKerningMutator]. *)
Lemma getKerningMutator_outcome (p : DesignSpaceProcessor) :
  (∃ m, _kerningMutator p = Some m ∧ getKerningMutator p = (Ok (Some m), p)) ∨
  _kerningMutator p = None ∧
  ((∃ e, getKerningMutator p = (Raise e, p)) ∨
   (∃ e, getKerningMutator p =
           (Raise TypeError, set_problems p (problems p ++ [VariationModelProblem e]))) ∨
   (∃ r, getKerningMutator p = (Ok r, set_kerningMutator p r))).
Proof.
  remember (getKerningMutator p) as outcome eqn:Hcall.
  unfold getKerningMutator in Hcall. rewrite M_bind_run in Hcall. unfold self in Hcall.
  destruct (_kerningMutator p) as [m|] eqn:Hm.
  - left. exists m. split; [done|].
    by rewrite bool_decide_eq_true_2 in Hcall by eauto.
  - right. split; [done|].
    rewrite bool_decide_eq_false_2 in Hcall by (by intros [? ?]).
    rewrite M_bind_run in Hcall. unfold lift at 1 in Hcall.
    destruct (mapM _ (sources p)) as [kerningItems|e]; [|left; by exists e].
    rewrite M_bind_run in Hcall.
    destruct (getVariationModel_outcome kerningItems (defaultLoc p) p)
      as [[model Hmodel]|[e Hmodel]]; rewrite Hmodel in Hcall.
    + right. right. by exists model.2.
    + right. left. by exists e.
Qed.

(** The ways a call of [getGlyphMutator] can go. *)
Lemma getGlyphMutator_outcome (glyphName : string) (dc fromCache : bool)
    (p : DesignSpaceProcessor) :
  let key := (glyphName, dc) in
  (∃ m, fromCache = true ∧ _glyphMutators p !! key = Some m ∧
        getGlyphMutator glyphName dc fromCache p = (Ok m, p)) ∨
  (fromCache = true → _glyphMutators p !! key = None) ∧
  ((∃ e, getGlyphMutator glyphName dc fromCache p = (Raise e, p)) ∨
   (∃ e, getGlyphMutator glyphName dc fromCache p =
           (Raise TypeError, set_problems p (problems p ++ [VariationModelProblem e]))) ∨
   (∃ r, getGlyphMutator glyphName dc fromCache p =
           (Ok r, set_glyphMutators p (<[key := r]> (_glyphMutators p))))).
Proof.
  intros key. subst key. rewrite getGlyphMutator_run. simpl.
  assert ((∃ e, (match rebuilt p glyphName dc with
       | (Ok (Some model), _) =>
           (Ok model.2,
            set_glyphMutators p (<[(glyphName, dc) := model.2]> (_glyphMutators p)))
       | (Ok None, l) => (Raise TypeError, set_problems p (problems p ++ l))
       | (Raise e, _) => (Raise e, p)
       end) = (Raise e, p)) ∨
   (∃ e, (match rebuilt p glyphName dc with
       | (Ok (Some model), _) =>
           (Ok model.2,
            set_glyphMutators p (<[(glyphName, dc) := model.2]> (_glyphMutators p)))
       | (Ok None, l) => (Raise TypeError, set_problems p (problems p ++ l))
       | (Raise e, _) => (Raise e, p)
       end) = (Raise TypeError, set_problems p (problems p ++ [VariationModelProblem e]))) ∨
   (∃ r, (match rebuilt p glyphName dc with
       | (Ok (Some model), _) =>
           (Ok model.2,
            set_glyphMutators p (<[(glyphName, dc) := model.2]> (_glyphMutators p)))
       | (Ok None, l) => (Raise TypeError, set_problems p (problems p ++ l))
       | (Raise e, _) => (Raise e, p)
       end) = (Ok r, set_glyphMutators p (<[(glyphName, dc) := r]> (_glyphMutators p)))))
    as Hrebuild.
  { unfold rebuilt.
    destruct (_ ≫= _) as [new|e]; [|eauto].
    destruct (if useVarlib p then _ else _) as [r|e]; eauto. }
  destruct (_glyphMutators p !! (glyphName, dc)) as [m|] eqn:Hkey.
  - destruct fromCache.
    + left. by exists m.
    + right. split; [done|]. exact Hrebuild.
  - right. split; [done|]. exact Hrebuild.
Qed.

(** X8. [getVariationModel] never raises: whatever the back-end does, the
    call returns. When the model is built the processor is left as it is,
    and the result is what the back-end of the processor gave: with varLib
    the empty dictionary and the mutator, which is not [None], and with
    mutatorMath the pair of [buildMutator]. When the construction fails the
    result is [None] and the failure is the one problem appended. *)
Theorem getVariationModel_contained {V : Type}
    (items : list (gmap string AxisValue * V)) (bias : gmap string AxisValue)
    (p : DesignSpaceProcessor) :
  ∃ model p', getVariationModel items bias p = (Ok model, p') ∧
    match model with
    | Some built =>
        p' = p ∧
        if useVarlib p
        then built.1 = ∅ ∧ (mutator ← built.2; Some (Ok mutator))
                           = Some (VariationModelMutator V items (axes p))
        else buildMutator V items (getMutatorAxes p) bias = Ok built
    | None => ∃ e, p' = set_problems p (problems p ++ [VariationModelProblem e])
    end.
Proof.
  rewrite getVariationModel_run. destruct (useVarlib p); simpl.
  - destruct (VariationModelMutator V items (axes p)) as [m|e]; simpl.
    + exists (Some (∅, Some m)), p. repeat split; eauto.
    + eexists None, _. split; [done|]. eauto.
  - destruct (buildMutator V items (getMutatorAxes p) bias) as [r|e] eqn:Hr; simpl.
    + exists (Some r), p. repeat split; done.
    + eexists None, _. split; [done|]. eauto.
Qed.

(** The items that [getInfoMutator] gathers: for every source, in the order
    of the document, its location with the [MathInfo] of its font. *)
Lemma infoItems_Ok (p : DesignSpaceProcessor)
    (infoItems : list (gmap string AxisValue * MathInfo)) :
  mapM (λ sourceDescriptor,
          sourceFont ← getitem (fonts p) (source_name sourceDescriptor);
          mathInfo ← mathInfoClass sourceFont;
          mret (source_location sourceDescriptor, mathInfo)) (sources p) = Ok infoItems ↔
  Forall2 (λ sourceDescriptor item,
             ∃ sourceFont,
               fonts p !! source_name sourceDescriptor = Some sourceFont ∧
               mathInfoClass sourceFont = Ok item.2 ∧
               item.1 = source_location sourceDescriptor)
          (sources p) infoItems.
Proof.
  rewrite mapM_res_Ok.
  split; intros Hall; (eapply Forall2_impl; [exact Hall|]); intros sd item;
    unfold getitem.
  - intros H. apply res_bind_Ok in H as (f & Hf & H).
    apply res_bind_Ok in H as (i & Hi & H). injection H as <-.
    exists f. destruct (fonts p !! source_name sd); [|done]. by injection Hf as ->.
  - intros (f & -> & Hi & Hloc). simpl. rewrite Hi. simpl. rewrite <- Hloc.
    by destruct item.
Qed.

(** The items that [getKerningMutator] gathers: for every source, in the
    order of the document, its location with the [MathKerning] of the
    kerning and the groups of its font. *)
Lemma kerningItems_Ok (p : DesignSpaceProcessor)
    (kerningItems : list (gmap string AxisValue * MathKerning)) :
  mapM (λ sourceDescriptor,
          sourceFont ← getitem (fonts p) (source_name sourceDescriptor);
          sourceFont ← deref sourceFont;
          mathKerning ← mathKerningClass (kerning sourceFont) (groups sourceFont);
          mret (source_location sourceDescriptor, mathKerning)) (sources p)
    = Ok kerningItems ↔
  Forall2 (λ sourceDescriptor item,
             ∃ sourceFont,
               fonts p !! source_name sourceDescriptor = Some (Some sourceFont) ∧
               mathKerningClass (kerning sourceFont) (groups sourceFont) = Ok item.2 ∧
               item.1 = source_location sourceDescriptor)
          (sources p) kerningItems.
Proof.
  rewrite mapM_res_Ok.
  split; intros Hall; (eapply Forall2_impl; [exact Hall|]); intros sd item;
    unfold getitem.
  - intros H. apply res_bind_Ok in H as (f & Hf & H).
    apply res_bind_Ok in H as (f' & Hf' & H).
    apply res_bind_Ok in H as (i & Hi & H). injection H as <-.
    exists f'. destruct (fonts p !! source_name sd) as [o|]; [|done].
    injection Hf as ->. destruct f as [f|]; [|done]. by injection Hf' as ->.
  - intros (f & -> & Hi & Hloc). simpl. rewrite Hi. simpl. rewrite <- Hloc.
    by destruct item.
Qed.

(** X9. [getInfoMutator] builds the mutator of the info once, from the info
    of the fonts of the sources. When no mutator is held, the call gathers,
    for every source in the order of the document, the location of the
    source with the [MathInfo] of its font, has [getVariationModel] build
    the model of these items at the default location, returns the mutator of
    the model and holds it from then on; and what such a call returns was
    built in this way. A mutator that is held is returned with the
    processor untouched, so that a second call returns the same object
    without building. A call that raises leaves no mutator behind; when it
    raises because no model could be built, the exception is a TypeError and
    the failure of the model is the one problem appended. *)
Theorem getInfoMutator_cache (p : DesignSpaceProcessor) :
  (∀ m, _infoMutator p = Some m → getInfoMutator p = (Ok (Some m), p)) ∧
  (∀ infoItems model,
     _infoMutator p = None →
     Forall2 (λ sourceDescriptor item,
                ∃ sourceFont,
                  fonts p !! source_name sourceDescriptor = Some sourceFont ∧
                  mathInfoClass sourceFont = Ok item.2 ∧
                  item.1 = source_location sourceDescriptor)
             (sources p) infoItems →
     getVariationModel infoItems (defaultLoc p) p = (Ok (Some model), p) →
     getInfoMutator p = (Ok model.2, set_infoMutator p model.2)) ∧
  (∀ r p',
     _infoMutator p = None → getInfoMutator p = (Ok r, p') →
     ∃ infoItems model,
       Forall2 (λ sourceDescriptor item,
                  ∃ sourceFont,
                    fonts p !! source_name sourceDescriptor = Some sourceFont ∧
                    mathInfoClass sourceFont = Ok item.2 ∧
                    item.1 = source_location sourceDescriptor)
               (sources p) infoItems ∧
       getVariationModel infoItems (defaultLoc p) p = (Ok (Some model), p) ∧
       r = model.2 ∧ p' = set_infoMutator p r) ∧
  (∀ r p', getInfoMutator p = (Ok r, p') →
     _infoMutator p' = r ∧ problems p' = problems p ∧
     ∀ m, r = Some m → getInfoMutator p' = (Ok (Some m), p')) ∧
  (∀ e p', getInfoMutator p = (Raise e, p') →
     _infoMutator p = None ∧ _infoMutator p' = None ∧
     (p' = p ∨
      e = TypeError ∧
      ∃ e', p' = set_problems p (problems p ++ [VariationModelProblem e']))).
Proof.
  assert (∀ q m, _infoMutator q = Some m → getInfoMutator q = (Ok (Some m), q)) as Hhit.
  { intros q m Hm. destruct (getInfoMutator_outcome q) as [(m' & Hm' & ->)|[Hnone _]];
      congruence. }
  split; [apply Hhit|]. split; [|split].
  { intros infoItems model Hnone Hitems Hmodel. apply infoItems_Ok in Hitems.
    unfold getInfoMutator. rewrite M_bind_run. unfold self at 1.
    rewrite Hnone. rewrite bool_decide_eq_false_2 by (by intros [? ?]).
    rewrite M_bind_run. unfold lift at 1. rewrite Hitems.
    rewrite M_bind_run, Hmodel. done. }
  { intros r p' Hnone. unfold getInfoMutator. rewrite M_bind_run. unfold self at 1.
    rewrite Hnone. rewrite bool_decide_eq_false_2 by (by intros [? ?]).
    rewrite M_bind_run. unfold lift at 1.
    destruct (mapM _ (sources p)) as [infoItems|e] eqn:Hitems; [|done].
    rewrite M_bind_run, getVariationModel_run.
    destruct (if useVarlib p then _ else _) as [model|e] eqn:Hbackend; [|done].
    intros [= <- <-]. exists infoItems, model.
    split; [by apply infoItems_Ok|]. split; [|done].
    rewrite getVariationModel_run. by rewrite Hbackend. }
  destruct (getInfoMutator_outcome p)
    as [(m & Hm & ->)|[Hnone [[e ->]|[[e ->]|[r ->]]]]].
  - split.
    + intros r p' [= <- <-]. split; [done|]. split; [done|].
      intros m' [= <-]. by apply Hhit.
    + intros e p' [=].
  - split.
    + intros r p' [=].
    + intros e' p' [= <- <-]. split; [done|]. split; [done|]. by left.
  - split.
    + intros r p' [=].
    + intros e' p' [= <- <-]. split; [done|]. split; [done|].
      right. split; [done|]. by exists e.
  - split.
    + intros r' p' [= <- <-]. split; [done|]. split; [done|].
      intros m ->. by apply Hhit.
    + intros e p' [=].
Qed.

(** X10. [getKerningMutator] builds the mutator of the kerning once, from
    the kerning and the groups of the fonts of the sources. When no mutator
    is held, the call gathers, for every source in the order of the
    document, the location of the source with the [MathKerning] of the
    kerning and groups of its font, has [getVariationModel] build the model
    of these items at the default location, returns the mutator of the model
    and holds it from then on; and what such a call returns was built in
    this way. A mutator that is held is returned with the processor
    untouched, so that a second call returns the same object without
    building. A call that raises leaves no mutator behind and, when no model
    could be built, raises TypeError after the one problem of the model. *)
Theorem getKerningMutator_cache (p : DesignSpaceProcessor) :
  (∀ m, _kerningMutator p = Some m → getKerningMutator p = (Ok (Some m), p)) ∧
  (∀ kerningItems model,
     _kerningMutator p = None →
     Forall2 (λ sourceDescriptor item,
                ∃ sourceFont,
                  fonts p !! source_name sourceDescriptor = Some (Some sourceFont) ∧
                  mathKerningClass (kerning sourceFont) (groups sourceFont) = Ok item.2 ∧
                  item.1 = source_location sourceDescriptor)
             (sources p) kerningItems →
     getVariationModel kerningItems (defaultLoc p) p = (Ok (Some model), p) →
     getKerningMutator p = (Ok model.2, set_kerningMutator p model.2)) ∧
  (∀ r p',
     _kerningMutator p = None → getKerningMutator p = (Ok r, p') →
     ∃ kerningItems model,
       Forall2 (λ sourceDescriptor item,
                  ∃ sourceFont,
                    fonts p !! source_name sourceDescriptor = Some (Some sourceFont) ∧
                    mathKerningClass (kerning sourceFont) (groups sourceFont)
                      = Ok item.2 ∧
                    item.1 = source_location sourceDescriptor)
               (sources p) kerningItems ∧
       getVariationModel kerningItems (defaultLoc p) p = (Ok (Some model), p) ∧
       r = model.2 ∧ p' = set_kerningMutator p r) ∧
  (∀ r p', getKerningMutator p = (Ok r, p') →
     _kerningMutator p' = r ∧ problems p' = problems p ∧
     ∀ m, r = Some m → getKerningMutator p' = (Ok (Some m), p')) ∧
  (∀ e p', getKerningMutator p = (Raise e, p') →
     _kerningMutator p = None ∧ _kerningMutator p' = None ∧
     (p' = p ∨
      e = TypeError ∧
      ∃ e', p' = set_problems p (problems p ++ [VariationModelProblem e']))).
Proof.
  assert (∀ q m, _kerningMutator q = Some m → getKerningMutator q = (Ok (Some m), q))
    as Hhit.
  { intros q m Hm. destruct (getKerningMutator_outcome q) as [(m' & Hm' & ->)|[Hnone _]];
      congruence. }
  split; [apply Hhit|]. split; [|split].
  { intros kerningItems model Hnone Hitems Hmodel. apply kerningItems_Ok in Hitems.
    unfold getKerningMutator. rewrite M_bind_run. unfold self at 1.
    rewrite Hnone. rewrite bool_decide_eq_false_2 by (by intros [? ?]).
    rewrite M_bind_run. unfold lift at 1. rewrite Hitems.
    rewrite M_bind_run, Hmodel. done. }
  { intros r p' Hnone. unfold getKerningMutator. rewrite M_bind_run. unfold self at 1.
    rewrite Hnone. rewrite bool_decide_eq_false_2 by (by intros [? ?]).
    rewrite M_bind_run. unfold lift at 1.
    destruct (mapM _ (sources p)) as [kerningItems|e] eqn:Hitems; [|done].
    rewrite M_bind_run, getVariationModel_run.
    destruct (if useVarlib p then _ else _) as [model|e] eqn:Hbackend; [|done].
    intros [= <- <-]. exists kerningItems, model.
    split; [by apply kerningItems_Ok|]. split; [|done].
    rewrite getVariationModel_run. by rewrite Hbackend. }
  destruct (getKerningMutator_outcome p)
    as [(m & Hm & ->)|[Hnone [[e ->]|[[e ->]|[r ->]]]]].
  - split.
    + intros r p' [= <- <-]. split; [done|]. split; [done|].
      intros m' [= <-]. by apply Hhit.
    + intros e p' [=].
  - split.
    + intros r p' [=].
    + intros e' p' [= <- <-]. split; [done|]. split; [done|]. by left.
  - split.
    + intros r p' [=].
    + intros e' p' [= <- <-]. split; [done|]. split; [done|].
      right. split; [done|]. by exists e.
  - split.
    + intros r' p' [= <- <-]. split; [done|]. split; [done|].
      intros m ->. by apply Hhit.
    + intros e p' [=].
Qed.

(** X11. A call of [getGlyphMutator] that raises stores nothing: the cache
    is as it was, so the next call builds again. With [fromCache] a call
    raises only for a key that is not cached. The processor is untouched,
    unless the exception is the TypeError of a model that could not be
    built, which comes after the one problem of the model. *)
Theorem getGlyphMutator_failure (glyphName : string) (decomposeComponents fromCache : bool)
    (p p' : DesignSpaceProcessor) (e : exn) :
  getGlyphMutator glyphName decomposeComponents fromCache p = (Raise e, p') →
  _glyphMutators p' = _glyphMutators p ∧
  (fromCache = true → _glyphMutators p !! (glyphName, decomposeComponents) = None) ∧
  (p' = p ∨
   e = TypeError ∧
   ∃ e', p' = set_problems p (problems p ++ [VariationModelProblem e'])).
Proof.
  destruct (getGlyphMutator_outcome glyphName decomposeComponents fromCache p)
    as [(m & _ & _ & ->)|[Hnone [[e0 ->]|[[e0 ->]|[r ->]]]]]; [done| | |done].
  - intros [= <- <-]. eauto.
  - intros [= <- <-]. repeat split; [done|]. right. eauto.
Qed.

End MutatorProperties.

Section LoadProperties.
Context {FM : FontMath} {VB : VariationBackends} {DSL : DesignSpaceLib}
        {UL : UfoLib} {PP : PointPens}.

Lemma loads_refl (p : DesignSpaceProcessor) : loads p p.
Proof. unfold loads. by repeat split. Qed.

Lemma loads_trans (p1 p2 p3 : DesignSpaceProcessor) :
  loads p1 p2 → loads p2 p3 → loads p1 p3.
Proof.
  unfold loads. intros H1 H2.
  destruct H1 as (?&?&?&?&?&?&?&?&?&?&?&?&?&?&?&?).
  destruct H2 as (?&?&?&?&?&?&?&?&?&?&?&?&?&?&?&?).
  repeat split; try congruence; by etransitivity.
Qed.

(** The loop of [loadFonts] over the sources [sds], from the processor [pc]
    and the names gathered so far. *)
Lemma loadFonts_loop (sds : list SourceDescriptor) :
  ∀ (pc : DesignSpaceProcessor) (names : gset string),
  ∃ names' pc',
    for_each
      (λ (sourceDescriptor : SourceDescriptor) (names : gset string),
         p ← self;
         if bool_decide (is_Some (fonts p !! source_name sourceDescriptor)) then mret names
         else
           match disk p !! source_path sourceDescriptor with
           | Some (formatVersion, font) =>
               update (λ p, set_fonts p (<[source_name sourceDescriptor := Some font]> (fonts p))
                                      (_fontsLoaded p) (glyphNames p));;
               problems_append (LoadedMaster (source_path sourceDescriptor) formatVersion);;
               mret (names ∪ dom (glyphs font))
           | None =>
               update (λ p, set_fonts p (<[source_name sourceDescriptor := None]> (fonts p))
                                      (_fontsLoaded p) (glyphNames p));;
               problems_append (SourceNotFound (source_path sourceDescriptor));;
               mret names
           end)
      sds names pc = (Ok names', pc') ∧
    loads pc pc' ∧ _fontsLoaded pc' = _fontsLoaded pc ∧ glyphNames pc' = glyphNames pc ∧
    (∀ sd, sd ∈ sds → is_Some (fonts pc' !! source_name sd)) ∧
    (∀ name f, fonts pc !! name = None → fonts pc' !! name = Some f →
       ∃ sd, sd ∈ sds ∧ source_name sd = name ∧ f = snd <$> disk pc !! source_path sd) ∧
    ((∀ sd, sd ∈ sds → is_Some (fonts pc !! source_name sd)) →
       pc' = pc ∧ names' = names) ∧
    (∀ g, g ∈ names' ↔ g ∈ names ∨ newlyLoaded pc pc' g).
Proof.
  induction sds as [|sd sds IH]; intros pc names.
  - exists names, pc. simpl. split; [done|]. split; [apply loads_refl|].
    repeat split; try done.
    + intros sd Hsd. by apply elem_of_nil in Hsd.
    + intros name f Hnone Hf. congruence.
    + by left.
    + intros [?|(name & font & Hnone & Hf & _)]; [done|congruence].
  - cbn [for_each]. rewrite M_bind_run. rewrite M_bind_run. unfold self at 1.
    destruct (fonts pc !! source_name sd) as [f0|] eqn:Hentry.
    + rewrite bool_decide_eq_true_2 by eauto.
      unfold mret at 1, M_ret at 1.
      destruct (IH pc names) as (names' & pc' & -> & Hloads & Hfl & Hgn & Hall & Hnew & Hsame & Hnames).
      exists names', pc'. split; [done|]. split; [done|].
      split; [done|]. split; [done|]. split; [|split; [|split; [|done]]].
      * intros sd' [->|Hsd']%elem_of_cons; [|by apply Hall].
        destruct Hloads as (_&_&_&_&_&_&_&_&_&_&_&_&_&_&Hsub&_).
        exists f0. by apply (lookup_weaken _ _ _ _ Hentry Hsub).
      * intros name f Hnone Hf. destruct (Hnew name f Hnone Hf) as (sd' & ? & ? & ?).
        exists sd'. split; [by right|done].
      * intros Hin. apply Hsame. intros sd' Hsd'. apply Hin. by right.
    + rewrite bool_decide_eq_false_2 by (by intros [? ?]).
      set (entry := snd <$> disk pc !! source_path sd).
      set (pc1 := set_problems
                    (set_fonts pc (<[source_name sd := entry]> (fonts pc))
                               (_fontsLoaded pc) (glyphNames pc))
                    (problems pc ++
                     [match disk pc !! source_path sd with
                      | Some (formatVersion, _) =>
                          LoadedMaster (source_path sd) formatVersion
                      | None => SourceNotFound (source_path sd)
                      end])).
      set (names1 := match disk pc !! source_path sd with
                     | Some (_, font) => names ∪ dom (glyphs font)
                     | None => names
                     end).
      match goal with |- context [match ?m pc with _ => _ end] =>
        assert (m pc = (Ok names1, pc1)) as -> end.
      { subst pc1 names1 entry.
        destruct (disk pc !! source_path sd) as [[formatVersion font]|]; done. }
      destruct (IH pc1 names1)
        as (names' & pc' & -> & Hloads & Hfl & Hgn & Hall & Hnew & Hsame & Hnames).
      assert (loads pc pc1) as Hstep.
      { unfold loads. subst pc1. simpl. repeat split; try done.
        - by apply insert_subseteq.
        - by apply prefix_app_r. }
      assert (fonts pc1 !! source_name sd = Some entry) as Hmade.
      { subst pc1. simpl. by rewrite lookup_insert_eq. }
      assert (∀ name, name ≠ source_name sd → fonts pc1 !! name = fonts pc !! name)
        as Hother.
      { intros name Hne. subst pc1. simpl. by rewrite lookup_insert_ne. }
      assert (disk pc1 = disk pc) as Hdisk by done.
      pose proof Hloads as (_&_&_&_&_&_&_&_&_&_&_&_&_&_&Hsub&_).
      exists names', pc'. split; [done|].
      split; [by apply (loads_trans _ pc1)|].
      split; [by rewrite Hfl|]. split; [by rewrite Hgn|].
      split; [|split; [|split]].
      * intros sd' [->|Hsd']%elem_of_cons; [|by apply Hall].
        exists entry. by apply (lookup_weaken _ _ _ _ Hmade Hsub).
      * intros name f Hnone Hf.
        destruct (decide (name = source_name sd)) as [->|Hne].
        -- exists sd. split; [by left|]. split; [done|].
           pose proof (lookup_weaken _ _ _ _ Hmade Hsub) as Hf'.
           assert (f = entry) as -> by congruence. done.
        -- rewrite <- (Hother name Hne) in Hnone.
           destruct (Hnew name f Hnone Hf) as (sd' & ? & ? & ?).
           exists sd'. split; [by right|]. split; [done|]. by rewrite <- Hdisk.
      * intros Hin. destruct (Hin sd) as [f Hf]; [by left|]. congruence.
      * intros g. rewrite Hnames.
        assert (g ∈ names1 ↔
                g ∈ names ∨ ∃ font, entry = Some font ∧ is_Some (glyphs font !! g))
          as ->.
        { subst names1 entry.
          destruct (disk pc !! source_path sd) as [[formatVersion font]|]; simpl.
          - rewrite elem_of_union, elem_of_dom. split.
            + intros [?|?]; [by left|]. right. by exists font.
            + intros [?|(font' & [= <-] & ?)]; [by left|by right].
          - split; [by left|]. by intros [?|(font' & [=] & _)]. }
        unfold newlyLoaded. split.
        -- intros [[?|(font & Hfont & Hg)]|(name & font & Hnone & Hf & Hg)].
           ++ by left.
           ++ right. exists (source_name sd), font. split; [done|]. split; [|done].
              apply (lookup_weaken _ _ _ _ Hmade) in Hsub. by rewrite Hsub, Hfont.
           ++ right. exists name, font. split; [|done].
              destruct (decide (name = source_name sd)) as [->|Hne]; [congruence|].
              by rewrite <- (Hother name Hne).
        -- intros [?|(name & font & Hnone & Hf & Hg)]; [by left; left|].
           destruct (decide (name = source_name sd)) as [->|Hne].
           ++ left. right. exists font. split; [|done].
              pose proof (lookup_weaken _ _ _ _ Hmade Hsub) as Hf'. congruence.
           ++ right. exists name, font. split; [|done]. by rewrite (Hother name Hne).
Qed.

(** What a call of [loadFonts] comes to. *)
Lemma loadFonts_outcome (reload : bool) (p : DesignSpaceProcessor) :
  ∃ p', loadFonts reload p = (Ok tt, p') ∧ loads p p' ∧
    if _fontsLoaded p && negb reload then p' = p
    else loaded p p' ∧ NoDup (glyphNames p') ∧
         (∀ g, g ∈ glyphNames p' ↔ newlyLoaded p p' g) ∧
         ((∀ sd, sd ∈ sources p → is_Some (fonts p !! source_name sd)) →
          p' = set_fonts p (fonts p) true []).
Proof.
  unfold loadFonts. rewrite M_bind_run. unfold self at 1.
  destruct (_fontsLoaded p && negb reload) eqn:Hskip.
  - exists p. split; [done|]. split; [apply loads_refl|done].
  - rewrite M_bind_run.
    destruct (loadFonts_loop (sources p) p ∅)
      as (names' & pc' & -> & Hloads & Hfl & Hgn & Hall & Hnew & Hsame & Hnames).
    eexists. split; [reflexivity|].
    pose proof Hloads as (?&?&?&?&?&?&?&?&?&?&?&?&?&?&?&?).
    split; [by unfold loads|].
    split; [by unfold loaded|]. simpl.
    split; [apply NoDup_elements|]. split.
    + intros g. rewrite elem_of_elements, Hnames. unfold newlyLoaded. simpl.
      split; [intros [?|?]; [set_solver|done]|by right].
    + intros Hin. destruct (Hsame Hin) as [-> ->]. by rewrite elements_empty.
Qed.

(** X12. A call of [loadFonts] that returns has read no font twice: an
    entry that [fonts] has is left as it is, also when the call is a reload.
    After a call that loads, every source has an entry under its name, and a
    new entry is what the disk has at the path of a source of that name,
    [None] where no UFO is there. The disk, the mutator caches and the
    document are untouched, and the problems only grew. A call on a
    processor that is loaded, without [reload], has changed nothing. *)
Theorem loadFonts_fonts (reload : bool) (p p' : DesignSpaceProcessor) :
  loadFonts reload p = (Ok tt, p') →
  loads p p' ∧
  (_fontsLoaded p = true → reload = false → p' = p) ∧
  (_fontsLoaded p = false ∨ reload = true → loaded p p').
Proof.
  destruct (loadFonts_outcome reload p) as (p1 & -> & Hloads & Hpost).
  intros [= <-]. split; [done|]. split.
  - intros Hl ->. by rewrite Hl in Hpost.
  - intros Hload.
    assert (_fontsLoaded p && negb reload = false) as Hskip.
    { destruct Hload as [-> | ->]; [done|]. by rewrite andb_false_r. }
    rewrite Hskip in Hpost. by destruct Hpost.
Qed.

(** X13. After a call of [loadFonts] that loads, the glyph names of the
    processor are the names of the glyphs of the fonts that this call put
    into [fonts], each name once: the glyphs of a font that was there before
    the call are not among them unless a new font has them too. *)
Theorem loadFonts_glyphNames (reload : bool) (p : DesignSpaceProcessor) :
  _fontsLoaded p = false ∨ reload = true →
  let p' := (loadFonts reload p).2 in
  NoDup (glyphNames p') ∧
  ∀ glyphName, glyphName ∈ glyphNames p' ↔ newlyLoaded p p' glyphName.
Proof.
  intros Hload p'. subst p'.
  destruct (loadFonts_outcome reload p) as (p' & -> & Hloads & Hpost).
  assert (_fontsLoaded p && negb reload = false) as Hskip.
  { destruct Hload as [-> | ->]; [done|]. by rewrite andb_false_r. }
  rewrite Hskip in Hpost. simpl. by destruct Hpost as (_ & ? & ? & _).
Qed.

(** X14. Once [loadFonts] has run, a second call without [reload] does
    nothing, and a second call with [reload] reads no font, adds no problem
    and leaves the processor without glyph names: the names are gathered
    from the fonts that a call reads, and every source has its entry. *)
Theorem loadFonts_again (p : DesignSpaceProcessor) :
  let p1 := (loadFonts true p).2 in
  loadFonts false p1 = (Ok tt, p1) ∧
  loadFonts true p1 = (Ok tt, set_fonts p1 (fonts p1) true []).
Proof.
  intros p1. subst p1.
  destruct (loadFonts_outcome true p) as (p1 & -> & Hloads & Hpost).
  rewrite andb_false_r in Hpost. simpl.
  destruct Hpost as ((Hfl & Hall & _) & _).
  destruct Hloads as (Hsources & _).
  split.
  - destruct (loadFonts_outcome false p1) as (p2 & -> & _ & Hpost).
    rewrite Hfl in Hpost. simpl in Hpost. by rewrite Hpost.
  - destruct (loadFonts_outcome true p1) as (p2 & -> & _ & Hpost).
    rewrite andb_false_r in Hpost. destruct Hpost as (_ & _ & _ & Hsame).
    rewrite Hsame; [done|]. intros sd Hsd. apply Hall. by rewrite <- Hsources.
Qed.

End LoadProperties.

Section GenerateProperties.
Context {FM : FontMath} {VB : VariationBackends} {DSL : DesignSpaceLib}
        {UL : UfoLib} {PP : PointPens}.



(** The start of [generateUFO]: the fonts are loaded and the default source
    is looked for, in a document that is otherwise as it was. *)
Lemma generateUFO_start (processRules : bool) (p : DesignSpaceProcessor) :
  ∃ p1, loadFonts false p = (Ok tt, p1) ∧ loads p p1 ∧
    generateUFO processRules p =
      let p2 := set_default p1 (findDefault (sources p) (axes p)) in
      if bool_decide (default p2 = None) then
        (Raise (UFOProcessorError
                  "Can't generate UFO from this designspace: no default font."), p2)
      else
        ((for_each
            (λ (instanceDescriptor : InstanceDescriptor) (_ : unit),
               match instance_path instanceDescriptor with
               | None => mret tt
               | Some path =>
                   font ← makeInstance instanceDescriptor processRules None;
                   p ← self;
                   let newer := match disk p !! path with
                                | Some (existingUFOFormatVersion, _) =>
                                    bool_decide (ufoVersion p < existingUFOFormatVersion)%Z
                                | None => false
                                end in
                   if newer then
                     problems_append
                       (CantOverwrite path (get_or (fst <$> disk p !! path) 0%Z)
                                      (ufoVersion p))
                   else
                     update (λ p, set_disk p (<[path := (ufoVersion p, font)]> (disk p)));;
                     problems_append (Generated path (ufoVersion p))
               end)
            (instances p) tt;;
          mret true) p2).
Proof.
  destruct (loadFonts_outcome false p) as (p1 & Hrun & Hloads & _).
  exists p1. split; [done|]. split; [done|].
  unfold generateUFO. rewrite M_bind_run, Hrun. rewrite M_bind_run.
  unfold update at 1. rewrite M_bind_run. unfold self at 1.
  destruct Hloads as (Hs & Hi & Ha & _). rewrite Hs, Ha. cbv zeta.
  destruct (bool_decide _) eqn:Hdefault; [done|].
  simpl. by rewrite Hi.
Qed.

(** X15. Without a default source [generateUFO] raises its error, whatever
    else the document holds: the fonts are loaded by then, no instance is
    made and nothing is written. *)
Theorem generateUFO_needs_default (processRules : bool) (p : DesignSpaceProcessor) :
  findDefault (sources p) (axes p) = None →
  generateUFO processRules p =
    (Raise (UFOProcessorError
              "Can't generate UFO from this designspace: no default font."),
     set_default (loadFonts false p).2 None) ∧
  disk (generateUFO processRules p).2 = disk p.
Proof.
  intros Hnone.
  destruct (generateUFO_start processRules p) as (p1 & Hrun & Hloads & ->).
  rewrite Hrun, Hnone. simpl. split; [done|].
  by destruct Hloads as (_&_&_&_&_&_&_&_&_&_&_&_&Hd&_).
Qed.


End GenerateProperties.

Section CachesKept.
Context {FM : FontMath} {VB : VariationBackends} {DSL : DesignSpaceLib}
        {UL : UfoLib} {PP : PointPens}.

Lemma caches_kept_refl (p : DesignSpaceProcessor) : caches_kept p p.
Proof. unfold caches_kept. by repeat split. Qed.

Lemma caches_kept_trans (p1 p2 p3 : DesignSpaceProcessor) :
  caches_kept p1 p2 → caches_kept p2 p3 → caches_kept p1 p3.
Proof.
  unfold caches_kept. intros (H1 & H2 & H3) (H1' & H2' & H3').
  split; [by etransitivity|]. split; eauto.
Qed.

Lemma caches_kept_problems_append (problem : Problem) :
  respects caches_kept (problems_append problem).
Proof. intros p. unfold caches_kept. by repeat split. Qed.

Lemma caches_kept_print (line : string) : respects caches_kept (print line).
Proof. intros p. unfold caches_kept. by repeat split. Qed.

Lemma caches_kept_getVariationModel {V : Type}
    (items : list (gmap string AxisValue * V)) (bias : gmap string AxisValue) :
  respects caches_kept (getVariationModel items bias).
Proof.
  intros p. destruct (getVariationModel_outcome items bias p) as [[model ->]|[e ->]];
    unfold caches_kept; by repeat split.
Qed.

Lemma caches_kept_getInfoMutator : respects caches_kept getInfoMutator.
Proof.
  intros p. destruct (getInfoMutator_outcome p)
    as [(m & Hm & ->)|[Hnone [[e ->]|[[e ->]|[r ->]]]]];
    unfold caches_kept; simpl; repeat split; try done; congruence.
Qed.

Lemma caches_kept_getKerningMutator : respects caches_kept getKerningMutator.
Proof.
  intros p. destruct (getKerningMutator_outcome p)
    as [(m & Hm & ->)|[Hnone [[e ->]|[[e ->]|[r ->]]]]];
    unfold caches_kept; simpl; repeat split; try done; congruence.
Qed.

Lemma caches_kept_getGlyphMutator (glyphName : string) (dc : bool) :
  respects caches_kept (getGlyphMutator glyphName dc true).
Proof.
  intros p. destruct (getGlyphMutator_outcome glyphName dc true p)
    as [(m & _ & Hm & ->)|[Hnone [[e ->]|[[e ->]|[r ->]]]]];
    unfold caches_kept; simpl; repeat split; try done.
  apply insert_subseteq. by apply Hnone.
Qed.

End CachesKept.

Ltac caches_kept_step :=
  lazymatch goal with
  | |- respects caches_kept (problems_append _) => apply caches_kept_problems_append
  | |- respects caches_kept (print _) => apply caches_kept_print
  | |- respects caches_kept (getVariationModel _ _) => apply caches_kept_getVariationModel
  | |- respects caches_kept getInfoMutator => apply caches_kept_getInfoMutator
  | |- respects caches_kept getKerningMutator => apply caches_kept_getKerningMutator
  | |- respects caches_kept (getGlyphMutator _ _ true) => apply caches_kept_getGlyphMutator
  | |- _ => let Rrefl := constr:(caches_kept_refl) in
            let Rtrans := constr:(caches_kept_trans) in
            respects_step Rrefl Rtrans
  end.

Section InstanceFrames.
Context {FM : FontMath} {VB : VariationBackends} {DSL : DesignSpaceLib}
        {UL : UfoLib} {PP : PointPens}.

Lemma caches_kept_makeGlyph (instanceDescriptor : InstanceDescriptor)
    (glyphName : string) (font : Font) :
  respects caches_kept (makeGlyph instanceDescriptor glyphName font).
Proof. unfold makeGlyph. repeat caches_kept_step. Qed.

Lemma caches_kept_makeInstance (instanceDescriptor : InstanceDescriptor) (doRules : bool)
    (glyphNames' : option (list string)) :
  respects caches_kept (makeInstance instanceDescriptor doRules glyphNames').
Proof.
  unfold makeInstance, makeKerning, makeInfo.
  repeat first [apply caches_kept_makeGlyph | caches_kept_step].
Qed.

(** X17. [makeInstance] works on the mutator caches and on nothing else of
    the processor: sources, instances, axes, rules, default, fonts, glyph
    names and the disk are as before, whatever the outcome; the problems
    and the output only get entries at the end; and a mutator that is cached
    is neither rebuilt nor dropped. *)
Theorem makeInstance_frame (instanceDescriptor : InstanceDescriptor) (doRules : bool)
    (glyphNames' : option (list string)) (p : DesignSpaceProcessor) :
  let p' := (makeInstance instanceDescriptor doRules glyphNames' p).2 in
  advances p p' ∧ caches_kept p p'.
Proof.
  split; [apply advances_makeInstance|apply caches_kept_makeInstance].
Qed.

End InstanceFrames.

Lemma sameBut_refl (names : list string) (font : Font) : sameBut names font font.
Proof. unfold sameBut. by repeat split. Qed.

Lemma sameBut_trans (names : list string) (font1 font2 font3 : Font) :
  sameBut names font1 font2 → sameBut names font2 font3 → sameBut names font1 font3.
Proof.
  unfold sameBut. intros (H&?&?&?&?&?&?&?&?) (H'&?&?&?&?&?&?&?&?).
  repeat split; try congruence. intros name Hname. by rewrite H', H.
Qed.

Lemma sameBut_weaken (names names' : list string) (font font' : Font) :
  names ⊆ names' → sameBut names font font' → sameBut names' font font'.
Proof.
  unfold sameBut. intros Hsub (H&?&?&?&?&?&?&?&?). repeat split; try done.
  intros name Hname. apply H. intros Hin. by apply Hname, Hsub.
Qed.

(** A glyph set is changed at one name. *)
Lemma sameBut_set_glyphs (glyphName : string) (font : Font) (gs : gmap string Glyph) :
  (∀ name, name ≠ glyphName → gs !! name = glyphs font !! name) →
  sameBut [glyphName] font (set_glyphs font gs).
Proof.
  intros H. unfold sameBut. simpl. repeat split; try done.
  intros name Hname. apply H. intros ->. apply Hname. by left.
Qed.

Lemma cleared_lookup (glyphName name : string) (gs : gmap string Glyph) :
  name ≠ glyphName →
  alter clear glyphName (newGlyph glyphName gs) !! name = gs !! name.
Proof.
  intros Hne. unfold newGlyph. rewrite lookup_alter_ne by done.
  by rewrite lookup_insert_ne.
Qed.

Lemma cleared_new (glyphName : string) (gs : gmap string Glyph) :
  alter clear glyphName (newGlyph glyphName gs) = <[glyphName := emptyGlyph]> gs.
Proof.
  apply map_eq. intros name. unfold newGlyph.
  destruct (decide (name = glyphName)) as [->|Hne].
  - by rewrite lookup_alter_eq, !lookup_insert_eq.
  - by rewrite lookup_alter_ne, !lookup_insert_ne.
Qed.

Section GlyphProperties.
Context {FM : FontMath} {VB : VariationBackends} {DSL : DesignSpaceLib}
        {UL : UfoLib} {PP : PointPens}.

Lemma placeGlyph_sameBut (p : DesignSpaceProcessor) (glyphName : string)
    (u : list Z) (o : MathGlyph) (font font' : Font) :
  placeGlyph p glyphName u o font = Ok font' →
  sameBut [glyphName] font font' ∧ is_Some (glyphs font' !! glyphName).
Proof.
  unfold placeGlyph. intros H.
  apply res_bind_Ok in H as (o' & _ & H).
  apply res_bind_Ok in H as (g & _ & H).
  apply res_bind_Ok in H as (g' & _ & H). injection H as <-.
  split; [|simpl; rewrite lookup_insert_eq; eauto].
  unfold sameBut. simpl. repeat split; try done.
  intros name Hname.
  assert (name ≠ glyphName) as Hne by (intros ->; apply Hname; by left).
  rewrite lookup_insert_ne by done. by apply cleared_lookup.
Qed.

(** One turn of the glyph loop changes the glyph of its name at most, and
    does not take it away. *)
Lemma makeGlyph_sameBut (instanceDescriptor : InstanceDescriptor) (glyphName : string)
    (font font' : Font) (p p' : DesignSpaceProcessor) :
  makeGlyph instanceDescriptor glyphName font p = (Ok font', p') →
  sameBut [glyphName] font font' ∧
  (is_Some (glyphs font !! glyphName) → is_Some (glyphs font' !! glyphName)).
Proof.
  unfold makeGlyph. rewrite M_bind_run. unfold self at 1. rewrite M_bind_run.
  destruct (try_except _ _ p) as [[[glyphMutator|]|e] p1]; [| |done].
  2:{ intros [= <- _]. split; [apply sameBut_refl|done]. }
  set (font1 := set_glyphs font (alter clear glyphName (newGlyph glyphName (glyphs font)))).
  assert (sameBut [glyphName] font font1) as Hcleared.
  { apply sameBut_set_glyphs. intros name Hne. by apply cleared_lookup. }
  assert (is_Some (glyphs font1 !! glyphName)) as Hthere.
  { subst font1. simpl. rewrite cleared_new, lookup_insert_eq. eauto. }
  destruct (get_or (data_mute _) false); [by intros [= <- _]|].
  rewrite M_bind_run. unfold lift at 1.
  assert (∀ (gm : option (Mutator MathGlyph)) loc u p2,
    (made ← try_except_only IndexError
               (glyphInstanceObject ← lift (interpolateGlyph gm loc);
                mret (Some glyphInstanceObject))
               (print ("Error making instance " +:+ glyphName);; mret None);
     match made with
     | None => mret font1
     | Some glyphInstanceObject =>
         lift (placeGlyph p glyphName u glyphInstanceObject font1)
     end) p2 = (Ok font', p') →
    sameBut [glyphName] font font' ∧
    (is_Some (glyphs font !! glyphName) → is_Some (glyphs font' !! glyphName))) as Htail.
  { intros gm loc u p2. rewrite M_bind_run.
    unfold try_except_only, lift, mbind, M_bind, mret, M_ret, print, update. simpl.
    destruct (interpolateGlyph gm loc) as [o|e]; simpl.
    - intros [= H _]. apply placeGlyph_sameBut in H as [H ?].
      split; [by apply (sameBut_trans _ _ font1)|done].
    - destruct (decide (e = IndexError)); [|done]. by intros [= <- _]. }
  destruct (data_note _) as [nt|].
  { destruct (bool_decide (nt ≠ "")); [done|].
    rewrite M_bind_run.
    match goal with |- context [match ?m p1 with _ => _ end] =>
      destruct (m p1) as [[gm|e] p2] end; [|done].
    by apply Htail. }
  rewrite M_bind_run.
  match goal with |- context [match ?m p1 with _ => _ end] =>
    destruct (m p1) as [[gm|e] p2] end; [|done].
  by apply Htail.
Qed.

Lemma for_each_makeGlyph_sameBut (instanceDescriptor : InstanceDescriptor)
    (names : list string) (font font' : Font) (p p' : DesignSpaceProcessor) :
  for_each (makeGlyph instanceDescriptor) names font p = (Ok font', p') →
  sameBut names font font' ∧
  ∀ name, is_Some (glyphs font !! name) → is_Some (glyphs font' !! name).
Proof.
  revert font p. induction names as [|name names IH]; intros font p; simpl.
  - intros [= <- _]. split; [apply sameBut_refl|done].
  - rewrite M_bind_run.
    destruct (makeGlyph instanceDescriptor name font p) as [[font1|e] p1] eqn:H1; [|done].
    intros H. apply IH in H as [H Hkeeps]. apply makeGlyph_sameBut in H1 as [H1 Hkeep].
    split.
    + apply (sameBut_trans _ _ font1).
      * apply (sameBut_weaken [name]); [|done]. intros n Hn. apply elem_of_cons.
        left. by apply list_elem_of_singleton in Hn.
      * apply (sameBut_weaken names); [|done]. intros n Hn. by right.
    + intros n Hn. apply Hkeeps.
      destruct (decide (n = name)) as [->|Hne]; [by apply Hkeep|].
      destruct H1 as [H1 _]. rewrite H1; [done|].
      intros Hin. by apply list_elem_of_singleton in Hin.
Qed.

(** X18. The glyph loop of [makeInstance] changes the glyphs it is asked
    for and nothing else, and takes no glyph away: when the loop over
    [selectedGlyphNames] returns, every glyph of another name is as it was,
    and so are kerning, groups, info, lib and features of the font; a glyph
    that was in the font is still in it. *)
Theorem glyph_loop_frame (instanceDescriptor : InstanceDescriptor)
    (selectedGlyphNames : list string) (font font' : Font)
    (p p' : DesignSpaceProcessor) :
  for_each (makeGlyph instanceDescriptor) selectedGlyphNames font p = (Ok font', p') →
  sameBut selectedGlyphNames font font' ∧
  ∀ name, is_Some (glyphs font !! name) → is_Some (glyphs font' !! name).
Proof. apply for_each_makeGlyph_sameBut. Qed.

(** X19. The three ways the glyph loop passes over a glyph. When
    [getGlyphMutator] raises, whatever the exception, the glyph is left out
    of the font and the failure is the one problem appended; when it returns
    [None] the glyph is left out and nothing is noted; and a glyph that the
    instance mutes is in the font as a new, empty glyph, once its mutator is
    there, without anything being evaluated. *)
Theorem makeGlyph_skips (instanceDescriptor : InstanceDescriptor) (glyphName : string)
    (font : Font) (p p1 : DesignSpaceProcessor) :
  (∀ e, getGlyphMutator glyphName false true p = (Raise e, p1) →
     makeGlyph instanceDescriptor glyphName font p =
       (Ok font, set_problems p1 (problems p1 ++ [MutatorProblem glyphName e]))) ∧
  (getGlyphMutator glyphName false true p = (Ok None, p1) →
     makeGlyph instanceDescriptor glyphName font p = (Ok font, p1)) ∧
  (∀ glyphMutator glyphData,
     getGlyphMutator glyphName false true p = (Ok (Some glyphMutator), p1) →
     instance_glyphs instanceDescriptor !! glyphName = Some glyphData →
     data_mute glyphData = Some true →
     makeGlyph instanceDescriptor glyphName font p =
       (Ok (set_glyphs font (<[glyphName := emptyGlyph]> (glyphs font))), p1)).
Proof.
  split; [|split].
  - intros e H. unfold makeGlyph. rewrite M_bind_run. unfold self at 1.
    rewrite M_bind_run. unfold try_except. rewrite H. done.
  - intros H. unfold makeGlyph. rewrite M_bind_run. unfold self at 1.
    rewrite M_bind_run. unfold try_except. rewrite H. done.
  - intros glyphMutator glyphData H Hdata Hmute.
    unfold makeGlyph. rewrite M_bind_run. unfold self at 1.
    rewrite M_bind_run. unfold try_except. rewrite H, Hdata. simpl.
    rewrite Hmute. simpl. by rewrite cleared_new.
Qed.

End GlyphProperties.

Section InstanceProperties.
Context {FM : FontMath} {VB : VariationBackends} {DSL : DesignSpaceLib}
        {UL : UfoLib} {PP : PointPens}.

(** X20. The kerning block of [makeInstance] never raises, whatever the
    mutator and fontMath do. When the instance asks for no kerning nothing
    happens. Otherwise, when the mutator of the kerning cannot be had, is
    [None], or cannot be evaluated at the horizontal location, the font has
    not been touched and the failure is the one problem appended; when the
    evaluation succeeds the font is what [extractKerning] makes of it and
    nothing is appended; and a failure inside [extractKerning] is the one
    problem appended, with nothing said here of the font it was writing
    to. *)
Theorem makeKerning_contained (instanceDescriptor : InstanceDescriptor)
    (locHorizontal : gmap string AxisValue) (font : Font) (p : DesignSpaceProcessor) :
  let loc := instance_location instanceDescriptor in
  ∃ font' p', makeKerning instanceDescriptor locHorizontal font p = (Ok font', p') ∧
    if instance_kerning instanceDescriptor then
      match getKerningMutator p with
      | (Ok (Some kerningMutator), p1) =>
          match mutator_makeInstance kerningMutator locHorizontal with
          | Ok kerningObject =>
              match extractKerning kerningObject font with
              | Ok extracted => font' = extracted ∧ p' = p1
              | Raise e =>
                  p' = set_problems p1 (problems p1 ++ [KerningProblem loc e])
              end
          | Raise e =>
              font' = font ∧
              p' = set_problems p1 (problems p1 ++ [KerningProblem loc e])
          end
      | (Ok None, p1) =>
          font' = font ∧
          p' = set_problems p1 (problems p1 ++ [KerningProblem loc AttributeError])
      | (Raise e, p1) =>
          font' = font ∧
          p' = set_problems p1 (problems p1 ++ [KerningProblem loc e])
      end
    else font' = font ∧ p' = p.
Proof.
  intros loc. unfold makeKerning.
  destruct (instance_kerning instanceDescriptor); [|by exists font, p].
  unfold try_except. rewrite M_bind_run.
  destruct (getKerningMutator p) as [[[m|]|e] p1];
    unfold lift, mbind, M_bind, mret, M_ret, problems_append, update; simpl.
  - destruct (mutator_makeInstance m locHorizontal) as [k|e]; simpl.
    + destruct (extractKerning k font) as [extracted|e]; simpl.
      * by exists extracted, p1.
      * by eexists font, _.
    + by eexists font, _.
  - by eexists font, _.
  - by eexists font, _.
Qed.

(** X21. The [try] statement of the info in [makeInstance] never raises.
    When the mutator of the info cannot be had, is [None], or cannot be
    evaluated (at the location of the instance, or at its two halves, whose
    results are put together with the weights of the info), the font has not
    been touched, the five names of the instance are not assigned, and the
    failure is the one problem appended. When the evaluation succeeds and
    [extractInfo] returns, the info of the font is what [extractInfo] made
    of the interpolated object with the five names assigned, and nothing is
    appended; a failure inside [extractInfo] is the one problem appended,
    with nothing said here of the info it was writing to. *)
Theorem makeInfo_contained (instanceDescriptor : InstanceDescriptor) (anisotropic : bool)
    (locHorizontal locVertical : gmap string AxisValue) (font : Font)
    (p : DesignSpaceProcessor) :
  let loc := instance_location instanceDescriptor in
  ∃ font' p',
    makeInfo instanceDescriptor anisotropic locHorizontal locVertical font p
      = (Ok font', p') ∧
    match getInfoMutator p with
    | (Ok (Some infoMutator), p1) =>
        match (if negb anisotropic then mutator_makeInstance infoMutator loc
               else
                 horizontalInfoInstanceObject ←
                   mutator_makeInstance infoMutator locHorizontal;
                 verticalInfoInstanceObject ←
                   mutator_makeInstance infoMutator locVertical;
                 recombine infoWeights horizontalInfoInstanceObject
                           verticalInfoInstanceObject) with
        | Ok infoInstanceObject =>
            match extractInfo infoInstanceObject (info font) with
            | Ok extracted =>
                font' = set_info font (nameInfo instanceDescriptor extracted) ∧ p' = p1
            | Raise e =>
                p' = set_problems p1 (problems p1 ++ [FontinfoProblem loc e])
            end
        | Raise e =>
            font' = font ∧
            p' = set_problems p1 (problems p1 ++ [FontinfoProblem loc e])
        end
    | (Ok None, p1) =>
        font' = font ∧
        p' = set_problems p1 (problems p1 ++ [FontinfoProblem loc AttributeError])
    | (Raise e, p1) =>
        font' = font ∧
        p' = set_problems p1 (problems p1 ++ [FontinfoProblem loc e])
    end.
Proof.
  intros loc. unfold makeInfo. unfold try_except. rewrite M_bind_run.
  destruct (getInfoMutator p) as [[[m|]|e] p1].
  - rewrite M_bind_run. unfold lift at 1, deref. rewrite M_bind_run.
    assert ((if negb anisotropic
             then lift (mutator_makeInstance m (instance_location instanceDescriptor))
             else
               lift (mutator_makeInstance m locHorizontal)
               ≫= λ horizontalInfoInstanceObject,
                    lift (mutator_makeInstance m locVertical)
                    ≫= λ verticalInfoInstanceObject,
                         lift (recombine infoWeights horizontalInfoInstanceObject
                                         verticalInfoInstanceObject)) p1
            = ((if negb anisotropic then mutator_makeInstance m loc
                else
                  horizontalInfoInstanceObject ←
                    mutator_makeInstance m locHorizontal;
                  verticalInfoInstanceObject ←
                    mutator_makeInstance m locVertical;
                  recombine infoWeights horizontalInfoInstanceObject
                            verticalInfoInstanceObject), p1)) as ->.
    { destruct anisotropic; simpl; [|done].
      unfold lift, mbind at 1 2, M_bind.
      destruct (mutator_makeInstance m locHorizontal) as [h|e]; simpl; [|done].
      by destruct (mutator_makeInstance m locVertical) as [v|e]. }
    destruct (if negb anisotropic then _ else _) as [o|e].
    + unfold lift, mbind, M_bind, mret, M_ret, problems_append, update. simpl.
      destruct (extractInfo o (info font)) as [extracted|e]; simpl.
      * by eexists _, p1.
      * by eexists font, _.
    + unfold lift, mbind, M_bind, mret, M_ret, problems_append, update. simpl.
      by eexists font, _.
  - unfold lift, mbind, M_bind, mret, M_ret, problems_append, update. simpl.
    by eexists font, _.
  - unfold lift, mbind, M_bind, mret, M_ret, problems_append, update. simpl.
    by eexists font, _.
Qed.

Lemma applyRules_lib (p : DesignSpaceProcessor) (loc : gmap string AxisValue)
    (font : Font) :
  lib (applyRules p loc font) = lib font.
Proof.
  unfold applyRules.
  generalize (zip (glyphNames p) (processRules (rules p) loc (glyphNames p))).
  intros pairs. revert font.
  induction pairs as [|names pairs IH]; intros font; simpl; [done|].
  rewrite IH. destruct (bool_decide _); [|done].
  by destruct (swapGlyphNames_rest font names.1 names.2 defaultSwapNameExtension)
    as (_ & _ & _ & -> & _).
Qed.

(** X22. Rules that rename no glyph leave the font of an instance alone:
    when [processRules] gives the glyph names back as they are, no glyph is
    swapped. *)
Theorem applyRules_identity (p : DesignSpaceProcessor) (loc : gmap string AxisValue)
    (font : Font) :
  processRules (rules p) loc (glyphNames p) = glyphNames p →
  applyRules p loc font = font.
Proof.
  intros H. unfold applyRules. rewrite H. clear H.
  induction (glyphNames p) as [|name names IH]; simpl; [done|].
  rewrite bool_decide_eq_false_2; [done|]. by intros Hne.
Qed.

(** X23. [makeInstance] needs the default source and its font before
    anything else: without a default source the call ends with the
    AttributeError of [self.default.name], and with a default source that
    has no entry in [fonts] with the KeyError of the lookup; in both cases
    the processor is untouched. *)
Theorem makeInstance_needs_default (instanceDescriptor : InstanceDescriptor)
    (doRules : bool) (glyphNames' : option (list string)) (p : DesignSpaceProcessor) :
  (default p = None →
   makeInstance instanceDescriptor doRules glyphNames' p = (Raise AttributeError, p)) ∧
  (∀ defaultSource, default p = Some defaultSource →
     fonts p !! source_name defaultSource = None →
     makeInstance instanceDescriptor doRules glyphNames' p = (Raise KeyError, p)).
Proof.
  split.
  - intros H. unfold makeInstance. rewrite M_bind_run. unfold self at 1.
    rewrite M_bind_run. unfold lift at 1. by rewrite H.
  - intros defaultSource H Hfont. unfold makeInstance. rewrite M_bind_run.
    unfold self at 1. rewrite M_bind_run. unfold lift at 1. rewrite H. simpl.
    rewrite M_bind_run. unfold lift at 1, getitem. by rewrite Hfont.
Qed.

(** X24. The lib of a font that [makeInstance] returns has the location of
    the instance under the key designspace, as the list of its items, and
    has a glyph order. *)
Theorem makeInstance_lib (instanceDescriptor : InstanceDescriptor) (doRules : bool)
    (glyphNames' : option (list string)) (p p' : DesignSpaceProcessor) (font : Font) :
  makeInstance instanceDescriptor doRules glyphNames' p = (Ok font, p') →
  lib font !! "designspace"
    = Some (LItems (map_to_list (instance_location instanceDescriptor))) ∧
  is_Some (lib font !! "public.glyphOrder").
Proof.
  unfold makeInstance. rewrite M_bind_run. unfold self at 1.
  rewrite M_bind_run. unfold lift at 1.
  destruct (deref (default p)) as [defaultSource|e]; [|done].
  rewrite M_bind_run. unfold lift at 1.
  destruct (getitem (fonts p) (source_name defaultSource)) as [defaultFont|e]; [|done].
  rewrite M_bind_run.
  match goal with |- context [makeKerning ?i ?l ?f p] =>
    destruct (makeKerning i l f p) as [[font1|e] p1] end; [|done].
  rewrite M_bind_run.
  match goal with |- context [makeInfo ?i ?a ?h ?v font1 p1] =>
    destruct (makeInfo i a h v font1 p1) as [[font2|e] p2] end; [|done].
  rewrite M_bind_run. unfold lift at 1.
  match goal with |- context [foldl ?f (Ok font2) (sources p)] =>
    destruct (foldl f (Ok font2) (sources p)) as [font3|e] end; [|done].
  rewrite M_bind_run.
  match goal with |- context [for_each ?b ?l ?f p2] =>
    destruct (for_each b l f p2) as [[font4|e] p3] eqn:Hglyphs end; [|done].
  apply for_each_makeGlyph_sameBut in Hglyphs as [(_&_&_&_&_&_&Hlib&_) _].
  unfold mret, M_ret. intros [= <- <-]. simpl.
  split; [by rewrite lookup_insert_eq|].
  rewrite lookup_insert_ne by done.
  assert (lib (if doRules
               then applyRules p (instance_location instanceDescriptor) font4
               else font4) = lib font4) as ->.
  { destruct doRules; [apply applyRules_lib|done]. }
  rewrite Hlib. destruct (bool_decide _) eqn:Horder.
  - by apply bool_decide_eq_true in Horder.
  - simpl. rewrite lookup_insert_eq. eauto.
Qed.

(** X25. A source whose font is not there stops the glyphs short. For
    [collectMastersForGlyph] to return, every source must have an entry in
    [fonts], and a font in it unless the glyph is muted in the source. So a
    glyph that is not muted in a source whose UFO was not found, and whose
    mutator is not cached, is left out of the instance by the glyph loop,
    with the problem of its mutator noted. *)
Theorem makeGlyph_missing_source (instanceDescriptor : InstanceDescriptor)
    (glyphName : string) (font : Font) (p : DesignSpaceProcessor) :
  (∀ decomposeComponents items,
     collectMastersForGlyph p glyphName decomposeComponents = Ok items →
     ∀ sourceDescriptor, sourceDescriptor ∈ sources p →
       (∃ f, fonts p !! source_name sourceDescriptor = Some (Some f)) ∨
       fonts p !! source_name sourceDescriptor = Some None ∧
       glyphName ∈ mutedGlyphNames sourceDescriptor) ∧
  (∀ sourceDescriptor, sourceDescriptor ∈ sources p →
     fonts p !! source_name sourceDescriptor = Some None →
     glyphName ∉ mutedGlyphNames sourceDescriptor →
     _glyphMutators p !! (glyphName, false) = None →
     ∃ e, makeGlyph instanceDescriptor glyphName font p =
            (Ok font, set_problems p (problems p ++ [MutatorProblem glyphName e]))).
Proof.
  assert (∀ dc items, collectMastersForGlyph p glyphName dc = Ok items →
     ∀ sd, sd ∈ sources p →
       (∃ f, fonts p !! source_name sd = Some (Some f)) ∨
       fonts p !! source_name sd = Some None ∧ glyphName ∈ mutedGlyphNames sd) as Hall.
  { intros dc items H sd Hsd. unfold collectMastersForGlyph in H.
    apply res_bind_Ok in H as (turns & Hturns & _).
    apply mapM_res_Ok in Hturns.
    apply list_elem_of_lookup in Hsd as [i Hi].
    destruct (Forall2_lookup_l _ _ _ _ _ Hturns Hi) as (turn & _ & Hturn).
    revert Hturn. unfold collectMaster, getitem.
    destruct (fonts p !! source_name sd) as [[f|]|]; simpl; [eauto| |done].
    destruct (bool_decide (glyphName ∈ mutedGlyphNames sd)) eqn:Hm; simpl; [|done].
    intros _. right. split; [done|]. by apply bool_decide_eq_true in Hm. }
  split; [exact Hall|].
  intros sd Hsd Hfont Hmuted Hcache.
  assert (∃ e, getGlyphMutator glyphName false true p = (Raise e, p)) as [e He].
  { rewrite getGlyphMutator_run. simpl. rewrite Hcache. unfold rebuilt.
    destruct (collectMastersForGlyph p glyphName false) as [items|e] eqn:Hitems.
    - destruct (Hall false items Hitems sd Hsd) as [[f Hf]|[_ Hm]]; [congruence|done].
    - simpl. eauto. }
  exists e. unfold makeGlyph. rewrite M_bind_run. unfold self at 1.
  rewrite M_bind_run. unfold try_except. by rewrite He.
Qed.

End InstanceProperties.

(** ** The further properties at work on the sample *)

(** Witness of X1: in the font that has a glyph under the parking name of
    [a], a swap of [b] and [c] takes that glyph away as well. *)
Lemma swapGlyphNames_glyph_names_witness :
  inFont "b" Sample.parkedFont = true ∧ inFont "c" Sample.parkedFont = true ∧
  is_Some (glyphs Sample.parkedFont !! "a_______________swap") ∧
  glyphs (swapGlyphNames Sample.parkedFont "b" "c" defaultSwapNameExtension).2
    !! "a_______________swap" = None ∧
  is_Some (glyphs (swapGlyphNames Sample.parkedFont "b" "c" defaultSwapNameExtension).2
             !! "a").
Proof.
  assert (inFont "b" Sample.parkedFont = true) as H1 by (vm_compute; reflexivity).
  assert (inFont "c" Sample.parkedFont = true) as H2 by (vm_compute; reflexivity).
  destruct (swapGlyphNames_glyph_names Sample.parkedFont "b" "c"
              defaultSwapNameExtension H1 H2) as (Hnames & _).
  split; [exact H1|]. split; [exact H2|].
  split; [exists Sample.light_b; vm_compute; reflexivity|]. split.
  - apply eq_None_not_Some. intros H. apply Hnames in H as [_ H].
    vm_compute in H. discriminate H.
  - apply Hnames. split; [exists Sample.light_a|]; vm_compute; reflexivity.
Defined.

(** Witness of X2: the light font after a swap of [a] with itself. *)
Lemma swapGlyphNames_self_witness :
  inFont "a" Sample.lightFont = true ∧
  parkingFree Sample.lightFont "a" defaultSwapNameExtension ∧
  swapGlyphNames Sample.lightFont "a" "a" defaultSwapNameExtension
    = (tt, Sample.lightFont).
Proof.
  assert (inFont "a" Sample.lightFont = true) as H1 by (vm_compute; reflexivity).
  assert (parkingFree Sample.lightFont "a" defaultSwapNameExtension) as H2.
  { unfold parkingFree. apply (bool_decide_unpack _). vm_compute. exact I. }
  split; [exact H1|]. split; [exact H2|].
  exact (swapGlyphNames_self Sample.lightFont "a" defaultSwapNameExtension H1 H2).
Defined.

(** Witness of X3: the location of the light master splits into itself. *)
Lemma splitAnisotropic_isotropic_witness :
  isAnisotropic (Sample.at_weight (Scalar (0#1))) = false ∧
  splitAnisotropic (Sample.at_weight (Scalar (0#1)))
    = (Sample.at_weight (Scalar (0#1)), Sample.at_weight (Scalar (0#1))).
Proof.
  assert (isAnisotropic (Sample.at_weight (Scalar (0#1))) = false) as H
    by (vm_compute; reflexivity).
  split; [exact H|].
  exact (proj1 (splitAnisotropic_isotropic (Sample.at_weight (Scalar (0#1)))) H).
Defined.

(** Witness of X4: the light [c], whose one component is the light [a], is
    drawn at every recursion limit above one. *)
Lemma decompose_returns_witness :
  ∃ drawn, ∀ depth, 1 < depth →
    decompose depth (glyphs Sample.lightFont) None Sample.light_c = Ok drawn.
Proof.
  apply (decompose_returns (glyphs Sample.lightFont)
           (λ g, g = Sample.light_c ∨ g = Sample.light_a)
           (λ g, length (components g)) None Sample.light_c); [|by left].
  intros g c base [-> | ->] Hc Hbase.
  - apply list_elem_of_singleton in Hc as ->.
    assert (base = Sample.light_a) as ->.
    { apply (inj Some). rewrite <- Hbase. vm_compute. reflexivity. }
    split; [by right|]. simpl. lia.
  - by apply elem_of_nil in Hc.
Defined.

(** Witness of X5: the glyph that refers to itself is not drawn within the
    recursion limit of the sample. *)
Lemma decompose_cycle_witness :
  decompose recursionLimit {[ "d" := Sample.loopGlyph ]} None Sample.loopGlyph
    = Raise RuntimeError.
Proof.
  apply (decompose_cycle {[ "d" := Sample.loopGlyph ]} (λ g, g = Sample.loopGlyph)
           None Sample.loopGlyph recursionLimit); [|reflexivity].
  intros g ->. exists (mkComponent "d" _defaultTransformation), Sample.loopGlyph.
  split; [by left|]. split; [|reflexivity]. apply lookup_singleton_eq.
Defined.

(** Witness of X6: the glyph [c] whose component refers to a glyph that the
    font does not have is drawn as its own contours, of which it has none. *)
Lemma decompose_missing_base_witness :
  (∀ c, c ∈ components Sample.dangling_c →
        glyphs Sample.danglingFont !! baseGlyph c = None) ∧
  decompose 1 (glyphs Sample.danglingFont) None Sample.dangling_c = Ok [].
Proof.
  assert (∀ c, c ∈ components Sample.dangling_c →
               glyphs Sample.danglingFont !! baseGlyph c = None) as H.
  { intros c Hc. apply list_elem_of_singleton in Hc as ->. vm_compute. reflexivity. }
  split; [exact H|].
  exact (proj2 (decompose_missing_base 0 (glyphs Sample.danglingFont) None
                  Sample.dangling_c) H).
Defined.

(** Witness of X9: on the sample, which holds no mutator of the info, the
    call builds the mutator from the info of the three sources, whose
    masters are the caret offsets and ascenders of their fonts; at the bold
    master it gives the bold measures. The cached mutator of the other
    processor is returned as it is. *)
Lemma getInfoMutator_cache_witness :
  _infoMutator Sample.processor = None ∧
  getInfoMutator Sample.processor
    = (Ok (Some (Sample.mastersOnly Sample.masters_info
                   (Sample.at_weight (Scalar (0#1))))),
       set_infoMutator Sample.processor
         (Some (Sample.mastersOnly Sample.masters_info
                  (Sample.at_weight (Scalar (0#1)))))) ∧
  mutator_makeInstance
    (Sample.mastersOnly Sample.masters_info (Sample.at_weight (Scalar (0#1))))
    (Sample.at_weight (Scalar (1000#1))) = Ok (30#1, 720#1) ∧
  getInfoMutator Sample.cachedProcessor
    = (Ok (Some Sample.infoMutator), Sample.cachedProcessor).
Proof.
  destruct (getInfoMutator_cache Sample.processor) as (_ & Hbuilds & _).
  destruct (getInfoMutator_cache Sample.cachedProcessor) as (Hhit & _).
  split; [reflexivity|]. split; [|split].
  - apply (Hbuilds Sample.masters_info
             (Sample.at_weight (Scalar (0#1)),
              Some (Sample.mastersOnly Sample.masters_info
                      (Sample.at_weight (Scalar (0#1)))))).
    + reflexivity.
    + constructor; [|constructor; [|constructor; [|constructor]]].
      * exists (Some Sample.lightFont).
        split; [vm_compute; reflexivity|]. split; vm_compute; reflexivity.
      * exists (Some Sample.boldFont).
        split; [vm_compute; reflexivity|]. split; vm_compute; reflexivity.
      * exists (Some Sample.boldFont).
        split; [vm_compute; reflexivity|]. split; vm_compute; reflexivity.
    + apply (sample_getVariationModel Sample.masters_info); [reflexivity|].
      vm_compute. reflexivity.
  - vm_compute. reflexivity.
  - apply Hhit. reflexivity.
Defined.

(** Witness of X10: on the sample, which holds no mutator of the kerning,
    the call builds the mutator from the kerning of the three sources; at
    the bold master it gives the bold kerning. The cached mutator of the
    other processor is returned as it is. *)
Lemma getKerningMutator_cache_witness :
  _kerningMutator Sample.processor = None ∧
  getKerningMutator Sample.processor
    = (Ok (Some (Sample.mastersOnly Sample.masters_kerning
                   (Sample.at_weight (Scalar (0#1))))),
       set_kerningMutator Sample.processor
         (Some (Sample.mastersOnly Sample.masters_kerning
                  (Sample.at_weight (Scalar (0#1)))))) ∧
  mutator_makeInstance
    (Sample.mastersOnly Sample.masters_kerning (Sample.at_weight (Scalar (0#1))))
    (Sample.at_weight (Scalar (1000#1))) = Ok (kerning Sample.boldFont) ∧
  getKerningMutator Sample.kernedProcessor
    = (Ok (Some Sample.kerningMutator), Sample.kernedProcessor).
Proof.
  destruct (getKerningMutator_cache Sample.processor) as (_ & Hbuilds & _).
  destruct (getKerningMutator_cache Sample.kernedProcessor) as (Hhit & _).
  split; [reflexivity|]. split; [|split].
  - apply (Hbuilds Sample.masters_kerning
             (Sample.at_weight (Scalar (0#1)),
              Some (Sample.mastersOnly Sample.masters_kerning
                      (Sample.at_weight (Scalar (0#1)))))).
    + reflexivity.
    + constructor; [|constructor; [|constructor; [|constructor]]].
      * exists Sample.lightFont.
        split; [vm_compute; reflexivity|]. split; vm_compute; reflexivity.
      * exists Sample.boldFont.
        split; [vm_compute; reflexivity|]. split; vm_compute; reflexivity.
      * exists Sample.boldFont.
        split; [vm_compute; reflexivity|]. split; vm_compute; reflexivity.
    + apply (sample_getVariationModel Sample.masters_kerning); [reflexivity|].
      vm_compute. reflexivity.
  - vm_compute. reflexivity.
  - apply Hhit. reflexivity.
Defined.

(** Witness of X11: with two sources at one location no model of [a] can be
    built; the call raises TypeError and the cache stays empty. *)
Lemma getGlyphMutator_failure_witness :
  (getGlyphMutator "a" false true Sample.doubledProcessor).1 = Raise TypeError ∧
  _glyphMutators (getGlyphMutator "a" false true Sample.doubledProcessor).2
    = _glyphMutators Sample.doubledProcessor.
Proof.
  assert ((getGlyphMutator "a" false true Sample.doubledProcessor).1
          = Raise TypeError) as H1 by (vm_compute; reflexivity).
  assert (getGlyphMutator "a" false true Sample.doubledProcessor
          = (Raise TypeError,
             (getGlyphMutator "a" false true Sample.doubledProcessor).2)) as H.
  { rewrite <- H1. apply surjective_pairing. }
  split; [exact H1|].
  exact (proj1 (getGlyphMutator_failure "a" false true Sample.doubledProcessor _
                  TypeError H)).
Defined.

(** Witness of X12: on the sample, which is loaded, a call without [reload]
    changes nothing; on the document before anything is loaded every source
    gets its font, the sparse source the bold font that its path names. *)
Lemma loadFonts_fonts_witness :
  loadFonts false Sample.processor = (Ok tt, Sample.processor) ∧
  loaded Sample.freshProcessor (loadFonts false Sample.freshProcessor).2 ∧
  fonts (loadFonts false Sample.freshProcessor).2 !! "sparse"
    = Some (Some Sample.boldFont).
Proof.
  assert (∀ p, (loadFonts false p).1 = Ok tt →
               loadFonts false p = (Ok tt, (loadFonts false p).2)) as Hpair.
  { intros p H. rewrite <- H. apply surjective_pairing. }
  assert (loadFonts false Sample.processor
          = (Ok tt, (loadFonts false Sample.processor).2)) as H1
    by (apply Hpair; vm_compute; reflexivity).
  assert (loadFonts false Sample.freshProcessor
          = (Ok tt, (loadFonts false Sample.freshProcessor).2)) as H2
    by (apply Hpair; vm_compute; reflexivity).
  split; [|split].
  - destruct (loadFonts_fonts false Sample.processor _ H1) as (_ & Hsame & _).
    rewrite H1 at 1. apply (f_equal (pair (Ok tt))). apply Hsame; reflexivity.
  - destruct (loadFonts_fonts false Sample.freshProcessor _ H2) as (_ & _ & Hloaded).
    apply Hloaded. left. reflexivity.
  - vm_compute. reflexivity.
Defined.

(** Witness of X13: the glyph [a] of the light master is among the glyph
    names once the fonts are loaded. *)
Lemma loadFonts_glyphNames_witness :
  "a" ∈ glyphNames (loadFonts false Sample.freshProcessor).2.
Proof.
  apply (loadFonts_glyphNames false Sample.freshProcessor); [left; reflexivity|].
  exists "light", Sample.lightFont.
  split; [reflexivity|]. split; [vm_compute; reflexivity|].
  exists Sample.light_a. vm_compute. reflexivity.
Defined.

(** Witness of X15: the document without a default source. *)
Lemma generateUFO_needs_default_witness :
  findDefault (sources Sample.orphanProcessor) (axes Sample.orphanProcessor) = None ∧
  (generateUFO true Sample.orphanProcessor).1
    = Raise (UFOProcessorError
               "Can't generate UFO from this designspace: no default font.") ∧
  disk (generateUFO true Sample.orphanProcessor).2 = disk Sample.orphanProcessor.
Proof.
  assert (findDefault (sources Sample.orphanProcessor) (axes Sample.orphanProcessor)
          = None) as H by (vm_compute; reflexivity).
  destruct (generateUFO_needs_default true Sample.orphanProcessor H) as [Hrun Hdisk].
  split; [exact H|]. split; [by rewrite Hrun|exact Hdisk].
Defined.


(** Witness of X22: the sample has no rules. *)
Lemma applyRules_identity_witness :
  applyRules Sample.processor (Sample.at_weight (Scalar (0#1))) Sample.lightFont
    = Sample.lightFont.
Proof.
  apply (applyRules_identity Sample.processor). vm_compute. reflexivity.
Defined.

(** Witness of X23: the document before the default source is looked for. *)
Lemma makeInstance_needs_default_witness :
  makeInstance Sample.plainInstance false None Sample.orphanProcessor
    = (Raise AttributeError, Sample.orphanProcessor).
Proof.
  apply (proj1 (makeInstance_needs_default Sample.plainInstance false None
                  Sample.orphanProcessor)).
  reflexivity.
Defined.

(** Witness of X18: the glyph loop for [a] alone, from the light font: the
    glyphs [b] and [c] and the kerning are those of the light font. *)
Lemma glyph_loop_frame_witness :
  ∃ font' p',
    for_each (makeGlyph Sample.plainInstance) ["a"] Sample.lightFont Sample.processor
      = (Ok font', p') ∧
    glyphs font' !! "b" = Some Sample.light_b ∧
    kerning font' = kerning Sample.lightFont ∧
    is_Some (glyphs font' !! "a").
Proof.
  destruct (for_each (makeGlyph Sample.plainInstance) ["a"] Sample.lightFont
              Sample.processor) as [[font'|e] p'] eqn:E.
  - destruct (glyph_loop_frame Sample.plainInstance ["a"] Sample.lightFont font'
                Sample.processor p' E) as [(Hglyphs & _ & _ & Hkerning & _) Hkeeps].
    exists font', p'. split; [reflexivity|]. split; [|split; [exact Hkerning|]].
    + rewrite Hglyphs; [vm_compute; reflexivity|].
      intros H. apply list_elem_of_singleton in H. discriminate H.
    + apply Hkeeps. exists Sample.light_a. vm_compute. reflexivity.
  - exfalso.
    assert ((for_each (makeGlyph Sample.plainInstance) ["a"] Sample.lightFont
               Sample.processor).1 = Raise e) as H by (by rewrite E).
    vm_compute in H. discriminate H.
Defined.

(** Witness of X19: the muted glyph [a] is put into the new font as an
    empty glyph. *)
Lemma makeGlyph_skips_witness :
  makeGlyph Sample.mutedInstance "a" newFont Sample.cachedProcessor
    = (Ok (set_glyphs newFont (<["a" := emptyGlyph]> (glyphs newFont))),
       Sample.cachedProcessor).
Proof.
  assert (_glyphMutators Sample.cachedProcessor !! ("a", false)
          = Some (Some Sample.glyphMutator_a)) as Hcached
    by apply lookup_singleton_eq.
  destruct (makeGlyph_skips Sample.mutedInstance "a" newFont Sample.cachedProcessor
              Sample.cachedProcessor) as (_ & _ & Hmuted).
  apply (Hmuted Sample.glyphMutator_a (mkGlyphData (Some true) None None None None)).
  - by apply getGlyphMutator_hit.
  - apply lookup_singleton_eq.
  - reflexivity.
Defined.

(** Witness of X24: the lib of the instance at the light master. *)
Lemma makeInstance_lib_witness :
  ∃ font p',
    makeInstance Sample.plainInstance false None Sample.processor = (Ok font, p') ∧
    lib font !! "designspace"
      = Some (LItems (map_to_list (instance_location Sample.plainInstance))) ∧
    is_Some (lib font !! "public.glyphOrder").
Proof.
  destruct (makeInstance Sample.plainInstance false None Sample.processor)
    as [[font|e] p'] eqn:E.
  - exists font, p'. split; [reflexivity|].
    exact (makeInstance_lib Sample.plainInstance false None Sample.processor p' font E).
  - exfalso.
    assert ((makeInstance Sample.plainInstance false None Sample.processor).1
            = Raise e) as H by (by rewrite E).
    vm_compute in H. discriminate H.
Defined.

(** Witness of X25: when the UFO of the bold master was not found, the
    glyph [a] is left out and the problem of its mutator is noted. *)
Lemma makeGlyph_missing_source_witness :
  Sample.bold ∈ sources Sample.lostProcessor ∧
  fonts Sample.lostProcessor !! source_name Sample.bold = Some None ∧
  ∃ e, makeGlyph Sample.plainInstance "a" newFont Sample.lostProcessor
       = (Ok newFont,
          set_problems Sample.lostProcessor
            (problems Sample.lostProcessor ++ [MutatorProblem "a" e])).
Proof.
  assert (Sample.bold ∈ sources Sample.lostProcessor) as H1
    by (right; left).
  assert (fonts Sample.lostProcessor !! source_name Sample.bold = Some None) as H2
    by (vm_compute; reflexivity).
  split; [exact H1|]. split; [exact H2|].
  apply (proj2 (makeGlyph_missing_source Sample.plainInstance "a" newFont
                  Sample.lostProcessor) Sample.bold H1 H2).
  - intros H. apply list_elem_of_singleton in H. discriminate H.
  - reflexivity.
Defined.
